(** * mazeSolver: a shallow embedding of [main.py] and its verification

    The maze is a Python object with five attributes: [grid_corner],
    [start_point], [grid] (a dict from positions to cell kinds) and the two
    cached solutions.  Positions are pairs of Python integers, so they are
    pairs of [Z]; the dict is a [gmap]; Python lists are Rocq lists in the
    same order (index 0 is the head, [l[-1]] is [last l]).  Exceptions are
    made explicit by the [outcome] type; the two [while] loops are iterated
    step functions. *)

From Stdlib Require Import ZArith Lia String Ascii.
From stdpp Require Import gmap list strings.

Local Open Scope string_scope.
Local Open Scope list_scope.
Local Open Scope nat_scope.

(** ** Exceptions and outcomes *)

Abbreviation point := (Z * Z)%type.

Inductive exn :=
| AssertionError (msg : string)
| IndexError
| KeyError (key : point)
| TypeError
| InvalidMazeChar (char : ascii) (position : point)
| MultipleStartError (position : point)
| NoStartError.

(** What a call does: it returns a value or raises.  [OutOfFuel] only marks
    a bounded loop that was cut off; [fuel_suffices_bfs] and
    [fuel_suffices_dfs] below show that the searches never produce it. *)
Inductive outcome (A : Type) :=
| Return (a : A)
| Raise (e : exn)
| OutOfFuel.
Arguments Return {A} a.
Arguments Raise {A} e.
Arguments OutOfFuel {A}.

#[global] Instance outcome_ret : MRet outcome := @Return.
#[global] Instance outcome_bind : MBind outcome := λ A B f r,
  match r with
  | Return a => f a
  | Raise e => Raise e
  | OutOfFuel => OutOfFuel
  end.

(** [for x in l: body] over an accumulated state. *)
Fixpoint for_each {A St : Type} (l : list A) (body : A → St → outcome St)
    (s : St) : outcome St :=
  match l with
  | [] => Return s
  | x :: l' => s' ← body x s; for_each l' body s'
  end.

(** [range(n)] and [enumerate(l)]. *)
Definition range (n : nat) : list nat := seq 0 n.

Fixpoint enumerate_from {A : Type} (k : nat) (l : list A) : list (nat * A) :=
  match l with
  | [] => []
  | x :: l' => (k, x) :: enumerate_from (S k) l'
  end.
Definition enumerate {A : Type} (l : list A) : list (nat * A) :=
  enumerate_from 0 l.

(** [l.pop()]: the last element and the list without it. *)
Definition list_pop {A : Type} (l : list A) : option (A * list A) :=
  match last l with
  | None => None
  | Some x => Some (x, removelast l)
  end.

(** [l[-1] = v]. *)
Definition set_last {A : Type} (l : list A) (v : A) : list A :=
  <[pred (length l) := v]> l.

(** A [while] loop as the iteration of its body: the body maps a state to
    the next state ([inl]) or leaves the loop with a result ([inr]).  The
    fuel is binary, so that large bounds cost nothing until they are used. *)
Fixpoint iterate {St R : Type} (step : St → St + R) (fuel : positive) (s : St)
  : St + R :=
  match fuel with
  | xH => step s
  | xO n =>
      match iterate step n s with
      | inl s' => iterate step n s'
      | inr r => inr r
      end
  | xI n =>
      match step s with
      | inl s' =>
          match iterate step n s' with
          | inl s'' => iterate step n s''
          | inr r => inr r
          end
      | inr r => inr r
      end
  end.

(** The same loop with unary fuel, used to reason about [iterate]. *)
Fixpoint iterate_nat {St R : Type} (step : St → St + R) (fuel : nat) (s : St)
  : St + R :=
  match fuel with
  | O => inl s
  | S n =>
      match step s with
      | inl s' => iterate_nat step n s'
      | inr r => inr r
      end
  end.

(** ** Cell kinds *)

Inductive CellType := FREE | WALL | START | END.

#[global] Instance CellType_eq_dec : EqDecision CellType.
Proof. solve_decision. Defined.

Module CellType.

Definition value (member : CellType) : ascii :=
  match member with
  | FREE => " "
  | WALL => "#"
  | START => "S"
  | END => "E"
  end%char.

Definition members : list CellType := [FREE; WALL; START; END].

(** [{member.value: member for member in cls.__members__.values()}] *)
Definition chars_to_ct : gmap ascii CellType :=
  list_to_map ((λ member, (value member, member)) <$> members).

End CellType.

(** ** The maze object *)

Record Maze := {
  grid_corner : nat * nat;
  start_point : point;
  grid : gmap point CellType;
  bfs_solution : option (list point);
  dfs_solution : option (list point)
}.

Definition set_bfs_solution (v : option (list point)) (self : Maze) : Maze :=
  {| grid_corner := grid_corner self; start_point := start_point self;
     grid := grid self; bfs_solution := v;
     dfs_solution := dfs_solution self |}.

Definition set_dfs_solution (v : option (list point)) (self : Maze) : Maze :=
  {| grid_corner := grid_corner self; start_point := start_point self;
     grid := grid self; bfs_solution := bfs_solution self;
     dfs_solution := v |}.

(** What a method call leaves behind besides its result: the object after
    the call and the observable events, in order. *)
Inductive algorithm := BFS | DFS.

Inductive event :=
| SearchCall (a : algorithm)
| Stdout (msg : string).

Definition method (A : Type) : Type := (outcome A * Maze * list event)%type.

Definition result_of {A : Type} (r : method A) : outcome A := r.1.1.
Definition maze_of {A : Type} (r : method A) : Maze := r.1.2.
Definition events_of {A : Type} (r : method A) : list event := r.2.

Definition searches (a : algorithm) (evs : list event) : nat :=
  length (List.filter
            (λ ev, match ev, a with
                   | SearchCall BFS, BFS | SearchCall DFS, DFS => true
                   | _, _ => false
                   end) evs).

(** The outcome of a search loop before it is stored and reported. *)
Inductive search_result :=
| Found (solution : list point)
| NotFound
| Failed (e : exn).

Inductive dfs_state :=
| Outer (route : list point) (possible_steps : list (list point))
| Inner (route : list point) (possible_steps : list (list point)).

Definition newline : ascii := "010"%char.

Module Maze.

Definition _point_neighbours (point : point) : list (Z * Z) :=
  [ (point.1 + 1, point.2);
    (point.1 - 1, point.2);
    (point.1, point.2 + 1);
    (point.1, point.2 - 1) ]%Z.

(** *** Construction *)

(** [s.split(sep)] for a one-character separator. *)
Fixpoint split (sep : ascii) (s : string) : list string :=
  match s with
  | EmptyString => [EmptyString]
  | String c s' =>
      if Ascii.eqb c sep then EmptyString :: split sep s'
      else match split sep s' with
           | [] => [String c EmptyString]
           | line :: lines => String c line :: lines
           end
  end.

(** [list(filter(lambda x: len(x) != 0 and not x.startswith("//"), ...))] *)
Definition keep_line (x : string) : bool :=
  negb (String.length x =? 0) && negb (String.prefix "//" x).

Definition raw_lines (raw_maze : string) : list string :=
  List.filter keep_line (split newline raw_maze).

(** [for line in raw_maze: assert len(line) == len(raw_maze[0])] *)
Definition check_lengths (raw_maze : list string) : outcome unit :=
  for_each raw_maze
    (λ line _,
       match head raw_maze with
       | None => Raise IndexError
       | Some line0 =>
           if String.length line =? String.length line0 then Return tt
           else Raise (AssertionError "All lines must have the same length!")
       end) tt.

Definition position (line_idx char_idx : nat) : point :=
  (Z.of_nat line_idx, Z.of_nat char_idx).

(** The body of the inner [for] of the constructor; the state is
    [self.grid] with [self.start_point]. *)
Definition read_char (line_idx : nat) (ic : nat * ascii)
    (st : gmap point CellType * option point)
  : outcome (gmap point CellType * option point) :=
  let '(char_idx, char) := ic in
  let '(grid, start_point) := st in
  match CellType.chars_to_ct !! char with
  | None => Raise (InvalidMazeChar char (position line_idx char_idx))
  | Some ct =>
      let grid := <[position line_idx char_idx := ct]> grid in
      if decide (ct = START ∧ start_point ≠ None) then
        Raise (MultipleStartError (position line_idx char_idx))
      else if decide (ct = START) then
        Return (grid, Some (position line_idx char_idx))
      else Return (grid, start_point)
  end.

Definition read_line (il : nat * string)
    (st : gmap point CellType * option point)
  : outcome (gmap point CellType * option point) :=
  let '(line_idx, line) := il in
  for_each (enumerate (list_ascii_of_string line)) (read_char line_idx) st.

(** [Maze(path)], from the text of the file at [path]. *)
Definition __init__ (raw_maze : string) : outcome Maze :=
  let raw_maze := raw_lines raw_maze in
  _ ← check_lengths raw_maze;
  line0 ← match head raw_maze with
          | None => Raise IndexError
          | Some line0 => Return line0
          end;
  let grid_corner := (length raw_maze, String.length line0) in
  st ← for_each (enumerate raw_maze) read_line (∅, None);
  match st.2 with
  | None => Raise NoStartError
  | Some start_point =>
      Return {| grid_corner := grid_corner; start_point := start_point;
                grid := st.1; bfs_solution := None; dfs_solution := None |}
  end.

(** *** Rendering *)

Definition add_char (out : string) (c : ascii) : string :=
  out +:+ String c EmptyString.

Definition __str__ (self : Maze) : outcome string :=
  for_each (range (grid_corner self).1)
    (λ row_idx out,
       out ← for_each (range (grid_corner self).2)
               (λ col_idx out,
                  match grid self !! position row_idx col_idx with
                  | None => Raise (KeyError (position row_idx col_idx))
                  | Some ct => Return (add_char out (CellType.value ct))
                  end) out;
       Return (add_char out newline)) "".

(** The body shared by [view_bfs] and [view_dfs]; [solution] is the
    cached attribute, and [x in None] is a [TypeError]. *)
Definition view (self : Maze) (solution : option (list point))
  : outcome string :=
  for_each (range (grid_corner self).1)
    (λ row_idx out,
       out ← for_each (range (grid_corner self).2)
               (λ col_idx out,
                  match solution with
                  | None => Raise TypeError
                  | Some solution =>
                      if decide (position row_idx col_idx ∈ solution) then
                        Return (add_char out "*"%char)
                      else
                        match grid self !! position row_idx col_idx with
                        | None => Raise (KeyError (position row_idx col_idx))
                        | Some ct => Return (add_char out (CellType.value ct))
                        end
                  end) out;
       Return (add_char out newline)) "".

(** *** Breadth-first search *)

(** The [for nb_point in ...] loop for one [route]: [inl] is the
    [return] in its body, [inr] the [new_routes] after it. *)
Fixpoint bfs_neighbours (grid : gmap point CellType) (route : list point)
    (nb_points : list point) (new_routes : list (list point))
  : list point + list (list point) :=
  match nb_points with
  | [] => inr new_routes
  | nb_point :: rest =>
      match grid !! nb_point with
      | None => bfs_neighbours grid route rest new_routes
      | Some ct =>
          if decide (ct = WALL) then
            bfs_neighbours grid route rest new_routes
          else if decide (ct = END) then
            inl (route ++ [nb_point])
          else if decide (nb_point ∈ route) then
            bfs_neighbours grid route rest new_routes
          else
            let new_route := route ++ [nb_point] in
            bfs_neighbours grid route rest (new_routes ++ [new_route])
      end
  end.

(** The [for route in routes] loop. *)
Fixpoint bfs_routes (grid : gmap point CellType) (routes : list (list point))
    (new_routes : list (list point))
  : list (list point) + search_result :=
  match routes with
  | [] => inl new_routes
  | route :: rest =>
      match last route with
      | None => inr (Failed IndexError)
      | Some p =>
          match bfs_neighbours grid route (_point_neighbours p) new_routes with
          | inl solution => inr (Found solution)
          | inr new_routes => bfs_routes grid rest new_routes
          end
      end
  end.

(** One turn of [while len(routes) > 0]. *)
Definition bfs_step (grid : gmap point CellType) (routes : list (list point))
  : list (list point) + search_result :=
  if decide (0 < length routes) then bfs_routes grid routes []
  else inr NotFound.

Definition bfs_fuel (grid : gmap point CellType) : positive :=
  Pos.of_succ_nat (S (size grid)).

Definition breadth_first_search (self : Maze)
  : method (option (list point)) :=
  match iterate (bfs_step (grid self)) (bfs_fuel (grid self))
          [[start_point self]] with
  | inr (Found solution) =>
      (Return (Some solution), set_bfs_solution (Some solution) self,
       [SearchCall BFS])
  | inr NotFound =>
      (Return None, self,
       [SearchCall BFS;
        Stdout "We did not find any solutions for the maze!"])
  | inr (Failed e) => (Raise e, self, [SearchCall BFS])
  | inl _ => (OutOfFuel, self, [SearchCall BFS])
  end.

(** *** Depth-first search *)

(** The [for idx, nb_point in enumerate(nb_points)] loop: [inl] is the
    [return] in its body, [inr] the indices collected for removal. *)
Fixpoint dfs_scan (grid : gmap point CellType) (route : list point)
    (nb_points : list (nat * point)) (point_to_remove : list nat)
  : list point + list nat :=
  match nb_points with
  | [] => inr point_to_remove
  | (idx, nb_point) :: rest =>
      match grid !! nb_point with
      | None => dfs_scan grid route rest (point_to_remove ++ [idx])
      | Some ct =>
          if decide (ct = WALL) then
            dfs_scan grid route rest (point_to_remove ++ [idx])
          else if decide (ct = END) then
            inl (route ++ [nb_point])
          else if decide (nb_point ∈ route) then
            dfs_scan grid route rest (point_to_remove ++ [idx])
          else
            dfs_scan grid route rest point_to_remove
      end
  end.

(** [for idx in point_to_remove[::-1]: nb_points.pop(idx)]; the indices
    come from [enumerate(nb_points)], so every [pop(idx)] is in range. *)
Definition remove_points (nb_points : list point)
    (point_to_remove : list nat) : list point :=
  fold_left (λ nb_points idx, delete idx nb_points)
    (reverse point_to_remove) nb_points.

(** One turn of the outer [while len(route) > 0] ([Outer]) or of the
    backtrace loop [while len(possible_steps[-1]) == 0] ([Inner]). *)
Definition dfs_step (grid : gmap point CellType) (st : dfs_state)
  : dfs_state + search_result :=
  match st with
  | Outer route possible_steps =>
      match last route with
      | None => inr NotFound
      | Some p =>
          let nb_points := _point_neighbours p in
          match dfs_scan grid route (enumerate nb_points) [] with
          | inl solution => inr (Found solution)
          | inr point_to_remove =>
              let nb_points := remove_points nb_points point_to_remove in
              match list_pop nb_points with
              | Some (nb_point, nb_points) =>
                  inl (Outer (route ++ [nb_point])
                             (possible_steps ++ [nb_points]))
              | None =>
                  if decide (0 < length possible_steps) then
                    inl (Inner route possible_steps)
                  else inr NotFound
              end
          end
      end
  | Inner route possible_steps =>
      match last possible_steps with
      | None => inr (Failed IndexError)
      | Some steps =>
          if decide (length steps = 0) then
            match list_pop route with
            | None => inr (Failed IndexError)
            | Some (_, route) =>
                inl (Inner route (removelast possible_steps))
            end
          else if decide (length possible_steps = 0) then inr NotFound
          else
            match list_pop steps, last route with
            | Some (nb_point, steps), Some _ =>
                inl (Outer (set_last route nb_point)
                           (set_last possible_steps steps))
            | _, _ => inr (Failed IndexError)
            end
      end
  end.

(** A bound on the number of turns both loops take together on a grid of
    [n] cells; see [dfs_measure]. *)
Fixpoint dfs_weight (base : N) (n : nat) : N :=
  match n with
  | O => base
  | S n' => (4 * dfs_weight base n' + 1)%N
  end.

Definition dfs_fuel (grid : gmap point CellType) : positive :=
  N.succ_pos (dfs_weight (N.of_nat (size grid) + 2) (size grid)).

Definition depth_first_search (self : Maze)
  : method (option (list point)) :=
  match iterate (dfs_step (grid self)) (dfs_fuel (grid self))
          (Outer [start_point self] []) with
  | inr (Found solution) =>
      (Return (Some solution), set_dfs_solution (Some solution) self,
       [SearchCall DFS])
  | inr NotFound =>
      (Return None, self,
       [SearchCall DFS;
        Stdout "We did not find any solutions for the maze!"])
  | inr (Failed e) => (Raise e, self, [SearchCall DFS])
  | inl _ => (OutOfFuel, self, [SearchCall DFS])
  end.

(** *** Views *)

Definition view_bfs (self : Maze) : method string :=
  let '(r, self, evs) :=
    match bfs_solution self with
    | None => breadth_first_search self
    | Some _ => (Return None, self, [])
    end in
  match r with
  | Return _ => (view self (bfs_solution self), self, evs)
  | Raise e => (Raise e, self, evs)
  | OutOfFuel => (OutOfFuel, self, evs)
  end.

Definition view_dfs (self : Maze) : method string :=
  let '(r, self, evs) :=
    match dfs_solution self with
    | None => depth_first_search self
    | Some _ => (Return None, self, [])
    end in
  match r with
  | Return _ => (view self (dfs_solution self), self, evs)
  | Raise e => (Raise e, self, evs)
  | OutOfFuel => (OutOfFuel, self, evs)
  end.

End Maze.

(** ** The command line program *)

(** The world of [main]: a file system with text files, pickled mazes and
    directories under their names.  A [pathlib.Path] is its string with
    the suffix that [Path.suffix] gives; the arguments are what
    [parse_args] returns.  A pickle read as text and a text read as a
    pickle fail to decode. *)
Inductive file :=
| TextFile (content : string)
| PickleFile (obj : Maze)
| Directory.

Abbreviation filesystem := (gmap string file).

Record Path := {
  path_string : string;
  suffix : string
}.

Module Args.
Record Namespace := {
  maze_file : Path;
  algorithm : string;
  output : string;
  save_pickle : bool
}.
End Args.

(** The exceptions that [open] raises, and those that end [main]. *)
Inductive OSError :=
| FileNotFoundError (filename : string)
| IsADirectoryError (filename : string)
| PermissionError (filename : string)
| OtherOSError (errno : nat) (filename : string).

Inductive main_exn :=
| MazeError (e : exn)
| UnknownExtensionError (extension : string)
| OS (e : OSError)
| DecodeError.

Inductive main_result :=
| Exited
| Raised (e : main_exn)
| Unfinished.

(** What the operating system does with
    [with open(name, "w") as f: f.write(...)], and with the same for
    ["wb"] and [pickle.dump].  Whether the file can be opened (the name is
    no directory, its parent directory exists, the permissions allow it,
    ...) and whether the content can be written is for the system to say,
    given the files, the name and the content: the file is [Written], or
    [open] is [Refused] with an exception and nothing changes, or the
    writing is [Broken] off with an exception after [open] has truncated
    the file, which then holds the [rest]. *)
Inductive write_outcome :=
| Written
| Refused (e : OSError)
| Broken (e : OSError) (rest : file).

Definition system := filesystem → string → file → write_outcome.

Definition write_file (sys : system) (fs : filesystem) (name : string)
    (content : file) : main_exn * filesystem + filesystem :=
  match sys fs name content with
  | Written => inr (<[name := content]> fs)
  | Refused e => inl (OS e, fs)
  | Broken e rest => inl (OS e, <[name := rest]> fs)
  end.

(** The first [if] of [main]: [Maze(args.maze_file)] with the two
    assertions at the head of the constructor, or [pickle.load]. *)
Definition load_maze (args : Args.Namespace) (fs : filesystem)
  : main_result + Maze :=
  let name := path_string (Args.maze_file args) in
  if decide (suffix (Args.maze_file args) = ".txt") then
    match fs !! name with
    | None =>
        inl (Raised (MazeError (AssertionError "Invalid path to the maze!")))
    | Some Directory =>
        inl (Raised (MazeError
                       (AssertionError "Path to the maze is not a file!")))
    | Some (PickleFile _) => inl (Raised DecodeError)
    | Some (TextFile raw_maze) =>
        match Maze.__init__ raw_maze with
        | Return maze => inr maze
        | Raise e => inl (Raised (MazeError e))
        | OutOfFuel => inl Unfinished
        end
    end
  else if decide (suffix (Args.maze_file args) = ".pickle") then
    match fs !! name with
    | None => inl (Raised (OS (FileNotFoundError name)))
    | Some Directory => inl (Raised (OS (IsADirectoryError name)))
    | Some (TextFile _) => inl (Raised DecodeError)
    | Some (PickleFile maze) => inr maze
    end
  else inl (Raised (UnknownExtensionError (suffix (Args.maze_file args)))).

(** [solution = maze.view_...()] followed by the writing of the
    solution; [inl] is an exception that ends [main]. *)
Definition write_view (sys : system) (view : Maze → method string)
    (name : string) (st : Maze * filesystem * list event)
  : main_result * filesystem * list event + Maze * filesystem * list event :=
  let '(maze, fs, evs) := st in
  let '(r, maze, evs') := view maze in
  match r with
  | Return solution =>
      match write_file sys fs name (TextFile solution) with
      | inl (e, fs) => inl (Raised e, fs, evs ++ evs')
      | inr fs => inr (maze, fs, evs ++ evs')
      end
  | Raise e => inl (Raised (MazeError e), fs, evs ++ evs')
  | OutOfFuel => inl (Unfinished, fs, evs ++ evs')
  end.

Definition main (sys : system) (args : Args.Namespace) (fs : filesystem)
  : main_result * filesystem * list event :=
  match load_maze args fs with
  | inl r => (r, fs, [])
  | inr maze =>
      let st := (maze, fs, []) in
      match
        if decide (Args.algorithm args = "bfs" ∨
                   Args.algorithm args = "both") then
          write_view sys Maze.view_bfs (Args.output args +:+ "_bfs.txt") st
        else inr st
      with
      | inl stop => stop
      | inr st =>
          match
            if decide (Args.algorithm args = "dfs" ∨
                       Args.algorithm args = "both") then
              write_view sys Maze.view_dfs (Args.output args +:+ "_dfs.txt")
                st
            else inr st
          with
          | inl stop => stop
          | inr (maze, fs, evs) =>
              if Args.save_pickle args then
                match write_file sys fs (Args.output args +:+ ".pickle")
                        (PickleFile maze) with
                | inl (e, fs) => (Raised e, fs, evs)
                | inr fs => (Exited, fs, evs)
                end
              else (Exited, fs, evs)
          end
      end
  end.

(** The system lets every writing of [name] through. *)
Definition lets_through (sys : system) (name : string) : Prop :=
  ∀ fs content, sys fs name content = Written.

(** A system that refuses nothing. *)
Definition willing : system := λ _ _ _, Written.

(** * Vocabulary of the specification and of the proofs *)

(** ** Paths and the invariant of the grid *)

Definition manhattan (p q : point) : Z :=
  (Z.abs (p.1 - q.1) + Z.abs (p.2 - q.2))%Z.

(** Every pair of neighbouring list elements is related by [R]. *)
Definition consecutive (R : point → point → Prop) (l : list point) : Prop :=
  ∀ i p q, l !! i = Some p → l !! S i = Some q → R p q.

(** On the grid and not a wall. *)
Definition walkable (g : gmap point CellType) (p : point) : Prop :=
  ∃ ct, g !! p = Some ct ∧ ct ≠ WALL.

(** On the grid, not a wall and not an end: a cell a search steps onto
    and goes on from. *)
Definition open_cell (g : gmap point CellType) (p : point) : Prop :=
  ∃ ct, g !! p = Some ct ∧ ct ≠ WALL ∧ ct ≠ END.

(** A path that solves the maze: from the start to an END cell, through
    cells that are on the grid and not walls, one grid step at a time.
    Repeated positions are allowed here, which only makes "shortest among
    the valid paths" stronger. *)
Record valid_path (self : Maze) (path : list point) : Prop := {
  valid_path_start : head path = Some (start_point self);
  valid_path_end : ∃ e, last path = Some e ∧ grid self !! e = Some END;
  valid_path_walkable : Forall (walkable (grid self)) path;
  valid_path_steps : consecutive (λ p q, manhattan p q = 1%Z) path
}.

(** The invariant of the Grid: the keys are the rectangle
    [0, rows) × [0, cols), and exactly one position holds START, namely
    [start_point]. *)
Record wf_maze (self : Maze) : Prop := {
  wf_dom : ∀ p, is_Some (grid self !! p) ↔
                (0 ≤ p.1 < Z.of_nat (grid_corner self).1)%Z ∧
                (0 ≤ p.2 < Z.of_nat (grid_corner self).2)%Z;
  wf_start : grid self !! start_point self = Some START;
  wf_start_unique : ∀ p, grid self !! p = Some START → p = start_point self
}.

#[global] Instance open_cell_dec g p : Decision (open_cell g p).
Proof.
  unfold open_cell. destruct (g !! p) as [ct|].
  - destruct (decide (ct ≠ WALL ∧ ct ≠ END)) as [H|H].
    + left. by exists ct.
    + right. intros (? & [= <-] & ?). tauto.
  - right. by intros (? & ? & _).
Defined.

(** ** The searches *)

(** The candidate routes of both searches: [start], extended one
    neighbour at a time by an open cell that is not yet on the route. *)
Inductive route_ok (g : gmap point CellType) (start : point)
  : list point → Prop :=
| route_ok_start : route_ok g start [start]
| route_ok_step route p x :
    route_ok g start route →
    last route = Some p →
    x ∈ Maze._point_neighbours p →
    open_cell g x →
    x ∉ route →
    route_ok g start (route ++ [x]).

(** [e] is an END cell next to the last position of [route]. *)
Definition end_neighbour (g : gmap point CellType) (route : list point)
    (e : point) : Prop :=
  ∃ p, last route = Some p ∧ e ∈ Maze._point_neighbours p ∧ g !! e = Some END.

(** The working set of the breadth-first search in round [j] holds exactly
    the candidate routes of [j] steps. *)
Definition level (g : gmap point CellType) (start : point) (j : nat)
    (routes : list (list point)) : Prop :=
  ∀ r, r ∈ routes ↔ route_ok g start r ∧ length r = S j.

(** No candidate route of at most [n] positions ends next to an END. *)
Definition no_end_within (g : gmap point CellType) (start : point) (n : nat)
  : Prop :=
  ∀ r e, route_ok g start r → length r ≤ n → ¬ end_neighbour g r e.

(** The cells the depth-first search may step onto from [p] with [route]
    behind it. *)
Definition candidate (g : gmap point CellType) (route : list point)
    (p y : point) : Prop :=
  y ∈ Maze._point_neighbours p ∧ open_cell g y ∧ y ∉ route.

(** The invariant of the depth-first search: the route is a candidate
    route, and the frame pushed with each position holds untried
    alternatives for that position. *)
Inductive dfs_inv (g : gmap point CellType) (start : point)
  : list point → list (list point) → Prop :=
| dfs_inv_start : dfs_inv g start [start] []
| dfs_inv_step route possible_steps p x steps :
    dfs_inv g start route possible_steps →
    last route = Some p →
    Forall (candidate g route p) (x :: steps) →
    length steps ≤ 3 →
    dfs_inv g start (route ++ [x]) (possible_steps ++ [steps]).

Definition dfs_state_inv (g : gmap point CellType) (start : point)
    (st : dfs_state) : Prop :=
  match st with
  | Outer route possible_steps | Inner route possible_steps =>
      dfs_inv g start route possible_steps
  end.

(** The termination measure of the depth-first search.  A position at
    depth [d] of the route stands for at most [dfs_level_weight g d] turns
    of the loops; every untried alternative in a frame counts as one such
    position. *)
Definition dfs_level_weight (g : gmap point CellType) (d : nat) : N :=
  Maze.dfs_weight (N.of_nat (size g) + 2) (size g - d).

Fixpoint frames_weight (g : gmap point CellType) (d : nat)
    (possible_steps : list (list point)) : N :=
  match possible_steps with
  | [] => 0
  | steps :: rest =>
      N.of_nat (length steps) * dfs_level_weight g d + frames_weight g (S d) rest
  end%N.

Definition dfs_measure (g : gmap point CellType) (st : dfs_state) : N :=
  match st with
  | Outer _ possible_steps =>
      frames_weight g 1 possible_steps
      + dfs_level_weight g (length possible_steps)
  | Inner _ possible_steps =>
      frames_weight g 1 possible_steps + N.of_nat (length possible_steps) + 1
  end%N.

#[global] Instance candidate_dec g route p y : Decision (candidate g route p y).
Proof. unfold candidate. apply _. Defined.

(** After its first turn the outer loop of the depth-first search always
    has a frame on the stack. *)
Definition dfs_stack_inv (st : dfs_state) : Prop :=
  match st with
  | Outer _ possible_steps => possible_steps ≠ []
  | Inner _ _ => True
  end.

(** The routes the depth-first search has still to try: for every frame
    on the stack, the route below it extended by an alternative of the
    frame. *)
Inductive alternative : list point → list (list point) → list point → Prop :=
| alternative_here route possible_steps x steps a :
    a ∈ steps →
    alternative (route ++ [x]) (possible_steps ++ [steps]) (route ++ [a])
| alternative_below route possible_steps x steps r :
    alternative route possible_steps r →
    alternative (route ++ [x]) (possible_steps ++ [steps]) r.

Definition pending (st : dfs_state) (r : list point) : Prop :=
  match st with
  | Outer route possible_steps => r = route ∨ alternative route possible_steps r
  | Inner route possible_steps => alternative route possible_steps r
  end.

(** Every candidate route that ends next to an END starts with a route
    that is still to be tried. *)
Definition dfs_covers (g : gmap point CellType) (start : point)
    (st : dfs_state) : Prop :=
  ∀ r e, route_ok g start r → end_neighbour g r e →
         ∃ r0, r0 `prefix_of` r ∧ pending st r0.

(** ** The constructor *)

(** The cells of the rows, in the order in which the constructor reads
    them: rows from top to bottom, each row from left to right. *)
Definition row_cells (line_idx : nat) (line : string) : list (point * ascii) :=
  (λ ic, (Maze.position line_idx ic.1, ic.2))
    <$> enumerate (list_ascii_of_string line).

Fixpoint cells_from (k : nat) (raw_maze : list string) : list (point * ascii) :=
  match raw_maze with
  | [] => []
  | line :: rest => row_cells k line ++ cells_from (S k) rest
  end.

Definition cells (raw_maze : list string) : list (point * ascii) :=
  cells_from 0 raw_maze.

(** [Maze.read_char] on a cell. *)
Definition read_cell (pc : point * ascii)
    (st : gmap point CellType * option point)
  : outcome (gmap point CellType * option point) :=
  Maze.read_char (Z.to_nat pc.1.1) (Z.to_nat pc.1.2, pc.2) st.

Definition valid_char (pc : point * ascii) : Prop :=
  is_Some (CellType.chars_to_ct !! pc.2).

Definition count_S (cs : list (point * ascii)) : nat :=
  length (filter (λ pc, pc.2 = "S"%char) cs).

(** Cell positions are never negative. *)
Definition nonneg (pc : point * ascii) : Prop := (0 ≤ pc.1.1 ∧ 0 ≤ pc.1.2)%Z.

(** All rows are as long as [line0]. *)
Definition equal_lengths (raw_maze : list string) (line0 : string) : Prop :=
  Forall (λ line, String.length line = String.length line0) raw_maze.

#[global] Instance equal_lengths_dec rows line0 :
  Decision (equal_lengths rows line0).
Proof. unfold equal_lengths. apply _. Defined.

(** The number of occurrences of a character in a text. *)
Definition count_char (c : ascii) (s : string) : nat :=
  length (filter (λ x, x = c) (list_ascii_of_string s)).

(** ** Rendering and views *)

(** The rows of a list of strings, each followed by a newline. *)
Definition unlines (rows : list string) : string :=
  foldr (λ row out, row +:+ String newline out) "" rows.

(** The character shown for the cell in row [r], column [c]: by the base
    renderer, and by a view with [path] laid over the grid. *)
Definition base_char (self : Maze) (r c : nat) : option ascii :=
  CellType.value <$> grid self !! Maze.position r c.

Definition overlay_char (self : Maze) (path : list point) (r c : nat)
  : option ascii :=
  if decide (Maze.position r c ∈ path) then Some "*"%char
  else base_char self r c.

(** The offset of row [r], column [c] in a rendered block: every row takes
    its cells and one newline. *)
Definition offset (self : Maze) (r c : nat) : nat :=
  r * S (grid_corner self).2 + c.

(** A rendered block, from the character of every cell. *)
Definition render_row (cell : nat → option ascii) (cols : nat) : string :=
  string_of_list_ascii ((λ c, default " "%char (cell c)) <$> seq 0 cols).

Definition render (cell : nat → nat → option ascii) (rows cols : nat) : string :=
  unlines ((λ r, render_row (cell r) cols) <$> seq 0 rows).

(** [out] is [base] with a [*] laid over every cell of [path]: the two
    blocks have the same size, and they differ exactly at the offsets of
    the cells on the path. *)
Definition overlays (self : Maze) (path : list point) (out base : string)
  : Prop :=
  String.length out = String.length base ∧
  ∀ r c, r < (grid_corner self).1 → c ≤ (grid_corner self).2 →
    String.get (offset self r c) out =
    if decide (c < (grid_corner self).2 ∧ Maze.position r c ∈ path)
    then Some "*"%char
    else String.get (offset self r c) base.

(** The solution a view shows: the cached one, or the one its search
    computes when nothing is cached yet. *)
Definition shown_solution (cached : option (list point))
    (search : method (option (list point))) (path : list point) : Prop :=
  cached = Some path ∨
  (cached = None ∧ result_of search = Return (Some path)).

(** [n] calls of a method in a row on the same object: the results, the
    object after the last call and all events. *)
Fixpoint calls {A : Type} (f : Maze → method A) (n : nat) (self : Maze)
  : list (outcome A) * Maze * list event :=
  match n with
  | O => ([], self, [])
  | S n' =>
      let '(r, self', evs) := f self in
      let '(rs, self'', evs') := calls f n' self' in
      (r :: rs, self'', evs ++ evs')
  end.

(** ** Example mazes *)

(** The scenario of the specification: a 3x3 grid with a wall in the
    middle, the start in the top left and the end in the bottom right
    corner. *)
Definition scenario_text : string :=
  "S  " +:+ String newline (" # " +:+ String newline "  E").

Definition scenario : Maze :=
  match Maze.__init__ scenario_text with
  | Return self => self
  | _ => {| grid_corner := (0, 0); start_point := (0, 0)%Z; grid := ∅;
            bfs_solution := None; dfs_solution := None |}
  end.

(** A corridor of two cells without an end. *)
Definition dead_end : Maze :=
  match Maze.__init__ "S " with
  | Return self => self
  | _ => scenario
  end.

(** The scenario without its end cell. *)
Definition no_exit : Maze :=
  match Maze.__init__
          ("S  " +:+ String newline (" # " +:+ String newline "   ")) with
  | Return self => self
  | _ => scenario
  end.

(** * Proofs *)

(** ** Loops *)

Section iterate.
Context {St R : Type} (step : St → St + R).

Lemma iterate_nat_add a b s :
  iterate_nat step (a + b) s =
  match iterate_nat step a s with
  | inl s' => iterate_nat step b s'
  | inr r => inr r
  end.
Proof.
  revert s. induction a as [|a IH]; intros s; simpl; [done|].
  destruct (step s); [apply IH | done].
Qed.

Lemma iterate_iterate_nat fuel s :
  iterate step fuel s = iterate_nat step (Pos.to_nat fuel) s.
Proof.
  revert s. induction fuel as [n IH|n IH|]; intros s; cbn [iterate].
  - rewrite Pos2Nat.inj_xI. cbn [iterate_nat].
    destruct (step s) as [s'|r]; [|done].
    replace (2 * Pos.to_nat n) with (Pos.to_nat n + Pos.to_nat n) by lia.
    rewrite iterate_nat_add, <- IH.
    destruct (iterate step n s'); [apply IH | done].
  - rewrite Pos2Nat.inj_xO.
    replace (2 * Pos.to_nat n) with (Pos.to_nat n + Pos.to_nat n) by lia.
    rewrite iterate_nat_add, <- IH.
    destruct (iterate step n s); [apply IH | done].
  - change (Pos.to_nat 1) with 1. cbn [iterate_nat]. by destruct (step s).
Qed.

Lemma iterate_nat_stable n k s r :
  iterate_nat step n s = inr r → n ≤ k → iterate_nat step k s = inr r.
Proof.
  intros Hn Hle. replace k with (n + (k - n)) by lia.
  by rewrite iterate_nat_add, Hn.
Qed.

(** A loop whose body decreases a measure, under an invariant, ends. *)
Lemma iterate_nat_ends (Inv : St → Prop) (mu : St → nat) :
  (∀ s s', Inv s → step s = inl s' → Inv s' ∧ mu s' < mu s) →
  ∀ n s, Inv s → mu s < n → ∃ r, iterate_nat step n s = inr r.
Proof.
  intros Hstep. induction n as [|n IH]; intros s HI Hmu; [lia|]. simpl.
  destruct (step s) as [s'|r] eqn:Hs; [|by eauto].
  destruct (Hstep _ _ HI Hs). apply IH; [done | lia].
Qed.

End iterate.

(** ** Neighbours and candidate routes *)

Lemma neighbours_manhattan p q :
  q ∈ Maze._point_neighbours p ↔ manhattan p q = 1%Z.
Proof.
  destruct p as [p1 p2], q as [q1 q2].
  unfold Maze._point_neighbours, manhattan; simpl.
  rewrite !elem_of_cons, elem_of_nil. split.
  - intros [H|[H|[H|[H|[]]]]]; injection H as -> ->; lia.
  - intros H.
    assert ((q1 = p1 + 1 ∧ q2 = p2) ∨ (q1 = p1 - 1 ∧ q2 = p2) ∨
            (q1 = p1 ∧ q2 = p2 + 1) ∨ (q1 = p1 ∧ q2 = p2 - 1))%Z
      as [[-> ->]|[[-> ->]|[[-> ->]|[-> ->]]]] by lia; auto.
Qed.

Lemma consecutive_snoc (R : point → point → Prop) l x :
  consecutive R l → (∀ p, last l = Some p → R p x) → consecutive R (l ++ [x]).
Proof.
  intros Hl Hx i p q Hp Hq.
  assert (S i < length (l ++ [x])) as Hlen by (by eapply lookup_lt_Some).
  rewrite length_app in Hlen; simpl in Hlen.
  destruct (decide (S i < length l)).
  - rewrite lookup_app_l in Hp, Hq by lia. eauto.
  - assert (S i = length l) as Hi by lia.
    rewrite lookup_app_l in Hp by lia.
    rewrite lookup_app_r in Hq by lia.
    replace (S i - length l) with 0 in Hq by lia. injection Hq as <-.
    apply Hx. rewrite last_lookup, <- Hi. done.
Qed.

Lemma consecutive_app_l (R : point → point → Prop) l1 l2 :
  consecutive R (l1 ++ l2) → consecutive R l1.
Proof.
  intros H i p q Hp Hq. apply (H i); by apply lookup_app_l_Some.
Qed.

Lemma consecutive_last (R : point → point → Prop) l p x :
  consecutive R (l ++ [x]) → last l = Some p → R p x.
Proof.
  intros H Hp. rewrite last_lookup in Hp.
  assert (l ≠ []) as Hne by (intros ->; done).
  assert (0 < length l) by (destruct l; simpl; [done | lia]).
  apply (H (pred (length l))).
  - by apply lookup_app_l_Some.
  - rewrite lookup_app_r by lia.
    replace (S (pred (length l)) - length l) with 0 by lia. done.
Qed.

Section routes.
Context (g : gmap point CellType) (start : point).

Lemma route_ok_nonempty r : route_ok g start r → r ≠ [].
Proof. intros [] ?; [done | by eapply app_cons_not_nil]. Qed.

Lemma route_ok_head r : route_ok g start r → head r = Some start.
Proof.
  induction 1 as [|r p x Hr IH]; [done|].
  destruct r; [by apply route_ok_nonempty in Hr | done].
Qed.

Lemma route_ok_NoDup r : route_ok g start r → NoDup r.
Proof.
  induction 1; [apply NoDup_singleton|].
  apply NoDup_app. split_and!; [done | | apply NoDup_singleton].
  intros y Hy ->%list_elem_of_singleton. done.
Qed.

Lemma route_ok_tail_open r : route_ok g start r → Forall (open_cell g) (tail r).
Proof.
  induction 1 as [|r p x Hr IH]; [constructor|].
  destruct r as [|a r]; [by apply route_ok_nonempty in Hr|]. simpl in *.
  apply Forall_app. split; [done | by constructor].
Qed.

Lemma route_ok_consecutive r :
  route_ok g start r → consecutive (λ p q, q ∈ Maze._point_neighbours p) r.
Proof.
  induction 1 as [|r p x Hr IH Hp Hx]; [by intros [|?] ? ? ? ?|].
  apply consecutive_snoc; [done|]. intros p' Hp'. congruence.
Qed.

Lemma route_ok_inv r :
  route_ok g start r →
  r = [start] ∨
  ∃ r' p x, r = r' ++ [x] ∧ route_ok g start r' ∧ last r' = Some p ∧
            x ∈ Maze._point_neighbours p ∧ open_cell g x ∧ x ∉ r'.
Proof. intros []; [by left | right; eauto 10]. Qed.

Lemma route_ok_snoc_inv r x :
  route_ok g start (r ++ [x]) → r ≠ [] →
  route_ok g start r ∧ open_cell g x ∧ (x ∉ r) ∧
  (∃ p, last r = Some p ∧ x ∈ Maze._point_neighbours p).
Proof.
  intros H Hne.
  apply route_ok_inv in H as [Heq|(r' & p & x' & Heq & ? & ? & ? & ? & ?)].
  - destruct r as [|? [|? ?]]; done.
  - apply app_inj_tail in Heq as [-> ->]. eauto 10.
Qed.

Lemma route_ok_prefix r1 r2 :
  route_ok g start (r1 ++ r2) → r1 ≠ [] → route_ok g start r1.
Proof.
  induction r2 as [|x r2 IH] using rev_ind; [by rewrite app_nil_r|].
  rewrite app_assoc. intros H Hne. apply IH; [|done].
  apply route_ok_snoc_inv in H as [? _]; [done|]. by destruct r1.
Qed.

Lemma route_ok_length r : route_ok g start r → length r ≤ S (size g).
Proof.
  intros Hr.
  assert (length (tail r) ≤ size g) as Hlen.
  { trans (length (map_to_list g).*1);
      [|by rewrite length_fmap, length_map_to_list].
    apply submseteq_length, NoDup_submseteq.
    - apply route_ok_NoDup in Hr. destruct r; [done|]. by inversion Hr.
    - intros x Hx.
      pose proof (route_ok_tail_open _ Hr) as Hopen.
      rewrite Forall_forall in Hopen. destruct (Hopen x Hx) as (ct & Hct & _).
      apply list_elem_of_fmap. exists (x, ct). split; [done|].
      by apply elem_of_map_to_list. }
  destruct r; simpl in *; lia.
Qed.

Lemma route_ok_no_END r p :
  g !! start = Some START → route_ok g start r → p ∈ r → g !! p ≠ Some END.
Proof.
  intros Hs Hr Hp.
  pose proof (route_ok_head _ Hr) as Hh.
  pose proof (route_ok_tail_open _ Hr) as Ho.
  destruct r as [|a r]; [done|]. injection Hh as ->. simpl in Ho.
  apply elem_of_cons in Hp as [->|Hp]; [congruence|].
  rewrite Forall_forall in Ho. destruct (Ho p Hp) as (ct & ? & ? & ?). congruence.
Qed.

Lemma route_ok_walkable r :
  g !! start = Some START → route_ok g start r → Forall (walkable g) r.
Proof.
  intros Hs Hr.
  pose proof (route_ok_head _ Hr) as Hh.
  pose proof (route_ok_tail_open _ Hr) as Ho.
  destruct r as [|a r]; [done|]. injection Hh as ->. simpl in Ho.
  constructor; [by exists START|].
  eapply Forall_impl; [done|]. intros x (ct & ? & ? & ?). by exists ct.
Qed.

End routes.

(** ** Breadth-first search *)

Section bfs.
Context (g : gmap point CellType).

Lemma bfs_neighbours_inl route nb_points acc solution :
  Maze.bfs_neighbours g route nb_points acc = inl solution →
  ∃ e, e ∈ nb_points ∧ g !! e = Some END ∧ solution = route ++ [e].
Proof.
  revert acc. induction nb_points as [|nb rest IH]; intros acc; simpl; [done|].
  intros H.
  assert (∀ acc', Maze.bfs_neighbours g route rest acc' = inl solution →
    ∃ e, e ∈ nb :: rest ∧ g !! e = Some END ∧ solution = route ++ [e]) as Hrest.
  { intros acc' (e & ? & ? & ?)%IH. exists e. by rewrite elem_of_cons; auto. }
  destruct (g !! nb) as [ct|] eqn:Hnb; [|by eauto].
  repeat case_decide; subst; eauto.
  injection H as <-. exists nb. split_and!; [apply list_elem_of_here | done | done].
Qed.

Lemma bfs_neighbours_inr route nb_points acc acc' :
  Maze.bfs_neighbours g route nb_points acc = inr acc' →
  (∀ e, e ∈ nb_points → g !! e ≠ Some END) ∧
  ∀ r, r ∈ acc' ↔
       r ∈ acc ∨
       ∃ x, x ∈ nb_points ∧ open_cell g x ∧ (x ∉ route) ∧ r = route ++ [x].
Proof.
  revert acc. induction nb_points as [|nb rest IH]; intros acc; simpl.
  { intros [= <-]. split; [by intros ? ?%elem_of_nil|].
    intros r. split; [by left|]. by intros [?|(? & ?%elem_of_nil & _)]. }
  intros H.
  assert (∀ acc0, Maze.bfs_neighbours g route rest acc0 = inr acc' →
            ¬ (open_cell g nb ∧ nb ∉ route) → g !! nb ≠ Some END →
            (∀ e, e ∈ nb :: rest → g !! e ≠ Some END) ∧
            ∀ r, r ∈ acc' ↔
              r ∈ acc0 ∨
              ∃ x, x ∈ nb :: rest ∧ open_cell g x ∧ (x ∉ route) ∧
                   r = route ++ [x]) as Hskip.
  { intros acc0 [HE Hacc]%IH Hnot HnE. split.
    - intros e [->|?]%elem_of_cons; auto.
    - intros r. rewrite Hacc. split; (intros [?|(x & Hx & ? & ? & ?)]; [by left|]).
      + right. exists x. rewrite elem_of_cons. auto.
      + apply elem_of_cons in Hx as [->|?]; [tauto|]. right. eauto. }
  destruct (g !! nb) as [ct|] eqn:Hnb.
  2:{ apply Hskip; [done| |done]. intros [(? & ? & _) _]; congruence. }
  case_decide as HW.
  { apply Hskip; [done| |congruence]. intros [(? & ? & ? & _) _]; congruence. }
  case_decide as HE; [done|].
  case_decide as Hin.
  { apply Hskip; [done|tauto|congruence]. }
  apply IH in H as [HnE Hacc]. split.
  - intros e [->|?]%elem_of_cons; [congruence | auto].
  - intros r. rewrite Hacc, elem_of_app, list_elem_of_singleton. split.
    + intros [[?| ->]|(x & Hx & ? & ? & ?)]; [by left| |].
      * right. exists nb. split_and!; [apply list_elem_of_here | by exists ct | done | done].
      * right. exists x. rewrite elem_of_cons. auto.
    + intros [?|(x & Hx & ? & ? & ->)]; [by auto|].
      apply elem_of_cons in Hx as [->|?]; [by auto|]. right. eauto.
Qed.

Lemma bfs_routes_spec routes acc :
  (∀ r, r ∈ routes → r ≠ []) →
  match Maze.bfs_routes g routes acc with
  | inr (Found solution) =>
      ∃ r e, r ∈ routes ∧ end_neighbour g r e ∧ solution = r ++ [e]
  | inr _ => False
  | inl acc' =>
      (∀ r e, r ∈ routes → ¬ end_neighbour g r e) ∧
      ∀ r', r' ∈ acc' ↔
            r' ∈ acc ∨
            ∃ r p x, r ∈ routes ∧ last r = Some p ∧
                     x ∈ Maze._point_neighbours p ∧ open_cell g x ∧
                     (x ∉ r) ∧ r' = r ++ [x]
  end.
Proof.
  revert acc. induction routes as [|route rest IH]; intros acc Hne;
    cbn [Maze.bfs_routes].
  { split; [by intros ? ? ?%elem_of_nil|]. intros r'. split; [by left|].
    by intros [?|(? & ? & ? & ?%elem_of_nil & _)]. }
  destruct (last route) as [p|] eqn:Hp.
  2:{ apply last_None in Hp. by apply (Hne route); [apply list_elem_of_here|]. }
  destruct (Maze.bfs_neighbours g route (Maze._point_neighbours p) acc)
    as [solution|acc1] eqn:Hnb.
  { apply bfs_neighbours_inl in Hnb as (e & ? & ? & ->).
    exists route, e. split_and!; [apply list_elem_of_here | by exists p | done]. }
  apply bfs_neighbours_inr in Hnb as [HnE Hacc1].
  assert (∀ r, r ∈ rest → r ≠ []) as Hne' by (by intros; apply Hne, list_elem_of_further).
  specialize (IH acc1 Hne'). revert IH.
  destruct (Maze.bfs_routes g rest acc1) as [acc'|[solution| |]]; intros IH;
    [| |done..].
  - destruct IH as [HnE' Hacc']. split.
    + intros r e [->|?]%elem_of_cons; [|by auto].
      intros (p' & Hp' & ? & ?). rewrite Hp in Hp'. injection Hp' as <-.
      by eapply HnE.
    + intros r'. rewrite Hacc', Hacc1. split.
      * intros [[?|(x & ? & ? & ? & ?)]|(r & p' & x & ? & ?)]; [by left| |].
        -- right. exists route, p, x. split_and!; [apply list_elem_of_here|..]; done.
        -- right. exists r, p', x. split; [by apply list_elem_of_further | done].
      * intros [?|(r & p' & x & [->|?]%elem_of_cons & Hp' & ? & ? & ? & ?)];
          [by auto| |].
        -- rewrite Hp in Hp'. injection Hp' as <-. left; right. eauto.
        -- right. exists r, p', x. done.
  - destruct IH as (r & e & ? & ? & ?).
    exists r, e. split; [by apply list_elem_of_further | done].
Qed.

Context (start : point).

Lemma level_start : level g start 0 [[start]].
Proof.
  intros r. rewrite list_elem_of_singleton. split.
  - intros ->. split; [constructor | done].
  - intros [Hr Hlen]. apply route_ok_inv in Hr as [?|(r' & ? & ? & -> & Hr' & _)];
      [done|].
    apply route_ok_nonempty in Hr'. rewrite length_app in Hlen; simpl in Hlen.
    destruct r'; [done | simpl in Hlen; lia].
Qed.

Lemma bfs_step_level j routes :
  level g start j routes →
  match Maze.bfs_step g routes with
  | inl routes' =>
      routes ≠ [] ∧ level g start (S j) routes' ∧
      ∀ r e, route_ok g start r → length r = S j → ¬ end_neighbour g r e
  | inr (Found solution) =>
      ∃ r e, route_ok g start r ∧ length r = S j ∧ end_neighbour g r e ∧
             solution = r ++ [e]
  | inr NotFound => routes = []
  | inr (Failed _) => False
  end.
Proof.
  intros Hlev. unfold Maze.bfs_step. case_decide as Hlen.
  2:{ destruct routes; [done | simpl in Hlen; lia]. }
  assert (∀ r, r ∈ routes → r ≠ []) as Hne.
  { intros r [Hr _]%Hlev. by eapply route_ok_nonempty. }
  pose proof (bfs_routes_spec routes [] Hne) as Hspec. revert Hspec.
  destruct (Maze.bfs_routes g routes []) as [routes'|[solution| |]];
    intros Hspec; [| |done..].
  - destruct Hspec as [HnE Hacc]. split_and!.
    + intros ->. simpl in Hlen. lia.
    + intros r'. rewrite Hacc. split.
      * intros [?%elem_of_nil|(r & p & x & [Hr Hl]%Hlev & ? & ? & ? & ? & ->)];
          [done|].
        split; [by eapply route_ok_step|]. rewrite length_app; simpl; lia.
      * intros [Hr' Hl]. right.
        apply route_ok_inv in Hr' as [->|(r & p & x & -> & ? & ? & ? & ? & ?)];
          [done|].
        exists r, p, x. split_and!; try done. apply Hlev. split; [done|].
        rewrite length_app in Hl; simpl in Hl; lia.
    + intros r e Hr Hl. apply HnE, Hlev. done.
  - destruct Hspec as (r & e & [? ?]%Hlev & ? & ?). eauto 10.
Qed.

Lemma bfs_rounds n :
  match iterate_nat (Maze.bfs_step g) n [[start]] with
  | inl routes =>
      level g start n routes ∧ no_end_within g start n ∧
      ∃ r, route_ok g start r ∧ length r = Nat.max 1 n
  | inr (Found solution) =>
      ∃ r e, route_ok g start r ∧ end_neighbour g r e ∧
             solution = r ++ [e] ∧ no_end_within g start (pred (length r))
  | inr NotFound => ∀ r e, route_ok g start r → ¬ end_neighbour g r e
  | inr (Failed _) => False
  end.
Proof.
  induction n as [|n IH].
  { simpl. split_and!; [apply level_start | | exists [start]; split; [constructor|done]].
    intros r e Hr Hl. apply route_ok_nonempty in Hr. destruct r; simpl in *; [done|lia]. }
  replace (S n) with (n + 1) by lia. rewrite iterate_nat_add. revert IH.
  destruct (iterate_nat (Maze.bfs_step g) n [[start]]) as [routes|res];
    intros IH; [|done].
  destruct IH as (Hlev & Hno & _). cbn [iterate_nat].
  pose proof (bfs_step_level n routes Hlev) as Hstep. revert Hstep.
  destruct (Maze.bfs_step g routes) as [routes'|[solution| |]]; intros Hstep;
    [| | |done].
  - destruct Hstep as (Hne & Hlev' & Hno'). 
    replace (n + 1) with (S n) by lia. split_and!; [done| |].
    + intros r e Hr Hl. destruct (decide (length r = S n)); [by apply Hno'|].
      apply Hno; [done | lia].
    + destruct routes as [|r ?]; [done|].
      destruct (proj1 (Hlev r)) as [Hr Hl]; [apply list_elem_of_here|]. exists r. split; [done|lia].
  - destruct Hstep as (r & e & Hr & Hl & He & ->). exists r, e.
    split_and!; try done. rewrite Hl. done.
  - subst routes. intros r e Hr.
    destruct (decide (length r ≤ n)); [by apply Hno|].
    exfalso. assert (S n ≤ length r) as Hlen by lia.
    assert (route_ok g start (take (S n) r)) as Hpre.
    { apply (route_ok_prefix g start _ (drop (S n) r)).
      - by rewrite take_drop.
      - destruct r; [simpl in Hlen; lia | done]. }
    assert (take (S n) r ∈ @nil (list point)) as []%elem_of_nil.
    apply Hlev. split; [done|]. rewrite length_take. lia.
Qed.

End bfs.

(** ** From candidate routes to valid paths, and back *)

Lemma consecutive_impl (R1 R2 : point → point → Prop) l :
  (∀ p q, R1 p q → R2 p q) → consecutive R1 l → consecutive R2 l.
Proof. intros HR H i p q ? ?. eauto. Qed.

Section paths.
Context (self : Maze).
Hypothesis Hstart : grid self !! start_point self = Some START.

Local Abbreviation g := (grid self).
Local Abbreviation start := (start_point self).

(** A candidate route followed by an END neighbour is a valid path without
    repetitions. *)
Lemma solution_valid r e :
  route_ok g start r → end_neighbour g r e →
  valid_path self (r ++ [e]) ∧ NoDup (r ++ [e]).
Proof.
  intros Hr (p & Hp & Hnb & He). split; [split|].
  - pose proof (route_ok_head _ _ _ Hr). by destruct r.
  - exists e. by rewrite last_snoc.
  - apply Forall_app. split; [by apply (route_ok_walkable g start)|].
    constructor; [|done]. by exists END.
  - apply consecutive_snoc.
    + eapply consecutive_impl; [|by apply (route_ok_consecutive g start)].
      intros ? ?. apply neighbours_manhattan.
    + intros p' Hp'. apply neighbours_manhattan. congruence.
  - apply NoDup_app. split_and!; [by eapply route_ok_NoDup| |apply NoDup_singleton].
    intros y Hy ->%list_elem_of_singleton.
    by eapply route_ok_no_END.
Qed.

(** Loop erasure: a walk from the start either passes an END, and then a
    candidate route reaches a neighbour of an END in fewer steps, or some
    candidate route reaches its last position in no more steps. *)
Lemma walk_to_route l :
  head l = Some start →
  Forall (walkable g) l →
  consecutive (λ p q, manhattan p q = 1%Z) l →
  (∃ r e, route_ok g start r ∧ end_neighbour g r e ∧ S (length r) ≤ length l) ∨
  (∃ r, route_ok g start r ∧ last r = last l ∧ length r ≤ length l).
Proof.
  induction l as [|x l IH] using rev_ind; [done|].
  intros Hhead Hwalk Hcons.
  destruct (decide (l = [])) as [->|Hne].
  { injection Hhead as ->. right. exists [start]. split_and!; [constructor|done..]. }
  apply Forall_app in Hwalk as [Hwalk [(ct & Hx & HW) _]%Forall_cons].
  destruct IH as [(r & e & Hr & He & Hlen)|(r & Hr & Hlast & Hlen)].
  - by destruct l.
  - done.
  - by eapply consecutive_app_l.
  - left. exists r, e. split_and!; [done..|]. rewrite length_app; simpl; lia.
  - destruct (last l) as [y|] eqn:Hy; [|apply last_None in Hy; congruence].
    assert (x ∈ Maze._point_neighbours y) as Hnb.
    { apply neighbours_manhattan.
      by apply (consecutive_last (λ p q, manhattan p q = 1%Z) l y x). }
    rewrite length_app; simpl.
    destruct (decide (ct = END)) as [->|HE].
    { left. exists r, x. split_and!; [done | by exists y | lia]. }
    right. rewrite last_snoc.
    destruct (decide (x ∈ r)) as [Hin|Hin].
    + apply list_elem_of_split in Hin as (r1 & r2 & ->).
      exists (r1 ++ [x]). split_and!.
      * apply (route_ok_prefix _ _ _ r2); [|by destruct r1].
        by rewrite <- app_assoc.
      * by rewrite last_snoc.
      * rewrite !length_app in *; simpl in *; lia.
    + exists (r ++ [x]). split_and!.
      * eapply route_ok_step; [done..| by exists ct | done].
      * by rewrite last_snoc.
      * rewrite length_app; simpl; lia.
Qed.

Lemma valid_path_route l :
  valid_path self l →
  ∃ r e, route_ok g start r ∧ end_neighbour g r e ∧ S (length r) ≤ length l.
Proof.
  intros [Hh (e & He & HE) Hw Hc].
  destruct (walk_to_route l) as [?|(r & Hr & Hlast & _)]; [done..|].
  exfalso. eapply (route_ok_no_END g start r e); [done..| |done].
  apply last_Some_elem_of. congruence.
Qed.

(** *** The breadth-first loop with the fuel the method gives it *)

Lemma bfs_fuel_nat : Pos.to_nat (Maze.bfs_fuel g) = S (S (size g)).
Proof. unfold Maze.bfs_fuel. by rewrite SuccNat2Pos.id_succ. Qed.

Lemma bfs_loop_spec :
  match iterate (Maze.bfs_step g) (Maze.bfs_fuel g) [[start]] with
  | inr (Found solution) =>
      ∃ r e, route_ok g start r ∧ end_neighbour g r e ∧
             solution = r ++ [e] ∧ no_end_within g start (pred (length r))
  | inr NotFound => ∀ r e, route_ok g start r → ¬ end_neighbour g r e
  | _ => False
  end.
Proof.
  rewrite iterate_iterate_nat, bfs_fuel_nat.
  pose proof (bfs_rounds g start (S (S (size g)))) as H. revert H.
  destruct (iterate_nat _ _ _) as [routes|[solution| |]]; [|done..].
  intros (_ & _ & r & Hr & Hlen). apply route_ok_length in Hr. lia.
Qed.

Lemma bfs_found_minimal solution l :
  iterate (Maze.bfs_step g) (Maze.bfs_fuel g) [[start]] = inr (Found solution) →
  valid_path self l → length solution ≤ length l.
Proof.
  intros Hrun Hl. pose proof bfs_loop_spec as H. rewrite Hrun in H.
  destruct H as (r & e & Hr & He & -> & Hno).
  destruct (valid_path_route l Hl) as (r0 & e0 & Hr0 & He0 & Hlen).
  rewrite length_app; simpl.
  destruct (decide (length r0 ≤ pred (length r))); [|lia].
  by destruct (Hno r0 e0).
Qed.

End paths.

(** ** Depth-first search *)

Lemma list_pop_snoc {A} (l : list A) x : list_pop (l ++ [x]) = Some (x, l).
Proof. unfold list_pop. by rewrite last_snoc, removelast_last. Qed.

Lemma list_pop_Some {A} (l l' : list A) x :
  list_pop l = Some (x, l') → l = l' ++ [x].
Proof.
  unfold list_pop. destruct (last l) as [y|] eqn:Hy; [|done].
  apply last_Some in Hy as [l0 ->]. rewrite removelast_last. by intros [= -> ->].
Qed.

Lemma list_pop_None {A} (l : list A) : list_pop l = None → l = [].
Proof.
  unfold list_pop. destruct (last l) eqn:Hl; [done|]. by apply last_None in Hl.
Qed.

Lemma set_last_snoc {A} (l : list A) x v : set_last (l ++ [x]) v = l ++ [v].
Proof.
  unfold set_last. rewrite length_app; simpl.
  replace (pred (length l + 1)) with (length l) by lia.
  rewrite insert_app_r_alt by lia. by rewrite Nat.sub_diag.
Qed.

Lemma dfs_weight_ge base n : (base ≤ Maze.dfs_weight base n)%N.
Proof. induction n; simpl; lia. Qed.

Section dfs.
Context (g : gmap point CellType).

Lemma dfs_scan_inl route nbs k acc solution :
  Maze.dfs_scan g route (enumerate_from k nbs) acc = inl solution →
  ∃ e, e ∈ nbs ∧ g !! e = Some END ∧ solution = route ++ [e].
Proof.
  revert k acc. induction nbs as [|nb rest IH]; intros k acc; [done|].
  cbn [enumerate_from Maze.dfs_scan]. intros H.
  assert (∀ acc', Maze.dfs_scan g route (enumerate_from (S k) rest) acc'
                  = inl solution →
    ∃ e, e ∈ nb :: rest ∧ g !! e = Some END ∧ solution = route ++ [e]) as Hrest.
  { intros acc' (e & ? & ? & ?)%IH. exists e. by rewrite elem_of_cons; auto. }
  destruct (g !! nb) as [ct|] eqn:Hnb; [|by eauto].
  repeat case_decide; subst; eauto.
  injection H as <-. exists nb. split_and!; [apply list_elem_of_here|done..].
Qed.

Lemma dfs_scan_inr route nbs k acc point_to_remove pre :
  Maze.dfs_scan g route (enumerate_from k nbs) acc = inr point_to_remove →
  length pre = k →
  fold_left (λ l idx, delete idx l) (reverse point_to_remove) (pre ++ nbs) =
  fold_left (λ l idx, delete idx l) (reverse acc)
    (pre ++ filter (λ y, open_cell g y ∧ y ∉ route) nbs).
Proof.
  revert k acc pre. induction nbs as [|nb rest IH]; intros k acc pre.
  { by intros [= <-] _. }
  cbn [enumerate_from Maze.dfs_scan]. intros H Hk.
  assert (¬ (open_cell g nb ∧ nb ∉ route) →
          Maze.dfs_scan g route (enumerate_from (S k) rest) (acc ++ [k])
          = inr point_to_remove →
          fold_left (λ l idx, delete idx l) (reverse point_to_remove)
            (pre ++ nb :: rest) =
          fold_left (λ l idx, delete idx l) (reverse acc)
            (pre ++ filter (λ y, open_cell g y ∧ y ∉ route) (nb :: rest)))
    as Hdrop.
  { intros Hnot Hscan. rewrite filter_cons_False by done.
    replace (pre ++ nb :: rest) with ((pre ++ [nb]) ++ rest)
      by (by rewrite <- app_assoc).
    rewrite (IH _ _ (pre ++ [nb]) Hscan) by (rewrite length_app; simpl; lia).
    rewrite reverse_snoc. cbn [fold_left].
    rewrite <- app_assoc. cbn [app]. by rewrite <- Hk, delete_middle. }
  destruct (g !! nb) as [ct|] eqn:Hnb.
  2:{ apply Hdrop; [|done]. intros [(? & ? & _) _]; congruence. }
  case_decide as HW.
  { apply Hdrop; [|done]. intros [(? & ? & ? & _) _]; congruence. }
  case_decide as HE; [done|].
  case_decide as Hin.
  { apply Hdrop; [tauto|done]. }
  rewrite filter_cons_True by (split; [by exists ct | done]).
  replace (pre ++ nb :: rest) with ((pre ++ [nb]) ++ rest)
    by (by rewrite <- app_assoc).
  rewrite (IH _ _ (pre ++ [nb]) H) by (rewrite length_app; simpl; lia).
  by rewrite <- app_assoc.
Qed.

Lemma remove_points_filter route nbs point_to_remove :
  Maze.dfs_scan g route (enumerate nbs) [] = inr point_to_remove →
  Maze.remove_points nbs point_to_remove =
  filter (λ y, open_cell g y ∧ y ∉ route) nbs.
Proof.
  intros H. unfold Maze.remove_points.
  apply (dfs_scan_inr route nbs 0 [] point_to_remove [] H). done.
Qed.

Lemma neighbours_filter_candidates route p :
  Forall (candidate g route p)
    (filter (λ y, open_cell g y ∧ y ∉ route) (Maze._point_neighbours p)).
Proof.
  apply Forall_forall. intros y [[? ?] ?]%list_elem_of_filter. by split.
Qed.

(** The weights of the termination measure. *)

Lemma dfs_level_weight_ge d : (N.of_nat (size g) + 2 ≤ dfs_level_weight g d)%N.
Proof. apply dfs_weight_ge. Qed.

Lemma dfs_level_weight_S d :
  d < size g →
  dfs_level_weight g d = (4 * dfs_level_weight g (S d) + 1)%N.
Proof.
  intros Hd. unfold dfs_level_weight.
  by replace (size g - d) with (S (size g - S d)) by lia.
Qed.

Lemma frames_weight_snoc d ps steps :
  frames_weight g d (ps ++ [steps]) =
  (frames_weight g d ps
   + N.of_nat (length steps) * dfs_level_weight g (d + length ps))%N.
Proof.
  revert d. induction ps as [|f ps IH]; intros d; simpl.
  - rewrite Nat.add_0_r. lia.
  - rewrite IH. replace (S d + length ps) with (d + S (length ps)) by lia. lia.
Qed.

Context (start : point).

Lemma dfs_inv_route_ok route ps :
  dfs_inv g start route ps → route_ok g start route.
Proof.
  induction 1 as [|route ps p x steps _ IH Hp Hc _]; [constructor|].
  apply Forall_cons in Hc as [(? & ? & ?) _]. by eapply route_ok_step.
Qed.

Lemma dfs_inv_length route ps :
  dfs_inv g start route ps → length route = S (length ps).
Proof.
  induction 1; [done|]. rewrite !length_app; simpl; lia.
Qed.

Lemma dfs_inv_snoc_inv route ps steps :
  dfs_inv g start route (ps ++ [steps]) →
  ∃ route' p x,
    route = route' ++ [x] ∧ dfs_inv g start route' ps ∧ last route' = Some p ∧
    Forall (candidate g route' p) (x :: steps) ∧ length steps ≤ 3.
Proof.
  inversion 1 as [Heq1 Heq2|route' ps' p x steps' Hinv Hp Hc Hl Heq1 Heq2].
  - by destruct ps.
  - apply app_inj_tail in Heq2 as [-> ->]. eauto 10.
Qed.

(** The invariant is kept by every turn of the two loops, and a result can
    only be a solution, the report that there is none, or the
    [IndexError] of [possible_steps[-1]] on an empty stack. *)
Lemma dfs_step_inv st :
  dfs_state_inv g start st →
  match Maze.dfs_step g st with
  | inl st' => dfs_state_inv g start st'
  | inr (Found solution) =>
      ∃ r e, route_ok g start r ∧ end_neighbour g r e ∧ solution = r ++ [e]
  | inr NotFound => True
  | inr (Failed e) => e = IndexError
  end.
Proof.
  destruct st as [route ps|route ps]; cbn [dfs_state_inv Maze.dfs_step];
    intros Hinv.
  - destruct (last route) as [p|] eqn:Hp; [|done].
    destruct (Maze.dfs_scan g route (enumerate (Maze._point_neighbours p)) [])
      as [solution|point_to_remove] eqn:Hscan.
    { apply dfs_scan_inl in Hscan as (e & ? & ? & ->).
      exists route, e. split_and!; [by eapply dfs_inv_route_ok | by exists p | done]. }
    rewrite (remove_points_filter _ _ _ Hscan).
    pose proof (neighbours_filter_candidates route p) as Hcand.
    pose proof (length_filter (λ y, open_cell g y ∧ y ∉ route)
                  (Maze._point_neighbours p)) as Hlen.
    destruct (list_pop _) as [[nb rest]|] eqn:Hpop.
    + apply list_pop_Some in Hpop. rewrite Hpop in Hcand, Hlen.
      rewrite length_app in Hlen. simpl in Hlen.
      apply Forall_app in Hcand as [Hrest [Hnb _]%Forall_cons].
      cbn [dfs_state_inv]. eapply dfs_inv_step; [done..| |lia].
      by constructor.
    + by case_decide.
  - destruct (last ps) as [steps|] eqn:Hps; [|done].
    apply last_Some in Hps as [ps' ->].
    apply dfs_inv_snoc_inv in Hinv
      as (route' & p & x & -> & Hinv & Hp & Hcand & Hlen).
    case_decide as Hsteps.
    { rewrite list_pop_snoc, removelast_last. done. }
    case_decide; [done|].
    destruct (list_pop steps) as [[nb steps']|] eqn:Hpop.
    2:{ apply list_pop_None in Hpop. by subst. }
    apply list_pop_Some in Hpop as ->. rewrite last_snoc.
    rewrite !set_last_snoc. cbn [dfs_state_inv].
    apply Forall_cons in Hcand as [_ [Hsteps' [Hnb _]%Forall_cons]%Forall_app].
    rewrite length_app in Hlen; simpl in Hlen.
    eapply dfs_inv_step; [done..| |lia]. by constructor.
Qed.

(** *** Termination *)

Lemma dfs_step_decreases st st' :
  dfs_state_inv g start st →
  Maze.dfs_step g st = inl st' →
  (dfs_measure g st' < dfs_measure g st)%N.
Proof.
  intros Hinv Hstep. pose proof (dfs_step_inv st Hinv) as Hinv'.
  rewrite Hstep in Hinv'. revert Hstep.
  destruct st as [route ps|route ps]; cbn [dfs_state_inv Maze.dfs_step] in *.
  - pose proof (dfs_inv_length _ _ Hinv) as Hlen.
    pose proof (route_ok_length _ _ _ (dfs_inv_route_ok _ _ Hinv)) as Hbound.
    destruct (last route) as [p|]; [|done].
    destruct (Maze.dfs_scan _ _ _ _) as [?|point_to_remove]; [done|].
    destruct (list_pop _) as [[nb rest]|].
    + intros [= <-]. cbn [dfs_state_inv dfs_measure] in *.
      pose proof (dfs_inv_length _ _ Hinv') as Hlen'.
      pose proof (route_ok_length _ _ _ (dfs_inv_route_ok _ _ Hinv')) as Hbound'.
      apply dfs_inv_snoc_inv in Hinv' as (? & ? & ? & _ & _ & _ & _ & Hrest).
      rewrite !length_app in *. simpl in *.
      rewrite frames_weight_snoc.
      rewrite (dfs_level_weight_S (length ps)) by lia.
      replace (length ps + 1) with (S (length ps)) by lia.
      replace (1 + length ps) with (S (length ps)) by lia.
      pose proof (dfs_level_weight_ge (S (length ps))).
      nia.
    + case_decide; [|done]. intros [= <-]. cbn [dfs_measure].
      pose proof (dfs_level_weight_ge (length ps)). lia.
  - destruct (last ps) as [steps|] eqn:Hps; [|done].
    apply last_Some in Hps as [ps' ->].
    apply dfs_inv_snoc_inv in Hinv
      as (route' & p & x & -> & Hinv & Hp & Hcand & Hlen).
    case_decide as Hsteps.
    { rewrite list_pop_snoc, removelast_last. intros [= <-].
      cbn [dfs_measure]. rewrite frames_weight_snoc, !length_app, Hsteps.
      simpl. lia. }
    case_decide; [done|].
    destruct (list_pop steps) as [[nb steps']|] eqn:Hpop.
    2:{ done. }
    apply list_pop_Some in Hpop as ->. rewrite last_snoc.
    rewrite !set_last_snoc. intros [= <-]. cbn [dfs_measure].
    rewrite !frames_weight_snoc, !length_app. simpl.
    replace (length ps' + 1) with (S (length ps')) by lia.
    change (1 + length ps') with (S (length ps')).
    generalize (dfs_level_weight g (S (length ps'))). intros w. lia.
Qed.

Lemma dfs_loop_ends :
  ∃ res, iterate (Maze.dfs_step g) (Maze.dfs_fuel g) (Outer [start] [])
         = inr res.
Proof.
  rewrite iterate_iterate_nat.
  apply (iterate_nat_ends (Maze.dfs_step g) (dfs_state_inv g start)
           (λ st, N.to_nat (dfs_measure g st))).
  - intros s s' Hs Hstep. split.
    + pose proof (dfs_step_inv s Hs) as H. by rewrite Hstep in H.
    + pose proof (dfs_step_decreases s s' Hs Hstep). lia.
  - constructor.
  - unfold Maze.dfs_fuel. cbn [dfs_measure frames_weight length].
    unfold dfs_level_weight. rewrite Nat.sub_0_r.
    pose proof (N.succ_pos_spec
                  (Maze.dfs_weight (N.of_nat (size g) + 2) (size g))). lia.
Qed.

Lemma dfs_loop_spec :
  match iterate (Maze.dfs_step g) (Maze.dfs_fuel g) (Outer [start] []) with
  | inr (Found solution) =>
      ∃ r e, route_ok g start r ∧ end_neighbour g r e ∧ solution = r ++ [e]
  | inr NotFound => True
  | inr (Failed e) => e = IndexError
  | inl _ => False
  end.
Proof.
  destruct dfs_loop_ends as [res Hres]. rewrite Hres.
  rewrite iterate_iterate_nat in Hres.
  assert (∀ n st, dfs_state_inv g start st →
            iterate_nat (Maze.dfs_step g) n st = inr res →
            match res with
            | Found solution =>
                ∃ r e, route_ok g start r ∧ end_neighbour g r e ∧
                       solution = r ++ [e]
            | NotFound => True
            | Failed e => e = IndexError
            end) as Hgen.
  { induction n as [|n IH]; intros st Hst; [done|]. cbn [iterate_nat].
    pose proof (dfs_step_inv st Hst) as Hstep. revert Hstep.
    destruct (Maze.dfs_step g st) as [st'|res']; intros Hstep.
    - by apply IH.
    - by intros [= <-]. }
  eapply Hgen; [|done]. constructor.
Qed.

End dfs.

(** ** Construction *)

Lemma for_each_app {A St} (l1 l2 : list A) (body : A → St → outcome St) s :
  for_each (l1 ++ l2) body s = s' ← for_each l1 body s; for_each l2 body s'.
Proof.
  revert s. induction l1 as [|x l1 IH]; intros s; [done|]. simpl.
  destruct (body x s); simpl; [apply IH | done..].
Qed.

Lemma for_each_ext {A St} (l : list A) (body1 body2 : A → St → outcome St) s :
  (∀ x s, x ∈ l → body1 x s = body2 x s) →
  for_each l body1 s = for_each l body2 s.
Proof.
  revert s. induction l as [|x l IH]; intros s Hext; [done|]. simpl.
  rewrite Hext by apply list_elem_of_here.
  destruct (body2 x s); simpl; [|done..].
  apply IH. intros. by apply Hext, list_elem_of_further.
Qed.

Lemma for_each_fmap {A B St} (f : A → B) (l : list A)
    (body : B → St → outcome St) s :
  for_each (f <$> l) body s = for_each l (λ x, body (f x)) s.
Proof.
  revert s. induction l as [|x l IH]; intros s; [done|]. simpl.
  destruct (body (f x) s); simpl; [apply IH | done..].
Qed.

Lemma elem_of_enumerate_from {A} k (l : list A) i x :
  (i, x) ∈ enumerate_from k l ↔ k ≤ i ∧ l !! (i - k) = Some x.
Proof.
  revert k. induction l as [|a l IH]; intros k; simpl.
  { rewrite elem_of_nil. split; [done | by intros [_ ?]]. }
  rewrite elem_of_cons, IH. split.
  - intros [[= -> ->]|[? ?]].
    + by rewrite Nat.sub_diag.
    + split; [lia|]. by replace (i - k) with (S (i - S k)) by lia.
  - intros [Hk Hl]. destruct (decide (i = k)) as [->|].
    + rewrite Nat.sub_diag in Hl. left. by injection Hl as ->.
    + right. split; [lia|]. by replace (i - k) with (S (i - S k)) in Hl by lia.
Qed.

Lemma fst_enumerate_from {A} k (l : list A) :
  (enumerate_from k l).*1 = seq k (length l).
Proof. revert k. induction l as [|a l IH]; intros k; simpl; by rewrite ?IH. Qed.

Lemma length_list_ascii_of_string s :
  length (list_ascii_of_string s) = String.length s.
Proof. induction s; simpl; by rewrite ?IHs. Qed.

Lemma position_inj r1 c1 r2 c2 :
  Maze.position r1 c1 = Maze.position r2 c2 → r1 = r2 ∧ c1 = c2.
Proof. unfold Maze.position. intros [= ?%Nat2Z.inj ?%Nat2Z.inj]. done. Qed.

Lemma read_cell_position r c ch st :
  read_cell (Maze.position r c, ch) st = Maze.read_char r (c, ch) st.
Proof. unfold read_cell. simpl. by rewrite !Nat2Z.id. Qed.

Lemma elem_of_row_cells r line p ch :
  (p, ch) ∈ row_cells r line ↔
  ∃ c, p = Maze.position r c ∧ list_ascii_of_string line !! c = Some ch.
Proof.
  unfold row_cells, enumerate. rewrite list_elem_of_fmap. split.
  - intros ([c ch'] & [= -> ->] & [_ H]%elem_of_enumerate_from).
    rewrite Nat.sub_0_r in H. eauto.
  - intros (c & -> & H). exists (c, ch). split; [done|].
    apply elem_of_enumerate_from. rewrite Nat.sub_0_r. split; [lia|done].
Qed.

Lemma elem_of_cells_from k rows p ch :
  (p, ch) ∈ cells_from k rows ↔
  ∃ r c line, p = Maze.position (k + r) c ∧ rows !! r = Some line ∧
              list_ascii_of_string line !! c = Some ch.
Proof.
  revert k. induction rows as [|line rows IH]; intros k; simpl.
  { rewrite elem_of_nil. split; [done | by intros (? & ? & ? & _ & ? & _)]. }
  rewrite elem_of_app, elem_of_row_cells, IH. split.
  - intros [(c & -> & ?)|(r & c & line' & -> & ? & ?)].
    + exists 0, c, line. by rewrite Nat.add_0_r.
    + exists (S r), c, line'. split; [f_equal; lia | done].
  - intros ([|r] & c & line' & -> & Hr & ?).
    + injection Hr as ->. left. exists c. by rewrite Nat.add_0_r.
    + right. exists r, c, line'. split; [f_equal; lia | done].
Qed.

Lemma NoDup_row_cells r line : NoDup (row_cells r line).*1.
Proof.
  unfold row_cells, enumerate. rewrite <- list_fmap_compose.
  change ((fst ∘ (λ ic : nat * ascii, (Maze.position r ic.1, ic.2))))
    with (Maze.position r ∘ (fst : nat * ascii → nat)).
  rewrite list_fmap_compose, fst_enumerate_from.
  apply NoDup_fmap_2; [|apply NoDup_seq].
  intros c1 c2 H. by apply position_inj in H as [_ ?].
Qed.

Lemma NoDup_cells_from k rows : NoDup (cells_from k rows).*1.
Proof.
  revert k. induction rows as [|line rows IH]; intros k; simpl; [constructor|].
  rewrite fmap_app. apply NoDup_app. split_and!; [apply NoDup_row_cells| |apply IH].
  intros p [[p' ch] [-> H1]]%list_elem_of_fmap [[p'' ch'] [Heq H2]]%list_elem_of_fmap.
  simpl in Heq. subst p''.
  apply elem_of_row_cells in H1 as (c & -> & _).
  apply elem_of_cells_from in H2 as (r & c' & ? & Heq & _).
  apply position_inj in Heq as [? _]. lia.
Qed.

Lemma for_each_cells_from k rows st :
  for_each (enumerate_from k rows) Maze.read_line st =
  for_each (cells_from k rows) read_cell st.
Proof.
  revert k st. induction rows as [|line rows IH]; intros k st; [done|].
  cbn [enumerate_from for_each cells_from]. rewrite for_each_app.
  assert (Maze.read_line (k, line) st = for_each (row_cells k line) read_cell st)
    as ->.
  { unfold Maze.read_line, row_cells. rewrite for_each_fmap.
    apply for_each_ext. intros [c ch] s _. simpl. by rewrite read_cell_position. }
  destruct (for_each (row_cells k line) read_cell st); simpl; [apply IH|done..].
Qed.

Lemma chars_to_ct_Some ch ct :
  CellType.chars_to_ct !! ch = Some ct ↔ ch = CellType.value ct.
Proof.
  split; [|intros ->; by destruct ct].
  unfold CellType.chars_to_ct, CellType.members. simpl.
  rewrite !lookup_insert, lookup_empty.
  repeat case_decide; subst; by intros [= <-].
Qed.

Lemma read_cell_unfold pos ch g s :
  (0 ≤ pos.1)%Z → (0 ≤ pos.2)%Z →
  read_cell (pos, ch) (g, s) =
  match CellType.chars_to_ct !! ch with
  | None => Raise (InvalidMazeChar ch pos)
  | Some ct =>
      if decide (ct = START ∧ s ≠ None) then Raise (MultipleStartError pos)
      else if decide (ct = START) then Return (<[pos := ct]> g, Some pos)
      else Return (<[pos := ct]> g, s)
  end.
Proof.
  intros H1 H2. unfold read_cell, Maze.read_char, Maze.position. simpl.
  rewrite !Z2Nat.id by done. by destruct pos.
Qed.

Lemma cells_from_nonneg k rows : Forall nonneg (cells_from k rows).
Proof.
  apply Forall_forall. intros [p ch] (r & c & ? & -> & _)%elem_of_cells_from.
  unfold nonneg, Maze.position. simpl. lia.
Qed.

(** What a successful scan of the cells leaves in the grid and in the
    start point. *)
Lemma scan_Return cs g0 s0 g s :
  for_each cs read_cell (g0, s0) = Return (g, s) →
  Forall nonneg cs →
  NoDup cs.*1 →
  (∀ p, p ∈ cs.*1 → g0 !! p = None) →
  (∀ p ct, g !! p = Some ct ↔
           g0 !! p = Some ct ∨
           ∃ ch, (p, ch) ∈ cs ∧ CellType.chars_to_ct !! ch = Some ct) ∧
  Forall valid_char cs ∧
  match s0 with
  | None => ∀ p, s = Some p ↔ (p, "S"%char) ∈ cs
  | Some q => s = Some q ∧ ∀ p, (p, "S"%char) ∉ cs
  end.
Proof.
  revert g0 s0. induction cs as [|[p0 ch] cs IH]; intros g0 s0.
  { intros [= <- <-] _ _ _. split_and!.
    - intros p ct. split; [by left|]. by intros [?|(? & ?%elem_of_nil & _)].
    - constructor.
    - destruct s0 as [q|].
      + split; [done|]. intros p'. apply not_elem_of_nil.
      + intros p'. by rewrite elem_of_nil. }
  cbn [for_each]. intros Hrun [[Hp1 Hp2] Hnn]%Forall_cons Hnd Hfresh.
  rewrite fmap_cons in Hnd, Hfresh. simpl in Hnd, Hfresh, Hp1, Hp2.
  apply NoDup_cons in Hnd as [Hp0 Hnd].
  rewrite read_cell_unfold in Hrun by done.
  destruct (CellType.chars_to_ct !! ch) as [ct0|] eqn:Hch; [|done].
  assert (∀ p, p ∈ cs.*1 → <[p0:=ct0]> g0 !! p = None) as Hfresh'.
  { intros p Hp. rewrite lookup_insert_ne by (by intros ->).
    by apply Hfresh, list_elem_of_further. }
  assert (g0 !! p0 = None) as Hg0 by apply Hfresh, list_elem_of_here.
  assert (∀ s1, for_each cs read_cell (<[p0:=ct0]> g0, s1) = Return (g, s) →
    (∀ p ct, g !! p = Some ct ↔
       g0 !! p = Some ct ∨
       ∃ ch', (p, ch') ∈ (p0, ch) :: cs ∧
              CellType.chars_to_ct !! ch' = Some ct) ∧
    Forall valid_char ((p0, ch) :: cs) ∧
    match s1 with
    | None => ∀ p, s = Some p ↔ (p, "S"%char) ∈ cs
    | Some q => s = Some q ∧ ∀ p, (p, "S"%char) ∉ cs
    end) as Hrest.
  { intros s1 Hrun'.
    destruct (IH _ _ Hrun' Hnn Hnd Hfresh') as (Hg & Hv & Hs). split_and!;
      [|constructor; [by exists ct0 | done]|done].
    intros p ct. rewrite Hg. destruct (decide (p = p0)) as [->|Hp].
    - rewrite lookup_insert_eq. split.
      + intros [[= <-]|(ch' & Hin & ?)]; [right; exists ch; split; [apply list_elem_of_here|done]|].
        right. exists ch'. split; [by apply list_elem_of_further | done].
      + intros [?|(ch' & [[= <-]|Hin]%elem_of_cons & Hct)]; [congruence| |].
        * left. congruence.
        * right. eauto.
    - rewrite lookup_insert_ne by done. split.
      + intros [?|(ch' & Hin & ?)]; [by left|].
        right. exists ch'. split; [by apply list_elem_of_further | done].
      + intros [?|(ch' & [[= ? ?]|Hin]%elem_of_cons & Hct)]; [by left|done|].
        right. eauto. }
  simpl in Hrun. case_decide as Hdup; [done|]. case_decide as HS; simpl in Hrun.
  - subst ct0. apply chars_to_ct_Some in Hch. simpl in Hch. subst ch.
    destruct s0 as [q|]; [by destruct Hdup|].
    destruct (Hrest _ Hrun) as (Hg & Hv & -> & HnS). split_and!; [done..|].
    intros p. rewrite elem_of_cons. split.
    + intros [= ->]. by left.
    + intros [[= ->]|?]; [done|]. by destruct (HnS p).
  - destruct (Hrest _ Hrun) as (Hg & Hv & Hs). split_and!; [done..|].
    assert (ch ≠ "S"%char) as HnS.
    { intros ->. by apply chars_to_ct_Some in Hch; destruct ct0. }
    destruct s0 as [q|].
    + destruct Hs as [-> Hs]. split; [done|].
      intros p [[= ? ?]|?]%elem_of_cons; [done|]. by eapply Hs.
    + intros p. rewrite Hs, elem_of_cons. split; [by right|].
      by intros [[= ? ?]|?].
Qed.

(** A scan of valid characters with at most one start character succeeds. *)
Lemma scan_valid cs g0 s0 :
  Forall nonneg cs →
  Forall valid_char cs →
  count_S cs + match s0 with Some _ => 1 | None => 0 end ≤ 1 →
  ∃ g s, for_each cs read_cell (g0, s0) = Return (g, s) ∧
         (s = None ↔ s0 = None ∧ count_S cs = 0) ∧
         (count_S cs = 0 → s = s0).
Proof.
  revert g0 s0. induction cs as [|[p0 ch] cs IH]; intros g0 s0.
  { intros _ _ _. exists g0, s0. split_and!; [done| |done].
    split; [done | by intros [? _]]. }
  intros [[Hp1 Hp2] Hnn]%Forall_cons [[ct0 Hch] Hv]%Forall_cons Hcount.
  simpl in Hp1, Hp2, Hch. cbn [for_each]. rewrite read_cell_unfold by done.
  rewrite Hch. unfold count_S in *. rewrite filter_cons in *. simpl in *.
  case_decide as HS; simpl in *.
  - subst ch. apply chars_to_ct_Some in Hch. destruct ct0; try done.
    destruct s0 as [q|]; [simpl in Hcount; lia|].
    rewrite decide_False by (intros [_ ?]; congruence).
    rewrite decide_True by done. simpl.
    destruct (IH (<[p0:=START]> g0) (Some p0)) as (g & s & -> & Hs & Hs');
      [done..|simpl; lia|].
    exists g, s. split_and!; [done| |lia].
    split; [|intros [_ ?]; lia]. intros Hn. by apply Hs in Hn as [? _].
  - assert (ct0 ≠ START) as HnS.
    { intros ->. by apply chars_to_ct_Some in Hch. }
    rewrite decide_False by (by intros [? _]). rewrite decide_False by done.
    simpl. by apply IH.
Qed.

Lemma scan_duplicate before pos after g0 :
  Forall nonneg (before ++ (pos, "S"%char) :: after) →
  Forall valid_char before →
  count_S before = 1 →
  for_each (before ++ (pos, "S"%char) :: after) read_cell (g0, None) =
  Raise (MultipleStartError pos).
Proof.
  intros [Hnn [[Hp1 Hp2] _]%Forall_cons]%Forall_app Hv Hc.
  rewrite for_each_app.
  destruct (scan_valid before g0 None) as (g & s & -> & Hs & _); [done..|lia|].
  simpl. cbn [for_each]. rewrite read_cell_unfold by done.
  assert (CellType.chars_to_ct !! "S"%char = Some START) as -> by done.
  rewrite decide_True; [done|]. split; [done|]. intros ->.
  destruct Hs as [[_ ?] _]; [done|lia].
Qed.

(** *** The constructor as a whole *)

Lemma check_loop l line0 :
  for_each l
    (λ line _,
       if String.length line =? String.length line0 then Return tt
       else Raise (AssertionError "All lines must have the same length!")) tt =
  if decide (equal_lengths l line0) then Return tt
  else Raise (AssertionError "All lines must have the same length!").
Proof.
  induction l as [|line l IH]; [done|].
  cbn [for_each]. destruct (String.length line =? String.length line0) eqn:Hlen.
  - apply Nat.eqb_eq in Hlen. simpl. rewrite IH.
    destruct (decide (equal_lengths l line0)) as [Hl|Hl].
    + by rewrite decide_True by (by constructor).
    + rewrite decide_False; [done|]. by intros [_ ?]%Forall_cons.
  - apply Nat.eqb_neq in Hlen. simpl.
    rewrite decide_False; [done|]. by intros [? _]%Forall_cons.
Qed.

Lemma check_lengths_spec rows line0 :
  head rows = Some line0 →
  Maze.check_lengths rows =
  if decide (equal_lengths rows line0) then Return tt
  else Raise (AssertionError "All lines must have the same length!").
Proof.
  intros Hhead. unfold Maze.check_lengths. rewrite Hhead. apply check_loop.
Qed.

Lemma init_unfold text :
  Maze.__init__ text =
  match head (Maze.raw_lines text) with
  | None => Raise IndexError
  | Some line0 =>
      if decide (equal_lengths (Maze.raw_lines text) line0) then
        match for_each (cells (Maze.raw_lines text)) read_cell (∅, None) with
        | Return (g, Some start) =>
            Return {| grid_corner := (length (Maze.raw_lines text),
                                      String.length line0);
                      start_point := start; grid := g;
                      bfs_solution := None; dfs_solution := None |}
        | Return (g, None) => Raise NoStartError
        | Raise e => Raise e
        | OutOfFuel => OutOfFuel
        end
      else Raise (AssertionError "All lines must have the same length!")
  end.
Proof.
  unfold Maze.__init__. generalize (Maze.raw_lines text). intros rows.
  destruct (head rows) as [line0|] eqn:Hhead.
  2:{ apply head_None in Hhead. by subst. }
  rewrite (check_lengths_spec rows line0 Hhead).
  case_decide; [|done]. simpl.
  unfold enumerate, cells. rewrite for_each_cells_from.
  destruct (for_each _ _ _) as [[g [start|]]| |]; done.
Qed.

(** What a successful construction has built. *)
Lemma init_Return text self :
  Maze.__init__ text = Return self →
  ∃ line0,
    head (Maze.raw_lines text) = Some line0 ∧
    equal_lengths (Maze.raw_lines text) line0 ∧
    grid_corner self = (length (Maze.raw_lines text), String.length line0) ∧
    bfs_solution self = None ∧ dfs_solution self = None ∧
    Forall valid_char (cells (Maze.raw_lines text)) ∧
    (∀ p ct, grid self !! p = Some ct ↔
             ∃ ch, (p, ch) ∈ cells (Maze.raw_lines text) ∧
                   CellType.chars_to_ct !! ch = Some ct) ∧
    (∀ p, start_point self = p ↔ (p, "S"%char) ∈ cells (Maze.raw_lines text)).
Proof.
  rewrite init_unfold. generalize (Maze.raw_lines text). intros rows.
  destruct (head rows) as [line0|] eqn:Hhead; [|done].
  case_decide as Hlen; [|done].
  destruct (for_each _ _ _) as [[g [start|]]| |] eqn:Hscan; [|done..].
  intros [= <-]. simpl. exists line0.
  apply scan_Return in Hscan as (Hg & Hv & Hs);
    [|apply cells_from_nonneg|apply NoDup_cells_from|done].
  split_and!; try done.
  - intros p ct. rewrite Hg, lookup_empty. split; [by intros [?|?] | by right].
  - intros p. rewrite <- Hs. split; [by intros -> | by intros [= ->]].
Qed.

Lemma elem_of_cells rows line0 p ch :
  equal_lengths rows line0 →
  (p, ch) ∈ cells rows →
  (0 ≤ p.1 < Z.of_nat (length rows))%Z ∧
  (0 ≤ p.2 < Z.of_nat (String.length line0))%Z.
Proof.
  intros Hlen (r & c & line & -> & Hr & Hc)%elem_of_cells_from.
  apply lookup_lt_Some in Hc. rewrite length_list_ascii_of_string in Hc.
  unfold equal_lengths in Hlen. rewrite Forall_forall in Hlen.
  rewrite (Hlen line) in Hc by (by eapply list_elem_of_lookup_2).
  apply lookup_lt_Some in Hr. unfold Maze.position. simpl. lia.
Qed.

Lemma cells_lookup rows line0 (p : point) :
  equal_lengths rows line0 →
  (0 ≤ p.1 < Z.of_nat (length rows))%Z →
  (0 ≤ p.2 < Z.of_nat (String.length line0))%Z →
  ∃ ch, (p, ch) ∈ cells rows.
Proof.
  intros Hlen Hr Hc.
  destruct (lookup_lt_is_Some_2 rows (Z.to_nat p.1)) as [line Hline]; [lia|].
  unfold equal_lengths in Hlen. rewrite Forall_forall in Hlen.
  pose proof (Hlen line (list_elem_of_lookup_2 _ _ _ Hline)) as Hl.
  destruct (lookup_lt_is_Some_2 (list_ascii_of_string line) (Z.to_nat p.2))
    as [ch Hch]; [rewrite length_list_ascii_of_string; lia|].
  exists ch. apply elem_of_cells_from. exists (Z.to_nat p.1), (Z.to_nat p.2), line.
  split_and!; [|done..]. unfold Maze.position. destruct p as [p1 p2]. simpl in *.
  f_equal; lia.
Qed.

(** Every constructed maze satisfies the invariant of the Grid. *)
Lemma init_wf text self : Maze.__init__ text = Return self → wf_maze self.
Proof.
  intros (line0 & Hhead & Hlen & Hcorner & _ & _ & Hv & Hg & Hs)%init_Return.
  split.
  - intros p. rewrite Hcorner. simpl. split.
    + intros [ct (ch & Hin & _)%Hg]. by eapply elem_of_cells.
    + intros [Hr Hc]. destruct (cells_lookup _ _ p Hlen Hr Hc) as [ch Hin].
      rewrite Forall_forall in Hv. destruct (Hv _ Hin) as [ct Hct].
      exists ct. apply Hg. eauto.
  - apply Hg. exists "S"%char. split; [by apply Hs | done].
  - intros p (ch & Hin & ->%chars_to_ct_Some)%Hg. symmetry. by apply Hs.
Qed.

(** ** Rendering *)

Lemma append_String x (a b : string) : String x a +:+ b = String x (a +:+ b).
Proof. reflexivity. Qed.

Lemma append_EmptyString (b : string) : "" +:+ b = b.
Proof. reflexivity. Qed.

Lemma append_assoc (a b c : string) : (a +:+ b) +:+ c = a +:+ (b +:+ c).
Proof. induction a as [|x a IH]; [done|]. by rewrite !append_String, IH. Qed.

Lemma append_empty_r (a : string) : a +:+ "" = a.
Proof. induction a as [|x a IH]; [done|]. by rewrite append_String, IH. Qed.

Lemma length_append (a b : string) :
  String.length (a +:+ b) = String.length a + String.length b.
Proof.
  induction a as [|x a IH]; [done|]. rewrite append_String. simpl. by rewrite IH.
Qed.

Lemma get_string_of_list_ascii l i :
  String.get i (string_of_list_ascii l) = l !! i.
Proof.
  revert i. induction l as [|x l IH]; intros [|i]; simpl; by rewrite ?IH.
Qed.

Lemma length_string_of_list_ascii l :
  String.length (string_of_list_ascii l) = length l.
Proof. induction l as [|x l IH]; simpl; by rewrite ?IH. Qed.

Lemma get_list_ascii_of_string s i :
  list_ascii_of_string s !! i = String.get i s.
Proof.
  by rewrite <- get_string_of_list_ascii, string_of_list_ascii_of_string.
Qed.

(** A loop that appends one character per index builds the string of
    those characters. *)
Lemma for_each_row (chars : list ascii) (body : nat → string → outcome string)
    k out :
  (∀ i ch out, chars !! i = Some ch →
               body (k + i) out = Return (Maze.add_char out ch)) →
  for_each (seq k (length chars)) body out =
  Return (out +:+ string_of_list_ascii chars).
Proof.
  revert k out. induction chars as [|ch chars IH]; intros k out Hbody.
  { simpl. by rewrite append_empty_r. }
  cbn [length seq for_each].
  rewrite <- (Nat.add_0_r k) at 1. rewrite (Hbody 0 ch) by done. simpl.
  rewrite IH.
  - unfold Maze.add_char.
    by rewrite append_assoc, append_String, append_EmptyString.
  - intros i ch' out' Hi. rewrite <- (Hbody (S i) ch' out' Hi). f_equal. lia.
Qed.

Lemma for_each_rows (lines : list string) (body : nat → string → outcome string)
    k out :
  (∀ i line out, lines !! i = Some line →
                 body (k + i) out = Return (Maze.add_char (out +:+ line) newline)) →
  for_each (seq k (length lines)) body out = Return (out +:+ unlines lines).
Proof.
  revert k out. induction lines as [|line lines IH]; intros k out Hbody.
  { simpl. by rewrite append_empty_r. }
  cbn [length seq for_each].
  rewrite <- (Nat.add_0_r k) at 1. rewrite (Hbody 0 line) by done. simpl.
  rewrite IH.
  - unfold Maze.add_char.
    by rewrite !append_assoc, append_String, append_EmptyString.
  - intros i line' out' Hi. rewrite <- (Hbody (S i) line' out' Hi). f_equal. lia.
Qed.

Lemma length_unlines lines cols :
  Forall (λ line, String.length line = cols) lines →
  String.length (unlines lines) = length lines * S cols.
Proof.
  induction 1 as [|line lines Hl _ IH]; [done|]. simpl.
  rewrite length_append. simpl. lia.
Qed.

Lemma get_append_l (s1 s2 : string) n :
  n < String.length s1 → String.get n (s1 +:+ s2) = String.get n s1.
Proof. intros. symmetry. by apply append_correct1. Qed.

Lemma get_append_r (s1 s2 : string) n :
  String.get (String.length s1 + n) (s1 +:+ s2) = String.get n s2.
Proof. rewrite Nat.add_comm. symmetry. apply append_correct2. Qed.

Lemma get_unlines lines cols r c line :
  Forall (λ line, String.length line = cols) lines →
  lines !! r = Some line →
  c ≤ cols →
  String.get (r * S cols + c) (unlines lines) =
  if decide (c = cols) then Some newline else String.get c line.
Proof.
  intros Hlen. revert r.
  induction Hlen as [|line0 lines Hl _ IH]; intros r Hr Hc; [done|].
  change (unlines (line0 :: lines))
    with (line0 +:+ String newline (unlines lines)).
  destruct r as [|r].
  - injection Hr as ->. case_decide as Hcc.
    + replace (0 * S cols + c) with (String.length line + 0) by lia.
      by rewrite get_append_r.
    + rewrite get_append_l by lia. done.
  - replace (S r * S cols + c)
      with (String.length line0 + S (r * S cols + c)) by lia.
    rewrite get_append_r. simpl. by apply IH.
Qed.

Section render.
Context (cell : nat → nat → option ascii) (rows cols : nat).
Hypothesis Hcell : ∀ r c, r < rows → c < cols → is_Some (cell r c).

Lemma render_row_length r : String.length (render_row (cell r) cols) = cols.
Proof.
  unfold render_row. by rewrite length_string_of_list_ascii, length_fmap, length_seq.
Qed.

Lemma render_length : String.length (render cell rows cols) = rows * S cols.
Proof.
  unfold render. rewrite (length_unlines _ cols).
  - by rewrite length_fmap, length_seq.
  - apply Forall_fmap, Forall_forall. intros r _. apply render_row_length.
Qed.

Lemma render_get r c :
  r < rows → c < cols →
  String.get (r * S cols + c) (render cell rows cols) = cell r c.
Proof.
  intros Hr Hc. unfold render.
  rewrite (get_unlines _ cols r c (render_row (cell r) cols)).
  - rewrite decide_False by lia. unfold render_row.
    rewrite get_string_of_list_ascii, list_lookup_fmap, lookup_seq_lt by done.
    simpl. by destruct (Hcell r c Hr Hc) as [ch ->].
  - apply Forall_fmap, Forall_forall. intros r' _. apply render_row_length.
  - by rewrite list_lookup_fmap, lookup_seq_lt.
  - lia.
Qed.

Lemma render_get_newline r :
  r < rows → String.get (r * S cols + cols) (render cell rows cols) = Some newline.
Proof.
  intros Hr. unfold render.
  rewrite (get_unlines _ cols r cols (render_row (cell r) cols)).
  - by rewrite decide_True.
  - apply Forall_fmap, Forall_forall. intros r' _. apply render_row_length.
  - by rewrite list_lookup_fmap, lookup_seq_lt.
  - done.
Qed.

(** Two nested loops over the rectangle that append [cell r c] for every
    cell and a newline after every row build [render]. *)
Lemma for_each_render (body : nat → nat → string → outcome string) :
  (∀ r c out, r < rows → c < cols →
     body r c out = Return (Maze.add_char out (default " "%char (cell r c)))) →
  for_each (range rows)
    (λ r out, out ← for_each (range cols) (body r) out;
              Return (Maze.add_char out newline)) "" =
  Return (render cell rows cols).
Proof.
  intros Hbody. unfold range.
  pose proof (for_each_rows ((λ r, render_row (cell r) cols) <$> seq 0 rows)) as H.
  rewrite length_fmap, length_seq in H. rewrite H; [done|].
  intros r line out. rewrite list_lookup_fmap.
  destruct (seq 0 rows !! r) as [r'|] eqn:Hr; [|done].
  apply lookup_seq in Hr as [-> Hr]. intros [= <-]. simpl.
  pose proof (for_each_row ((λ c, default " "%char (cell r c)) <$> seq 0 cols)
                (body r) 0 out) as Hrow.
  rewrite length_fmap, length_seq in Hrow. rewrite Hrow; [done|].
  intros c ch out'. rewrite list_lookup_fmap.
  destruct (seq 0 cols !! c) as [c'|] eqn:Hc; [|done].
  apply lookup_seq in Hc as [-> Hc]. intros [= <-]. simpl. by apply Hbody.
Qed.

End render.

(** * The searches as methods *)

Section methods.
Context (self : Maze).

Local Abbreviation g := (grid self).
Local Abbreviation start := (start_point self).

(** The bounded loops of both methods run to their end: the fuel the model
    gives them is never used up. *)
Lemma fuel_suffices_bfs :
  result_of (Maze.breadth_first_search self) ≠ OutOfFuel.
Proof.
  unfold Maze.breadth_first_search. 
  pose proof (bfs_loop_spec self) as H. revert H.
  by destruct (iterate _ _ _) as [?|[?| |]].
Qed.

Lemma fuel_suffices_dfs :
  result_of (Maze.depth_first_search self) ≠ OutOfFuel.
Proof.
  unfold Maze.depth_first_search.
  pose proof (dfs_loop_spec g start) as H. revert H.
  by destruct (iterate _ _ _) as [?|[?| |]].
Qed.

(** More fuel would not change what the loops compute. *)
Lemma bfs_fuel_irrelevant n :
  Pos.to_nat (Maze.bfs_fuel g) ≤ n →
  iterate_nat (Maze.bfs_step g) n [[start]] =
  iterate (Maze.bfs_step g) (Maze.bfs_fuel g) [[start]].
Proof.
  intros Hn. pose proof (bfs_loop_spec self) as H. revert H.
  destruct (iterate _ _ _) as [?|res] eqn:Hrun; [done|]. intros _.
  rewrite iterate_iterate_nat in Hrun. by eapply iterate_nat_stable.
Qed.

Lemma dfs_fuel_irrelevant n :
  Pos.to_nat (Maze.dfs_fuel g) ≤ n →
  iterate_nat (Maze.dfs_step g) n (Outer [start] []) =
  iterate (Maze.dfs_step g) (Maze.dfs_fuel g) (Outer [start] []).
Proof.
  intros Hn. destruct (dfs_loop_ends g start) as [res Hrun]. rewrite Hrun.
  rewrite iterate_iterate_nat in Hrun. by eapply iterate_nat_stable.
Qed.

(** The breadth-first search returns a path or [None]; it never raises. *)
Lemma bfs_outcome :
  (∃ solution,
     Maze.breadth_first_search self =
     (Return (Some solution), set_bfs_solution (Some solution) self,
      [SearchCall BFS]) ∧
     ∃ r e, route_ok g start r ∧ end_neighbour g r e ∧ solution = r ++ [e] ∧
            no_end_within g start (pred (length r))) ∨
  (Maze.breadth_first_search self =
   (Return None, self,
    [SearchCall BFS; Stdout "We did not find any solutions for the maze!"]) ∧
   ∀ r e, route_ok g start r → ¬ end_neighbour g r e).
Proof.
  unfold Maze.breadth_first_search.
  pose proof (bfs_loop_spec self) as H. revert H.
  destruct (iterate _ _ _) as [?|[solution| |]]; [done| | |done]; intros H.
  - left. eauto.
  - by right.
Qed.

(** The depth-first search returns a path or [None], or fails with the
    [IndexError] of its backtrace loop. *)
Lemma dfs_outcome :
  (∃ solution,
     Maze.depth_first_search self =
     (Return (Some solution), set_dfs_solution (Some solution) self,
      [SearchCall DFS]) ∧
     ∃ r e, route_ok g start r ∧ end_neighbour g r e ∧ solution = r ++ [e]) ∨
  Maze.depth_first_search self =
  (Return None, self,
   [SearchCall DFS; Stdout "We did not find any solutions for the maze!"]) ∨
  Maze.depth_first_search self = (Raise IndexError, self, [SearchCall DFS]).
Proof.
  unfold Maze.depth_first_search.
  pose proof (dfs_loop_spec g start) as H. revert H.
  destruct (iterate _ _ _) as [?|[solution| |e]]; [done|..]; intros H.
  - left. eauto.
  - right. by left.
  - right. right. by subst.
Qed.

Hypothesis Hwf : wf_maze self.

Lemma bfs_found_valid solution :
  result_of (Maze.breadth_first_search self) = Return (Some solution) →
  valid_path self solution ∧ NoDup solution ∧
  ∀ path, valid_path self path → length solution ≤ length path.
Proof.
  destruct bfs_outcome as [(sol & -> & r & e & Hr & He & -> & Hno)|[-> _]];
    [|done].
  intros [= <-]. destruct (solution_valid self (wf_start _ Hwf) r e Hr He).
  split_and!; [done..|]. intros path Hpath.
  destruct (valid_path_route self (wf_start _ Hwf) path Hpath)
    as (r0 & e0 & Hr0 & He0 & Hlen).
  rewrite length_app; simpl.
  destruct (decide (length r0 ≤ pred (length r))); [|lia].
  by destruct (Hno r0 e0).
Qed.

Lemma dfs_found_valid solution :
  result_of (Maze.depth_first_search self) = Return (Some solution) →
  valid_path self solution ∧ NoDup solution.
Proof.
  destruct dfs_outcome as [(sol & -> & r & e & Hr & He & ->)|[-> | ->]];
    [|done..].
  intros [= <-]. by apply solution_valid; [apply Hwf|..].
Qed.

(** Where a valid path exists the breadth-first search finds one; where
    none exists it reports that. *)
Lemma bfs_complete path :
  valid_path self path →
  ∃ solution,
    result_of (Maze.breadth_first_search self) = Return (Some solution).
Proof.
  intros (r & e & Hr & He & _)%valid_path_route; [|apply Hwf].
  destruct bfs_outcome as [(sol & -> & _)|[_ Hnone]]; [by eauto|].
  by destruct (Hnone r e).
Qed.

Lemma bfs_not_found :
  (¬ ∃ path, valid_path self path) →
  Maze.breadth_first_search self =
  (Return None, self,
   [SearchCall BFS; Stdout "We did not find any solutions for the maze!"]).
Proof.
  intros Hnone.
  destruct bfs_outcome as [(sol & _ & r & e & Hr & He & _)|[-> _]]; [|done].
  destruct Hnone. exists (r ++ [e]). by apply solution_valid; [apply Hwf|..].
Qed.

End methods.

(** *** How an exhausted depth-first search ends *)

Section dfs_exhausted.
Context (g : gmap point CellType) (start : point).

Lemma dfs_step_stack st :
  dfs_state_inv g start st → dfs_stack_inv st →
  match Maze.dfs_step g st with
  | inl st' => dfs_stack_inv st'
  | inr res => res ≠ NotFound
  end.
Proof.
  destruct st as [route ps|route ps]; cbn [dfs_state_inv dfs_stack_inv Maze.dfs_step];
    intros Hinv Hstack.
  - pose proof (route_ok_nonempty _ _ _ (dfs_inv_route_ok _ _ _ _ Hinv)) as Hne.
    destruct (last route) as [p|] eqn:Hp; [|by apply last_None in Hp].
    destruct (Maze.dfs_scan _ _ _ _); [done|].
    destruct (list_pop _) as [[nb rest]|].
    + cbn [dfs_stack_inv]. by intros [_ ?]%app_eq_nil.
    + rewrite decide_True; [done|]. destruct ps; [done | simpl; lia].
  - destruct (last ps) as [steps|] eqn:Hps; [|done].
    case_decide; [by destruct (list_pop route) as [[? ?]|]|].
    apply last_Some in Hps as [ps' ->].
    rewrite decide_False by (rewrite length_app; simpl; lia).
    destruct (list_pop steps) as [[nb steps']|]; [|done].
    destruct (last route); [|done].
    cbn [dfs_stack_inv]. rewrite set_last_snoc. by intros [_ ?]%app_eq_nil.
Qed.

Lemma dfs_never_NotFound n st :
  dfs_state_inv g start st → dfs_stack_inv st →
  iterate_nat (Maze.dfs_step g) n st ≠ inr NotFound.
Proof.
  revert st. induction n as [|n IH]; intros st Hinv Hstack; [done|].
  cbn [iterate_nat].
  pose proof (dfs_step_inv g start st Hinv) as Hinv'.
  pose proof (dfs_step_stack st Hinv Hstack) as Hstack'.
  destruct (Maze.dfs_step g st) as [st'|res]; [by apply IH|]. congruence.
Qed.

(** The search reports that there is no solution only from its very first
    turn, when the start has no cell to step onto; once it has made a
    step, an exhausted search ends in the [IndexError]. *)
Lemma dfs_loop_NotFound :
  iterate (Maze.dfs_step g) (Maze.dfs_fuel g) (Outer [start] [])
  = inr NotFound →
  ¬ Exists (λ y, open_cell g y ∧ y ∉ [start]) (Maze._point_neighbours start).
Proof.
  rewrite iterate_iterate_nat.
  destruct (Pos.to_nat (Maze.dfs_fuel g)) as [|n]; [done|].
  cbn [iterate_nat].
  pose proof (dfs_step_inv g start (Outer [start] []) (dfs_inv_start g start))
    as Hinv.
  revert Hinv. cbn [Maze.dfs_step last].
  destruct (Maze.dfs_scan _ _ _ _) as [?|point_to_remove] eqn:Hscan; [done|].
  rewrite (remove_points_filter _ _ _ _ Hscan).
  destruct (list_pop _) as [[nb rest]|] eqn:Hpop.
  - intros Hinv Hrun. by apply dfs_never_NotFound in Hrun.
  - intros _ _. apply list_pop_None in Hpop.
    rewrite Exists_exists. intros (y & Hy & HP).
    assert (y ∈ filter (λ y, open_cell g y ∧ y ∉ [start])
                  (Maze._point_neighbours start)) as Hin
      by (by apply list_elem_of_filter).
    rewrite Hpop in Hin. by apply elem_of_nil in Hin.
Qed.

Lemma dfs_loop_Failed e :
  iterate (Maze.dfs_step g) (Maze.dfs_fuel g) (Outer [start] [])
  = inr (Failed e) →
  Exists (λ y, open_cell g y ∧ y ∉ [start]) (Maze._point_neighbours start).
Proof.
  rewrite iterate_iterate_nat.
  destruct (Pos.to_nat (Maze.dfs_fuel g)) as [|n]; [done|].
  cbn [iterate_nat Maze.dfs_step last].
  destruct (Maze.dfs_scan _ _ _ _) as [?|point_to_remove] eqn:Hscan; [done|].
  rewrite (remove_points_filter _ _ _ _ Hscan).
  destruct (list_pop _) as [[nb rest]|] eqn:Hpop; [|done].
  intros _. apply list_pop_Some in Hpop.
  assert (nb ∈ filter (λ y, open_cell g y ∧ y ∉ [start])
                 (Maze._point_neighbours start)) as Hin.
  { rewrite Hpop. apply elem_of_app. right. apply list_elem_of_here. }
  apply list_elem_of_filter in Hin as [HP Hin].
  apply Exists_exists. eauto.
Qed.

End dfs_exhausted.

Lemma neighbours_ne p y : y ∈ Maze._point_neighbours p → y ≠ p.
Proof.
  intros H%neighbours_manhattan ->. unfold manhattan in H. lia.
Qed.

(** On a well-formed maze without a valid path the depth-first search
    reports NotFound only if no neighbour of the start can be stepped
    onto; whenever the start has such a neighbour it raises [IndexError]. *)
Theorem dfs_without_path self :
  wf_maze self →
  (¬ ∃ path, valid_path self path) →
  Maze.depth_first_search self =
  if decide (Exists (open_cell (grid self))
               (Maze._point_neighbours (start_point self)))
  then (Raise IndexError, self, [SearchCall DFS])
  else (Return None, self,
        [SearchCall DFS; Stdout "We did not find any solutions for the maze!"]).
Proof.
  intros Hwf Hnone.
  assert (Exists (open_cell (grid self))
            (Maze._point_neighbours (start_point self)) ↔
          Exists (λ y, open_cell (grid self) y ∧ y ∉ [start_point self])
            (Maze._point_neighbours (start_point self))) as Hiff.
  { rewrite !Exists_exists. split.
    - intros (y & Hy & Ho). exists y. split_and!; [done..|].
      intros ->%list_elem_of_singleton. by apply neighbours_ne in Hy.
    - intros (y & Hy & Ho & _). eauto. }
  pose proof (dfs_loop_spec (grid self) (start_point self)) as Hspec.
  pose proof (dfs_loop_NotFound (grid self) (start_point self)) as HNF.
  pose proof (dfs_loop_Failed (grid self) (start_point self)) as HF.
  unfold Maze.depth_first_search. revert Hspec HNF HF.
  destruct (iterate _ _ _) as [?|[solution| |e]]; intros Hspec HNF HF; [done|..].
  - destruct Hspec as (r & e & Hr & He & ->). destruct Hnone.
    exists (r ++ [e]). by apply solution_valid; [apply Hwf|..].
  - rewrite decide_False; [done|]. rewrite Hiff. by apply HNF.
  - subst e. rewrite decide_True; [done|]. rewrite Hiff. by eapply HF.
Qed.

(** *** The depth-first search misses no solution *)

Lemma alternative_snoc_inv route ps x steps r :
  alternative (route ++ [x]) (ps ++ [steps]) r →
  (∃ a, a ∈ steps ∧ r = route ++ [a]) ∨ alternative route ps r.
Proof.
  inversion 1 as [route' ps' x' steps' a Ha Heq1 Heq2
                 |route' ps' x' steps' r' Halt Heq1 Heq2].
  - apply app_inj_tail in Heq1 as [-> ->]. apply app_inj_tail in Heq2 as [-> ->].
    left. eauto.
  - apply app_inj_tail in Heq1 as [-> ->]. apply app_inj_tail in Heq2 as [-> ->].
    by right.
Qed.

Lemma alternative_nil route r : ¬ alternative route [] r.
Proof. inversion 1; by eapply app_cons_not_nil. Qed.

Section dfs_complete.
Context (g : gmap point CellType).

Lemma dfs_scan_no_END route nbs k acc point_to_remove :
  Maze.dfs_scan g route (enumerate_from k nbs) acc = inr point_to_remove →
  ∀ e, e ∈ nbs → g !! e ≠ Some END.
Proof.
  revert k acc. induction nbs as [|nb rest IH]; intros k acc.
  { by intros _ e ?%elem_of_nil. }
  cbn [enumerate_from Maze.dfs_scan]. intros H e [->|He]%elem_of_cons.
  - destruct (g !! nb) as [ct|]; [|done].
    repeat case_decide; congruence.
  - destruct (g !! nb) as [ct|]; [|by eapply IH].
    repeat case_decide; try done; by eapply IH.
Qed.

Context (start : point).

(** A candidate route that starts with [route] is [route] itself or goes
    on with a cell the search may step onto. *)
Lemma route_ok_extends route r p :
  route_ok g start r → route `prefix_of` r → last route = Some p →
  r = route ∨ ∃ c, (route ++ [c]) `prefix_of` r ∧ candidate g route p c.
Proof.
  intros Hr [k ->] Hp. destruct k as [|c k]; [left; by rewrite app_nil_r|].
  right. exists c. split; [exists k; by rewrite <- app_assoc|].
  assert (route_ok g start (route ++ [c])) as Hc.
  { apply (route_ok_prefix g start _ k); [by rewrite <- app_assoc|].
    by destruct route. }
  apply route_ok_snoc_inv in Hc as (_ & ? & ? & p' & Hp' & ?);
    [|by intros ->]. by replace p with p' by congruence.
Qed.

Lemma dfs_step_covers st :
  dfs_state_inv g start st → dfs_covers g start st →
  match Maze.dfs_step g st with
  | inl st' => dfs_covers g start st'
  | inr (Found _) => True
  | inr _ => ∀ r e, route_ok g start r → ¬ end_neighbour g r e
  end.
Proof.
  destruct st as [route ps|route ps];
    cbn [dfs_state_inv Maze.dfs_step]; intros Hinv Hcov.
  - pose proof (route_ok_nonempty _ _ _ (dfs_inv_route_ok _ _ _ _ Hinv)) as Hne.
    destruct (last route) as [p|] eqn:Hp; [|by apply last_None in Hp].
    destruct (Maze.dfs_scan _ _ _ _) as [?|point_to_remove] eqn:Hscan; [done|].
    pose proof (dfs_scan_no_END _ _ _ _ _ Hscan) as HnoEND.
    rewrite (remove_points_filter _ _ _ _ Hscan).
    (* what the cover says once the route itself is ruled out *)
    assert (∀ r e, route_ok g start r → end_neighbour g r e →
              (∃ c, (route ++ [c]) `prefix_of` r ∧
                    c ∈ filter (λ y, open_cell g y ∧ y ∉ route)
                          (Maze._point_neighbours p)) ∨
              (∃ r0, r0 `prefix_of` r ∧ alternative route ps r0)) as Hcases.
    { intros r e Hr He. destruct (Hcov r e Hr He) as (r0 & Hpre & [->|Halt]);
        [|right; eauto].
      destruct (route_ok_extends route r p Hr Hpre Hp)
        as [->|(c & Hc & Hnb & Hopen & Hnin)].
      - destruct He as (p' & Hp' & He & HE). exfalso.
        eapply HnoEND; [|done]. congruence.
      - left. exists c. split; [done|]. by apply list_elem_of_filter. }
    destruct (list_pop _) as [[nb rest]|] eqn:Hpop.
    + apply list_pop_Some in Hpop. rewrite Hpop in Hcases.
      intros r e Hr He.
      destruct (Hcases r e Hr He) as [(c & Hc & Hin)|(r0 & Hpre & Halt)].
      * apply elem_of_app in Hin as [Hin|Hin%list_elem_of_singleton].
        -- exists (route ++ [c]). split; [done|]. right. by constructor.
        -- subst c. exists (route ++ [nb]). split; [done|]. by left.
      * exists r0. split; [done|]. right. by constructor.
    + apply list_pop_None in Hpop. rewrite Hpop in Hcases. case_decide.
      * intros r e Hr He.
        destruct (Hcases r e Hr He) as [(c & _ & []%elem_of_nil)|?]. done.
      * intros r e Hr He.
        destruct (Hcases r e Hr He)
          as [(c & _ & []%elem_of_nil)|(r0 & _ & Halt)].
        destruct ps; [by apply alternative_nil in Halt | simpl in *; lia].
  - destruct (last ps) as [steps|] eqn:Hps.
    2:{ apply last_None in Hps as ->. intros r e Hr He.
        destruct (Hcov r e Hr He) as (r0 & _ & []%alternative_nil). }
    apply last_Some in Hps as [ps' ->].
    apply dfs_inv_snoc_inv in Hinv
      as (route' & p & x & -> & Hinv & Hp & Hcand & Hlen).
    case_decide as Hsteps.
    { rewrite list_pop_snoc, removelast_last. intros r e Hr He.
      destruct (Hcov r e Hr He) as (r0 & Hpre & Halt).
      apply alternative_snoc_inv in Halt as [(a & Ha & _)|Halt].
      - destruct steps; [by apply elem_of_nil in Ha | done].
      - exists r0. done. }
    rewrite decide_False by (rewrite length_app; simpl; lia).
    destruct (list_pop steps) as [[nb steps']|] eqn:Hpop.
    2:{ apply list_pop_None in Hpop. by subst. }
    apply list_pop_Some in Hpop as ->. rewrite last_snoc, !set_last_snoc.
    intros r e Hr He. destruct (Hcov r e Hr He) as (r0 & Hpre & Halt).
    apply alternative_snoc_inv in Halt as [(a & Ha & ->)|Halt].
    + apply elem_of_app in Ha as [Ha|Ha%list_elem_of_singleton].
      * exists (route' ++ [a]). split; [done|]. right. by constructor.
      * subst a. exists (route' ++ [nb]). split; [done|]. by left.
    + exists r0. split; [done|]. right. by constructor.
Qed.

Lemma dfs_run_covers n st res :
  dfs_state_inv g start st → dfs_covers g start st →
  iterate_nat (Maze.dfs_step g) n st = inr res →
  match res with
  | Found _ => True
  | _ => ∀ r e, route_ok g start r → ¬ end_neighbour g r e
  end.
Proof.
  revert st. induction n as [|n IH]; intros st Hinv Hcov; [done|].
  cbn [iterate_nat].
  pose proof (dfs_step_inv g start st Hinv) as Hinv'.
  pose proof (dfs_step_covers st Hinv Hcov) as Hcov'.
  destruct (Maze.dfs_step g st) as [st'|res']; [by apply IH|].
  intros [= <-]. by destruct res'.
Qed.

Lemma dfs_loop_complete r e :
  route_ok g start r → end_neighbour g r e →
  ∃ solution,
    iterate (Maze.dfs_step g) (Maze.dfs_fuel g) (Outer [start] [])
    = inr (Found solution).
Proof.
  intros Hr He. destruct (dfs_loop_ends g start) as [res Hres].
  rewrite Hres. rewrite iterate_iterate_nat in Hres.
  apply dfs_run_covers in Hres; [| constructor |].
  - destruct res as [solution| |]; [by eauto|by destruct (Hres r e)..].
  - intros r' e' Hr' _. exists [start]. split; [|by left].
    apply route_ok_head in Hr'. destruct r' as [|? r']; [done|].
    injection Hr' as ->. by exists r'.
Qed.

End dfs_complete.

(** Where a valid path exists the depth-first search returns one. *)
Theorem dfs_complete self path :
  wf_maze self → valid_path self path →
  ∃ solution,
    result_of (Maze.depth_first_search self) = Return (Some solution).
Proof.
  intros Hwf (r & e & Hr & He & _)%valid_path_route; [|apply Hwf].
  destruct (dfs_loop_complete _ _ r e Hr He) as [solution Hrun].
  exists solution. unfold Maze.depth_first_search. by rewrite Hrun.
Qed.

(** * Views *)

Section views.
Context (self : Maze).
Hypothesis Hwf : wf_maze self.

Local Abbreviation rows := (grid_corner self).1.
Local Abbreviation cols := (grid_corner self).2.

Lemma wf_cell r c :
  r < rows → c < cols → is_Some (grid self !! Maze.position r c).
Proof. intros. apply (wf_dom _ Hwf). unfold Maze.position. simpl. lia. Qed.

Lemma wf_nonempty : 0 < rows ∧ 0 < cols.
Proof.
  assert (is_Some (grid self !! start_point self)) as H
    by (by rewrite (wf_start _ Hwf)).
  apply (wf_dom _ Hwf) in H. lia.
Qed.

Lemma str_render :
  Maze.__str__ self = Return (render (base_char self) rows cols).
Proof.
  unfold Maze.__str__. apply for_each_render. intros r c out Hr Hc.
  unfold base_char. by destruct (wf_cell r c Hr Hc) as [ct ->].
Qed.

Lemma view_render path :
  Maze.view self (Some path) =
  Return (render (overlay_char self path) rows cols).
Proof.
  unfold Maze.view. apply for_each_render. intros r c out Hr Hc.
  unfold overlay_char, base_char. case_decide; [done|].
  by destruct (wf_cell r c Hr Hc) as [ct ->].
Qed.

Lemma view_None : Maze.view self None = Raise TypeError.
Proof.
  unfold Maze.view, range. destruct wf_nonempty as [Hr Hc].
  destruct rows as [|r]; [lia|]. destruct cols as [|c]; [lia|]. reflexivity.
Qed.

Lemma base_char_Some r c : r < rows → c < cols → is_Some (base_char self r c).
Proof.
  intros Hr Hc. unfold base_char.
  by destruct (wf_cell r c Hr Hc) as [ct ->].
Qed.

Lemma overlay_char_Some path r c :
  r < rows → c < cols → is_Some (overlay_char self path r c).
Proof.
  intros Hr Hc. unfold overlay_char. case_decide; [done|].
  by apply base_char_Some.
Qed.

Lemma render_overlays path :
  overlays self path (render (overlay_char self path) rows cols)
    (render (base_char self) rows cols).
Proof.
  split; [by rewrite !render_length|]. intros r c Hr Hc. unfold offset.
  destruct (decide (c = cols)) as [->|Hne].
  - rewrite decide_False by lia. by rewrite !render_get_newline.
  - rewrite !render_get by (try lia; auto using base_char_Some, overlay_char_Some).
    unfold overlay_char. case_decide.
    + rewrite decide_True; [done|]. split; [lia|done].
    + rewrite decide_False; [done|]. tauto.
Qed.

End views.

Lemma view_bfs_cached self path :
  bfs_solution self = Some path →
  Maze.view_bfs self = (Maze.view self (Some path), self, []).
Proof. intros H. unfold Maze.view_bfs. rewrite H. simpl. by rewrite H. Qed.

Lemma view_dfs_cached self path :
  dfs_solution self = Some path →
  Maze.view_dfs self = (Maze.view self (Some path), self, []).
Proof. intros H. unfold Maze.view_dfs. rewrite H. simpl. by rewrite H. Qed.

Lemma calls_unchanged {A} (f : Maze → method A) self r n :
  f self = (r, self, []) → calls f n self = (replicate n r, self, []).
Proof.
  intros Hf. induction n as [|n IH]; [done|]. simpl. by rewrite Hf, IH.
Qed.

Lemma view_set_bfs_solution self v sol :
  Maze.view (set_bfs_solution v self) sol = Maze.view self sol.
Proof. done. Qed.

Lemma view_set_dfs_solution self v sol :
  Maze.view (set_dfs_solution v self) sol = Maze.view self sol.
Proof. done. Qed.

(** What [view_bfs] does when nothing is cached. *)
Lemma view_bfs_fresh self :
  wf_maze self → bfs_solution self = None →
  (∃ solution,
     result_of (Maze.breadth_first_search self) = Return (Some solution) ∧
     Maze.view_bfs self =
     (Maze.view self (Some solution), set_bfs_solution (Some solution) self,
      [SearchCall BFS])) ∨
  ((∀ solution,
      result_of (Maze.breadth_first_search self) ≠ Return (Some solution)) ∧
   ∃ evs, Maze.view_bfs self = (Raise TypeError, self, evs)).
Proof.
  intros Hwf Hnone. unfold Maze.view_bfs. rewrite Hnone.
  destruct (bfs_outcome self) as [(sol & Heq & _)|[Heq _]]; rewrite Heq.
  - left. exists sol. split; [done|]. simpl. by rewrite view_set_bfs_solution.
  - right. split; [done|]. rewrite Hnone, (view_None _ Hwf). eauto.
Qed.

Lemma view_dfs_fresh self :
  wf_maze self → dfs_solution self = None →
  (∃ solution,
     result_of (Maze.depth_first_search self) = Return (Some solution) ∧
     Maze.view_dfs self =
     (Maze.view self (Some solution), set_dfs_solution (Some solution) self,
      [SearchCall DFS])) ∨
  ((∀ solution,
      result_of (Maze.depth_first_search self) ≠ Return (Some solution)) ∧
   ∃ e evs, Maze.view_dfs self = (Raise e, self, evs)).
Proof.
  intros Hwf Hnone. unfold Maze.view_dfs. rewrite Hnone.
  destruct (dfs_outcome self) as [(sol & Heq & _)|[Heq|Heq]]; rewrite Heq.
  - left. exists sol. split; [done|]. simpl. by rewrite view_set_dfs_solution.
  - right. split; [done|]. rewrite Hnone, (view_None _ Hwf). eauto.
  - right. split; [done|]. eauto.
Qed.

(** * The claims *)

Lemma scenario_init : Maze.__init__ scenario_text = Return scenario.
Proof. vm_compute. reflexivity. Qed.

Lemma scenario_wf : wf_maze scenario.
Proof. apply (init_wf scenario_text), scenario_init. Qed.

Lemma scenario_path_valid :
  valid_path scenario [(0, 0); (0, 1); (0, 2); (1, 2); (2, 2)]%Z.
Proof.
  split.
  - vm_compute. reflexivity.
  - exists (2, 2)%Z. split; vm_compute; reflexivity.
  - repeat constructor; (eexists; split; [vm_compute; reflexivity | discriminate]).
  - intros i p q Hp Hq.
    do 4 (destruct i as [|i];
          [injection Hp as <-; injection Hq as <-; reflexivity|]).
    destruct i; discriminate.
Qed.

(** C1.  On a well-formed maze with at least one valid path from the start
    to an END cell, [breadth_first_search] returns a valid path that is no
    longer than any valid path, and in particular no longer than a path
    that [depth_first_search] returns on the same maze. *)
Theorem C1_bfs_returns_shortest_path self :
  wf_maze self →
  (∃ path, valid_path self path) →
  ∃ solution,
    result_of (Maze.breadth_first_search self) = Return (Some solution) ∧
    valid_path self solution ∧
    (∀ path, valid_path self path → length solution ≤ length path) ∧
    (∀ d, result_of (Maze.depth_first_search self) = Return (Some d) →
          length solution ≤ length d).
Proof.
  intros Hwf [path Hpath].
  destruct (bfs_complete self Hwf path Hpath) as [solution Hbfs].
  destruct (bfs_found_valid self Hwf solution Hbfs) as (Hvalid & _ & Hmin).
  exists solution. split_and!; [done..|].
  intros d Hd. apply Hmin. by apply dfs_found_valid.
Qed.

(** C1 on the scenario of the specification. *)
Lemma C1_witness :
  ∃ solution,
    result_of (Maze.breadth_first_search scenario) = Return (Some solution) ∧
    valid_path scenario solution ∧
    (∀ path, valid_path scenario path → length solution ≤ length path) ∧
    (∀ d, result_of (Maze.depth_first_search scenario) = Return (Some d) →
          length solution ≤ length d).
Proof.
  apply C1_bfs_returns_shortest_path.
  - apply (init_wf scenario_text). vm_compute. reflexivity.
  - exists [(0, 0); (0, 1); (0, 2); (1, 2); (2, 2)]%Z. apply scenario_path_valid.
Defined.

(** C2.  A path returned by [breadth_first_search] or by
    [depth_first_search] on a well-formed maze starts at [start_point],
    ends on an END cell, moves by Manhattan distance 1 at every step and
    visits no position twice. *)
Theorem C2_returned_path_is_simple self path :
  wf_maze self →
  result_of (Maze.breadth_first_search self) = Return (Some path) ∨
  result_of (Maze.depth_first_search self) = Return (Some path) →
  head path = Some (start_point self) ∧
  (∃ e, last path = Some e ∧ grid self !! e = Some END) ∧
  consecutive (λ p q, manhattan p q = 1%Z) path ∧
  NoDup path.
Proof.
  intros Hwf [Hbfs|Hdfs].
  - destruct (bfs_found_valid self Hwf path Hbfs) as ([? ? ? ?] & ? & _). done.
  - destruct (dfs_found_valid self Hwf path Hdfs) as ([? ? ? ?] & ?). done.
Qed.

(** C2 on the path the depth-first search returns in the scenario. *)
Lemma C2_witness :
  let path := [(0, 0); (0, 1); (0, 2); (1, 2); (2, 2)]%Z in
  head path = Some (start_point scenario) ∧
  (∃ e, last path = Some e ∧ grid scenario !! e = Some END) ∧
  consecutive (λ p q, manhattan p q = 1%Z) path ∧
  NoDup path.
Proof.
  apply C2_returned_path_is_simple.
  - apply (init_wf scenario_text). vm_compute. reflexivity.
  - right. vm_compute. reflexivity.
Defined.

Lemma dead_end_init : Maze.__init__ "S " = Return dead_end.
Proof. vm_compute. reflexivity. Qed.

Lemma no_exit_init :
  Maze.__init__ ("S  " +:+ String newline (" # " +:+ String newline "   "))
  = Return no_exit.
Proof. vm_compute. reflexivity. Qed.

Lemma not_found_no_path self :
  wf_maze self →
  result_of (Maze.breadth_first_search self) = Return None →
  ¬ ∃ path, valid_path self path.
Proof.
  intros Hwf Hnone [path Hpath].
  destruct (bfs_complete self Hwf path Hpath) as [solution Hsol]. congruence.
Qed.

(** C3 (the code departs from the claim).  On the well-formed maze ["S "],
    where no END cell can be reached, [breadth_first_search] reports
    NotFound by returning [None], but [depth_first_search] raises
    [IndexError]: its backtrace loop reads [possible_steps[-1]] after the
    last frame has been popped.  By [dfs_without_path] the same happens on
    every well-formed maze without a valid path whose start has a
    neighbour to step onto. *)
Theorem C3_dfs_raises_without_path :
  wf_maze dead_end ∧
  (¬ ∃ path, valid_path dead_end path) ∧
  Maze.breadth_first_search dead_end =
  (Return None, dead_end,
   [SearchCall BFS; Stdout "We did not find any solutions for the maze!"]) ∧
  Maze.depth_first_search dead_end
  = (Raise IndexError, dead_end, [SearchCall DFS]).
Proof.
  assert (wf_maze dead_end) as Hwf by apply (init_wf "S "), dead_end_init.
  split_and!; [done| |vm_compute; reflexivity..].
  apply not_found_no_path; [done|]. vm_compute. reflexivity.
Qed.

(** C4 (the code departs from the claim).  Both searches end on every
    maze: the loops never use up the fuel given to them.  But on the
    well-formed 3x3 maze without an END cell [depth_first_search] ends by
    raising [IndexError], neither returning a path nor reporting NotFound,
    while [breadth_first_search] reports NotFound. *)
Theorem C4_dfs_ends_with_exception :
  (∀ self, result_of (Maze.breadth_first_search self) ≠ OutOfFuel ∧
           result_of (Maze.depth_first_search self) ≠ OutOfFuel) ∧
  wf_maze no_exit ∧
  result_of (Maze.breadth_first_search no_exit) = Return None ∧
  result_of (Maze.depth_first_search no_exit) = Raise IndexError.
Proof.
  split_and!; [|eapply init_wf, no_exit_init|vm_compute; reflexivity..].
  intros self. split; [apply fuel_suffices_bfs | apply fuel_suffices_dfs].
Qed.

(** C5.  Once a solution is cached, any number of further calls of
    [view_bfs] (of [view_dfs]) return the same output, leave the maze as it
    is and invoke no search; and in any run of calls on a well-formed maze
    whose first call returns a block, every call returns that block and the
    search is invoked at most once. *)
Theorem C5_views_reuse_cached_solution self n :
  (∀ path, bfs_solution self = Some path →
     calls Maze.view_bfs n self
     = (replicate n (Maze.view self (Some path)), self, [])) ∧
  (∀ path, dfs_solution self = Some path →
     calls Maze.view_dfs n self
     = (replicate n (Maze.view self (Some path)), self, [])) ∧
  (wf_maze self →
   ∀ out, result_of (Maze.view_bfs self) = Return out →
     (calls Maze.view_bfs (S n) self).1.1 = replicate (S n) (Return out) ∧
     searches BFS (calls Maze.view_bfs (S n) self).2 ≤ 1) ∧
  (wf_maze self →
   ∀ out, result_of (Maze.view_dfs self) = Return out →
     (calls Maze.view_dfs (S n) self).1.1 = replicate (S n) (Return out) ∧
     searches DFS (calls Maze.view_dfs (S n) self).2 ≤ 1).
Proof.
  split_and!.
  - intros path H. by apply calls_unchanged, view_bfs_cached.
  - intros path H. by apply calls_unchanged, view_dfs_cached.
  - intros Hwf out Hout.
    destruct (bfs_solution self) as [path|] eqn:Hc.
    + rewrite (calls_unchanged _ _ _ _ (view_bfs_cached _ _ Hc)).
      rewrite (view_bfs_cached _ _ Hc) in Hout. simpl in *.
      unfold result_of in Hout. simpl in Hout. rewrite Hout.
      split; [done | cbn; lia].
    + destruct (view_bfs_fresh self Hwf Hc) as [(sol & _ & Hv)|[_ [evs Hv]]];
        rewrite Hv in Hout; [|done].
      cbn [calls]. rewrite Hv.
      rewrite (calls_unchanged Maze.view_bfs
                 (set_bfs_solution (Some sol) self)
                 (Maze.view self (Some sol)) n)
        by (by apply (view_bfs_cached (set_bfs_solution (Some sol) self) sol)).
      unfold result_of in Hout. simpl in *. rewrite Hout.
      split; [done | cbn; lia].
  - intros Hwf out Hout.
    destruct (dfs_solution self) as [path|] eqn:Hc.
    + rewrite (calls_unchanged _ _ _ _ (view_dfs_cached _ _ Hc)).
      rewrite (view_dfs_cached _ _ Hc) in Hout. simpl in *.
      unfold result_of in Hout. simpl in Hout. rewrite Hout.
      split; [done | cbn; lia].
    + destruct (view_dfs_fresh self Hwf Hc)
        as [(sol & _ & Hv)|(_ & e & evs & Hv)];
        rewrite Hv in Hout; [|done].
      cbn [calls]. rewrite Hv.
      rewrite (calls_unchanged Maze.view_dfs
                 (set_dfs_solution (Some sol) self)
                 (Maze.view self (Some sol)) n)
        by (by apply (view_dfs_cached (set_dfs_solution (Some sol) self) sol)).
      unfold result_of in Hout. simpl in *. rewrite Hout.
      split; [done | cbn; lia].
Qed.

(** C5 on the scenario: three views in a row, one search. *)
Lemma C5_witness :
  let out := "*  " +:+ String newline ("*# " +:+ String newline
             ("***" +:+ String newline "")) in
  (calls Maze.view_bfs 3 scenario).1.1 = replicate 3 (Return out) ∧
  searches BFS (calls Maze.view_bfs 3 scenario).2 ≤ 1.
Proof.
  apply (C5_views_reuse_cached_solution scenario 2).
  - apply (init_wf scenario_text). vm_compute. reflexivity.
  - vm_compute. reflexivity.
Defined.

(** C6.  On a well-formed maze whose solution path is cached, or is found
    by the search the view starts, [view_bfs] (and [view_dfs]) returns the
    base rendering of the grid with [*] in place of the character of every
    cell on the path, START and END included, and with every other
    character unchanged; the base rendering shows the canonical character
    of every cell. *)
Theorem C6_view_overlays_path self path :
  wf_maze self →
  (shown_solution (bfs_solution self) (Maze.breadth_first_search self) path →
   ∃ out base,
     result_of (Maze.view_bfs self) = Return out ∧
     Maze.__str__ self = Return base ∧
     overlays self path out base) ∧
  (shown_solution (dfs_solution self) (Maze.depth_first_search self) path →
   ∃ out base,
     result_of (Maze.view_dfs self) = Return out ∧
     Maze.__str__ self = Return base ∧
     overlays self path out base) ∧
  (∀ base, Maze.__str__ self = Return base →
     ∀ r c, r < (grid_corner self).1 → c < (grid_corner self).2 →
       ∃ ct, grid self !! Maze.position r c = Some ct ∧
             String.get (offset self r c) base = Some (CellType.value ct)).
Proof.
  intros Hwf. split_and!.
  - intros Hshown.
    exists (render (overlay_char self path) (grid_corner self).1 (grid_corner self).2),
           (render (base_char self) (grid_corner self).1 (grid_corner self).2).
    split_and!; [|by apply str_render|by apply render_overlays].
    destruct Hshown as [Hc|[Hc Hrun]].
    + rewrite (view_bfs_cached _ _ Hc). by apply view_render.
    + destruct (view_bfs_fresh self Hwf Hc) as [(sol & Hsol & ->)|[Hno _]].
      * rewrite Hrun in Hsol. injection Hsol as <-. by apply view_render.
      * by destruct (Hno path).
  - intros Hshown.
    exists (render (overlay_char self path) (grid_corner self).1 (grid_corner self).2),
           (render (base_char self) (grid_corner self).1 (grid_corner self).2).
    split_and!; [|by apply str_render|by apply render_overlays].
    destruct Hshown as [Hc|[Hc Hrun]].
    + rewrite (view_dfs_cached _ _ Hc). by apply view_render.
    + destruct (view_dfs_fresh self Hwf Hc) as [(sol & Hsol & ->)|[Hno _]].
      * rewrite Hrun in Hsol. injection Hsol as <-. by apply view_render.
      * by destruct (Hno path).
  - intros base Hbase r c Hr Hc. rewrite (str_render _ Hwf) in Hbase.
    injection Hbase as <-. unfold offset.
    rewrite render_get by (auto using base_char_Some).
    unfold base_char. destruct (wf_cell self Hwf r c Hr Hc) as [ct ->]. eauto.
Qed.

(** C6 on the scenario, for the path the breadth-first search finds. *)
Lemma C6_witness :
  ∃ out base,
    result_of (Maze.view_bfs scenario) = Return out ∧
    Maze.__str__ scenario = Return base ∧
    overlays scenario [(0, 0); (1, 0); (2, 0); (2, 1); (2, 2)]%Z out base.
Proof.
  apply (C6_view_overlays_path scenario).
  - apply (init_wf scenario_text). vm_compute. reflexivity.
  - right. split; vm_compute; reflexivity.
Defined.

(** C9.  The two searches and the two views leave [grid], [grid_corner]
    and [start_point] as they are; the breadth-first operations also leave
    [dfs_solution], and the depth-first ones [bfs_solution]. *)
Theorem C9_searches_and_views_keep_the_grid self :
  let same (self' : Maze) :=
    grid self' = grid self ∧ grid_corner self' = grid_corner self ∧
    start_point self' = start_point self in
  (same (maze_of (Maze.breadth_first_search self)) ∧
   dfs_solution (maze_of (Maze.breadth_first_search self)) = dfs_solution self) ∧
  (same (maze_of (Maze.depth_first_search self)) ∧
   bfs_solution (maze_of (Maze.depth_first_search self)) = bfs_solution self) ∧
  (same (maze_of (Maze.view_bfs self)) ∧
   dfs_solution (maze_of (Maze.view_bfs self)) = dfs_solution self) ∧
  (same (maze_of (Maze.view_dfs self)) ∧
   bfs_solution (maze_of (Maze.view_dfs self)) = bfs_solution self).
Proof.
  intros same.
  assert (same (maze_of (Maze.breadth_first_search self)) ∧
          dfs_solution (maze_of (Maze.breadth_first_search self))
          = dfs_solution self) as Hbfs.
  { by destruct (bfs_outcome self) as [(sol & -> & _)|[-> _]]. }
  assert (same (maze_of (Maze.depth_first_search self)) ∧
          bfs_solution (maze_of (Maze.depth_first_search self))
          = bfs_solution self) as Hdfs.
  { by destruct (dfs_outcome self) as [(sol & -> & _)|[-> | ->]]. }
  split; [exact Hbfs|]. split; [exact Hdfs|]. split.
  - unfold Maze.view_bfs. destruct (bfs_solution self); [done|].
    revert Hbfs.
    by destruct (Maze.breadth_first_search self) as [[[a|e|] self'] evs].
  - unfold Maze.view_dfs. destruct (dfs_solution self); [done|].
    revert Hdfs.
    by destruct (Maze.depth_first_search self) as [[[a|e|] self'] evs].
Qed.

(** C7.  Rendering a maze constructed from a valid text with the base
    renderer gives back the rows of the text without its comment lines
    (and without its empty lines), every row character for character and
    followed by a newline. *)
Theorem C7_render_roundtrip text self :
  Maze.__init__ text = Return self →
  Maze.__str__ self = Return (unlines (Maze.raw_lines text)).
Proof.
  intros (line0 & Hhead & Hlen & Hcorner & _ & _ & Hv & Hg & _)%init_Return.
  unfold Maze.__str__, range. rewrite Hcorner. cbn [fst snd].
  rewrite (for_each_rows (Maze.raw_lines text)); [done|].
  intros r line out Hr. cbn [Nat.add].
  unfold equal_lengths in Hlen. rewrite Forall_forall in Hlen.
  rewrite <- (Hlen line) by (by eapply list_elem_of_lookup_2).
  rewrite <- length_list_ascii_of_string.
  rewrite (for_each_row (list_ascii_of_string line)).
  { by rewrite string_of_list_ascii_of_string. }
  intros c ch out' Hc. cbn [Nat.add].
  assert ((Maze.position r c, ch) ∈ cells (Maze.raw_lines text)) as Hin.
  { apply elem_of_cells_from. by exists r, c, line. }
  rewrite Forall_forall in Hv. destruct (Hv _ Hin) as [ct Hct]. simpl in Hct.
  assert (grid self !! Maze.position r c = Some ct) as -> by (apply Hg; eauto).
  apply chars_to_ct_Some in Hct. by subst.
Qed.

(** C7 on the scenario. *)
Lemma C7_witness :
  Maze.__str__ scenario =
  Return ("S  " +:+ String newline (" # " +:+ String newline
          ("  E" +:+ String newline ""))).
Proof.
  apply (C7_render_roundtrip scenario_text scenario). vm_compute. reflexivity.
Defined.

(** C8 does not hold as stated: the row lengths and the characters are
    checked before a second start is noticed or a missing start is
    reported.  The text ["SXS"] holds two [S], and its construction fails
    with [InvalidMazeChar] for the [X] at (0, 1); the text ["X"] holds no
    [S], and its construction fails with [InvalidMazeChar] as well. *)
Lemma C8_counterexample :
  (count_char "S" "SXS" = 2 ∧
   Maze.__init__ "SXS" = Raise (InvalidMazeChar "X" (0, 1)%Z) ∧
   ¬ ∃ position, Maze.__init__ "SXS" = Raise (MultipleStartError position)) ∧
  (count_char "S" "X" = 0 ∧
   Maze.__init__ "X" = Raise (InvalidMazeChar "X" (0, 0)%Z) ∧
   Maze.__init__ "X" ≠ Raise NoStartError).
Proof.
  split_and!; try (vm_compute; reflexivity).
  - intros [position H]. vm_compute in H. discriminate.
  - intros H. vm_compute in H. discriminate.
Qed.

(** C8, amended.  Let the rows of the text (its lines without the empty
    and the comment lines) be at least one and of equal length.  If a cell
    holds [S], exactly one [S] comes before it in reading order and every
    character before it is a cell character, construction fails with
    [MultipleStartError] at the (row, column) of that cell among the rows.
    If all characters are cell characters and none is [S], construction
    fails with [NoStartError]. *)
Theorem C8_start_errors text line0 :
  head (Maze.raw_lines text) = Some line0 →
  equal_lengths (Maze.raw_lines text) line0 →
  (∀ before position after,
     cells (Maze.raw_lines text) = before ++ (position, "S"%char) :: after →
     Forall valid_char before →
     count_S before = 1 →
     Maze.__init__ text = Raise (MultipleStartError position)) ∧
  (Forall valid_char (cells (Maze.raw_lines text)) →
   count_S (cells (Maze.raw_lines text)) = 0 →
   Maze.__init__ text = Raise NoStartError).
Proof.
  intros Hhead Hlen. rewrite init_unfold, Hhead, decide_True by done. split.
  - intros before position after Hcells Hv Hc.
    pose proof (cells_from_nonneg 0 (Maze.raw_lines text)) as Hnn.
    fold (cells (Maze.raw_lines text)) in Hnn. rewrite Hcells in *.
    by rewrite scan_duplicate.
  - intros Hv Hc.
    destruct (scan_valid (cells (Maze.raw_lines text)) ∅ None)
      as (g & s & -> & Hs & _); [apply cells_from_nonneg|done|simpl; lia|].
    assert (s = None) as -> by (by apply Hs). done.
Qed.

(** C8, amended, on a row with two starts and on a row without one. *)
Lemma C8_witness :
  Maze.__init__ "S S" = Raise (MultipleStartError (0, 2)%Z) ∧
  Maze.__init__ " #" = Raise NoStartError.
Proof.
  split.
  - refine (proj1 (C8_start_errors "S S" "S S" _ _)
              [((0, 0)%Z, "S"%char); ((0, 1)%Z, " "%char)] (0, 2)%Z [] _ _ _).
    + reflexivity.
    + vm_compute. repeat constructor.
    + reflexivity.
    + repeat constructor; by eexists.
    + reflexivity.
  - refine (proj2 (C8_start_errors " #" " #" _ _) _ _).
    + reflexivity.
    + vm_compute. repeat constructor.
    + repeat constructor; by eexists.
    + reflexivity.
Defined.

(** *** Lines *)

Lemma split_nonempty sep s : Maze.split sep s ≠ [].
Proof.
  destruct s as [|c s]; [done|]. simpl.
  destruct (Ascii.eqb c sep); [done|]. by destruct (Maze.split sep s).
Qed.

Lemma split_app sep (a b : string) :
  Maze.split sep (a +:+ String sep b) = Maze.split sep a ++ Maze.split sep b.
Proof.
  induction a as [|c a IH].
  - rewrite append_EmptyString. simpl. by rewrite Ascii.eqb_refl.
  - rewrite append_String. simpl. rewrite IH.
    destruct (Ascii.eqb c sep); [done|].
    pose proof (split_nonempty sep a). by destruct (Maze.split sep a).
Qed.

Lemma raw_lines_app (a b : string) :
  Maze.raw_lines (a +:+ String newline b)
  = Maze.raw_lines a ++ Maze.raw_lines b.
Proof. unfold Maze.raw_lines. by rewrite split_app, List.filter_app. Qed.

Lemma raw_lines_single c :
  Maze.split newline c = [c] → Maze.keep_line c = false →
  Maze.raw_lines c = [].
Proof. intros Hc Hk. unfold Maze.raw_lines. rewrite Hc. simpl. by rewrite Hk. Qed.

Lemma init_raw_lines t1 t2 :
  Maze.raw_lines t1 = Maze.raw_lines t2 → Maze.__init__ t1 = Maze.__init__ t2.
Proof. intros H. unfold Maze.__init__. by rewrite H. Qed.

Lemma raw_lines_kept text line :
  line ∈ Maze.raw_lines text → line ≠ "" ∧ String.prefix "//" line = false.
Proof.
  unfold Maze.raw_lines. rewrite list_elem_of_In, List.filter_In.
  intros [_ [H1 H2]%andb_prop]. unfold Maze.keep_line in *.
  apply negb_true_iff in H1, H2. split; [|done]. intros ->. done.
Qed.

Lemma scan_raise cs st e :
  for_each cs read_cell st = Raise e →
  (∃ ch position, e = InvalidMazeChar ch position) ∨
  (∃ position, e = MultipleStartError position).
Proof.
  revert st. induction cs as [|[pos ch] cs IH]; intros st; [done|].
  cbn [for_each]. destruct (read_cell (pos, ch) st) as [st'| |] eqn:Hread;
    simpl; [apply IH| |done].
  intros [= <-]. destruct st as [g s].
  unfold read_cell, Maze.read_char in Hread. simpl in Hread.
  destruct (CellType.chars_to_ct !! ch); [|injection Hread as <-; eauto].
  repeat case_decide; try done. injection Hread as <-. eauto.
Qed.

(** C10 does not hold as stated: rows of equal length are not enough for
    a successful construction.  The two rows of the text below, which has
    an empty line between them, are equally long, but the construction
    fails with [NoStartError]; and the text of one empty line has no row of
    another length, but its construction fails with the [IndexError] of
    [raw_maze[0]]. *)
Lemma C10_counterexample :
  (let text := "##" +:+ String newline (String newline "##") in
   Maze.raw_lines text = ["##"; "##"] ∧
   equal_lengths (Maze.raw_lines text) "##" ∧
   Maze.__init__ text = Raise NoStartError ∧
   ¬ ∃ self, Maze.__init__ text = Return self) ∧
  (Maze.raw_lines (String newline "") = [] ∧
   (∀ line0, equal_lengths (Maze.raw_lines (String newline "")) line0) ∧
   Maze.__init__ (String newline "") = Raise IndexError ∧
   ¬ ∃ self, Maze.__init__ (String newline "") = Return self).
Proof.
  split; split_and!.
  - vm_compute. reflexivity.
  - vm_compute. repeat constructor.
  - vm_compute. reflexivity.
  - intros [self H]. vm_compute in H. discriminate H.
  - vm_compute. reflexivity.
  - intros line0. vm_compute. constructor.
  - vm_compute. reflexivity.
  - intros [self H]. vm_compute in H. discriminate H.
Qed.

(** C10, amended.  An empty line, wherever it stands in the text, changes
    nothing in what the constructor does: between two lines, at the end (a
    trailing newline) or at the beginning.  It is treated like a comment
    line, which can be replaced by it.  No empty line becomes a row, and
    when the remaining rows have equal length the check of the row lengths
    does not fail.  A text whose rows are at least one, equally long, made
    of cell characters only and with exactly one [S] constructs
    successfully, whatever empty lines it holds, and so does the text with
    one more empty line at its end or at its beginning; the maze has one
    grid row for every row of the text and none for an empty line. *)
Theorem C10_empty_lines_are_discarded (a b : string) :
  Maze.__init__ (a +:+ String newline (String newline b))
  = Maze.__init__ (a +:+ String newline b) ∧
  Maze.__init__ (a +:+ String newline "") = Maze.__init__ a ∧
  Maze.__init__ (String newline a) = Maze.__init__ a ∧
  (∀ c, Maze.split newline c = [c] → String.prefix "//" c = true →
        Maze.__init__ (a +:+ String newline (c +:+ String newline b))
        = Maze.__init__ (a +:+ String newline (String newline b))) ∧
  ("" ∉ Maze.raw_lines a) ∧
  (∀ line0, head (Maze.raw_lines a) = Some line0 →
            equal_lengths (Maze.raw_lines a) line0 →
            ∀ msg, Maze.__init__ a ≠ Raise (AssertionError msg)) ∧
  (∀ line0, head (Maze.raw_lines a) = Some line0 →
            equal_lengths (Maze.raw_lines a) line0 →
            Forall valid_char (cells (Maze.raw_lines a)) →
            count_S (cells (Maze.raw_lines a)) = 1 →
            ∃ self,
              Maze.__init__ a = Return self ∧
              Maze.__init__ (a +:+ String newline "") = Return self ∧
              Maze.__init__ (String newline a) = Return self ∧
              grid_corner self
              = (length (Maze.raw_lines a), String.length line0)).
Proof.
  assert (∀ t, Maze.raw_lines (String newline t) = Maze.raw_lines t) as Hlead.
  { intros t. by rewrite <- (append_EmptyString (String newline t)), raw_lines_app. }
  assert (Maze.__init__ (a +:+ String newline "") = Maze.__init__ a) as Htrail.
  { apply init_raw_lines. rewrite raw_lines_app.
    change (Maze.raw_lines "") with (@nil string). by rewrite app_nil_r. }
  split_and!.
  - apply init_raw_lines. by rewrite !raw_lines_app, Hlead.
  - exact Htrail.
  - apply init_raw_lines, Hlead.
  - intros c Hc Hp. apply init_raw_lines.
    rewrite !raw_lines_app, Hlead, (raw_lines_single c); [done..|].
    unfold Maze.keep_line. by rewrite Hp, andb_false_r.
  - by intros [? _]%raw_lines_kept.
  - intros line0 Hhead Hlen msg. rewrite init_unfold, Hhead, decide_True by done.
    destruct (for_each _ _ _) as [[g [s|]]|e|] eqn:Hscan; try done.
    intros [= ->]. by apply scan_raise in Hscan as [(? & ? & ?)|[? ?]].
  - intros line0 Hhead Hlen Hv Hc.
    assert (∃ self, Maze.__init__ a = Return self) as [self Hinit].
    { rewrite init_unfold, Hhead, decide_True by done.
      destruct (scan_valid (cells (Maze.raw_lines a)) ∅ None)
        as (g & s & -> & Hs & _); [apply cells_from_nonneg|done|simpl; lia|].
      destruct s as [start|]; [by eauto|].
      destruct Hs as [[_ ?] _]; [done|lia]. }
    exists self. rewrite Htrail, (init_raw_lines _ _ (Hlead a)).
    split_and!; [done..|].
    apply init_Return in Hinit as (line0' & Hhead' & _ & Hcorner & _).
    rewrite Hhead in Hhead'. by injection Hhead' as <-.
Qed.

(** C10, amended, on a text with an empty line between its two rows. *)
Lemma C10_witness :
  let text := "S " +:+ String newline (String newline " E") in
  ∃ self,
    Maze.__init__ text = Return self ∧
    Maze.__init__ (text +:+ String newline "") = Return self ∧
    Maze.__init__ (String newline text) = Return self ∧
    grid_corner self = (2, 2).
Proof.
  pose proof (C10_empty_lines_are_discarded
                ("S " +:+ String newline (String newline " E")) "") as H.
  apply (proj2 (proj2 (proj2 (proj2 (proj2 (proj2 H))))) "S ").
  - reflexivity.
  - vm_compute. repeat constructor.
  - vm_compute. repeat constructor; by eexists.
  - vm_compute. reflexivity.
Defined.

(** * Further properties of the code *)

(** ** Neighbours and cell kinds *)

(** [_point_neighbours] lists four different positions, exactly those at
    Manhattan distance 1, and being a neighbour is symmetric. *)
Theorem X_point_neighbours_are_the_four_adjacent p :
  length (Maze._point_neighbours p) = 4 ∧
  NoDup (Maze._point_neighbours p) ∧
  ∀ q, (q ∈ Maze._point_neighbours p ↔ manhattan p q = 1%Z) ∧
       (q ∈ Maze._point_neighbours p ↔ p ∈ Maze._point_neighbours q).
Proof.
  split_and!; [done| |].
  - destruct p as [r c]. unfold Maze._point_neighbours. simpl.
    repeat apply NoDup_cons_2; try apply NoDup_nil_2;
      rewrite ?elem_of_cons, ?elem_of_nil; intros H; decompose [or] H;
      try done; simplify_eq; lia.
  - intros q. split; [apply neighbours_manhattan|].
    rewrite !neighbours_manhattan. unfold manhattan. lia.
Qed.

(** The table from characters to cell kinds inverts [value]: a kind is
    found under its own character and under no other, the four characters
    are the only keys, and different kinds have different characters. *)
Theorem X_chars_to_ct_inverts_value :
  (∀ ct, CellType.chars_to_ct !! CellType.value ct = Some ct) ∧
  (∀ ch ct,
     CellType.chars_to_ct !! ch = Some ct → CellType.value ct = ch) ∧
  (∀ ch, is_Some (CellType.chars_to_ct !! ch) ↔
         ch ∈ [" "; "#"; "S"; "E"]%char) ∧
  (∀ ct1 ct2, CellType.value ct1 = CellType.value ct2 → ct1 = ct2).
Proof.
  split_and!.
  - intros ct. by apply chars_to_ct_Some.
  - intros ch ct H. symmetry. by apply chars_to_ct_Some.
  - intros ch. split.
    + intros [ct ->%chars_to_ct_Some]. destruct ct; simpl;
        rewrite !elem_of_cons; auto.
    + rewrite !elem_of_cons, elem_of_nil.
      intros [->|[->|[->|[->|[]]]]]; by eexists.
  - intros ct1 ct2 H. by destruct ct1, ct2.
Qed.


(** ** Construction *)

Lemma length_row_cells r line :
  length (row_cells r line) = String.length line.
Proof.
  unfold row_cells, enumerate.
  rewrite length_fmap, <- (length_fmap fst), fst_enumerate_from, length_seq.
  apply length_list_ascii_of_string.
Qed.

Lemma length_cells_from k rows line0 :
  equal_lengths rows line0 →
  length (cells_from k rows) = length rows * String.length line0.
Proof.
  intros Hlen. revert k.
  induction Hlen as [|line rows Hl _ IH]; intros k; [done|].
  simpl. by rewrite length_app, length_row_cells, IH, Hl.
Qed.

Lemma NoDup_cells rows : NoDup (cells rows).
Proof. apply (NoDup_fmap_1 fst), NoDup_cells_from. Qed.

Lemma NoDup_fst_functional {A B} (l : list (A * B)) x y1 y2 :
  NoDup l.*1 → (x, y1) ∈ l → (x, y2) ∈ l → y1 = y2.
Proof.
  induction l as [|[a b] l IH]; [by intros _ ?%elem_of_nil|].
  rewrite fmap_cons, NoDup_cons. simpl. intros [Hnin Hnd].
  rewrite !elem_of_cons.
  intros [H1|H1] [H2|H2]; simplify_eq; try done; [| |by apply IH].
  - destruct Hnin. apply list_elem_of_fmap. by exists (a, y2).
  - destruct Hnin. apply list_elem_of_fmap. by exists (a, y1).
Qed.

Lemma count_S_one cs p :
  NoDup cs.*1 → (∀ q, p = q ↔ (q, "S"%char) ∈ cs) → count_S cs = 1.
Proof.
  intros Hnd Hs. unfold count_S.
  assert (filter (λ pc : point * ascii, pc.2 = "S"%char) cs = [(p, "S"%char)])
    as ->; [|done].
  apply NoDup_fmap_1 in Hnd as Hnd'.
  apply Permutation_singleton_r, NoDup_Permutation;
    [by apply NoDup_filter | apply NoDup_singleton|].
  intros [q ch]. rewrite list_elem_of_filter, list_elem_of_singleton. simpl.
  split.
  - intros [-> Hin]. apply Hs in Hin. by subst.
  - intros [= -> ->]. split; [done|]. by apply Hs.
Qed.

Lemma size_constructed_grid (cs : list (point * ascii))
    (g : gmap point CellType) :
  NoDup cs.*1 →
  (∀ p, is_Some (g !! p) ↔ ∃ ch, (p, ch) ∈ cs) →
  size g = length cs.
Proof.
  intros Hnd Hg. rewrite <- (length_fmap fst cs), <- length_map_to_list,
    <- (length_fmap fst (map_to_list g)).
  apply Permutation_length, NoDup_Permutation;
    [apply NoDup_fst_map_to_list | done |].
  intros p. rewrite !list_elem_of_fmap. split.
  - intros ([p' ct] & -> & Hin%elem_of_map_to_list). simpl.
    destruct (proj1 (Hg p')) as [ch Hch]; [by eexists|]. by exists (p', ch).
  - intros ([p' ch] & -> & Hin). simpl.
    destruct (proj2 (Hg p')) as [ct Hct]; [by eexists|].
    exists (p', ct). split; [done|]. by apply elem_of_map_to_list.
Qed.

(** What the constructor establishes: the invariant of the grid, empty
    caches, and a grid of at least one row and one column with one cell
    per character of the rows. *)
Theorem X_constructed_maze_is_well_formed text self :
  Maze.__init__ text = Return self →
  wf_maze self ∧
  bfs_solution self = None ∧ dfs_solution self = None ∧
  ∃ line0,
    head (Maze.raw_lines text) = Some line0 ∧
    grid_corner self = (length (Maze.raw_lines text), String.length line0) ∧
    0 < (grid_corner self).1 ∧ 0 < (grid_corner self).2 ∧
    size (grid self) = (grid_corner self).1 * (grid_corner self).2.
Proof.
  intros Hinit. pose proof (init_wf _ _ Hinit) as Hwf.
  apply init_Return in Hinit
    as (line0 & Hhead & Hlen & Hcorner & ? & ? & Hv & Hg & Hs).
  split_and!; [done..|]. exists line0.
  destruct (wf_nonempty self Hwf). split_and!; [done..|].
  rewrite Hcorner. simpl. rewrite <- (length_cells_from 0 _ _ Hlen).
  apply size_constructed_grid; [apply NoDup_cells_from|].
  intros p. split.
  - intros [ct (ch & ? & _)%Hg]. eauto.
  - intros [ch Hin]. rewrite Forall_forall in Hv.
    destruct (Hv _ Hin) as [ct Hct]. exists ct. apply Hg. eauto.
Qed.

(** The scenario of the specification is such a maze. *)
Lemma X_constructed_maze_witness :
  wf_maze scenario ∧
  bfs_solution scenario = None ∧ dfs_solution scenario = None ∧
  ∃ line0,
    head (Maze.raw_lines scenario_text) = Some line0 ∧
    grid_corner scenario
    = (length (Maze.raw_lines scenario_text), String.length line0) ∧
    0 < (grid_corner scenario).1 ∧ 0 < (grid_corner scenario).2 ∧
    size (grid scenario) = (grid_corner scenario).1 * (grid_corner scenario).2.
Proof.
  apply (X_constructed_maze_is_well_formed scenario_text).
  vm_compute. reflexivity.
Defined.

(** The cell at row [r] and column [c] of a constructed maze holds the
    kind of the character at that place in the rows, and the start point
    is the place of the [S]. *)
Theorem X_constructed_grid_holds_the_rows text self r c line ch :
  Maze.__init__ text = Return self →
  Maze.raw_lines text !! r = Some line →
  String.get c line = Some ch →
  is_Some (grid self !! Maze.position r c) ∧
  grid self !! Maze.position r c = CellType.chars_to_ct !! ch ∧
  (start_point self = Maze.position r c ↔ ch = "S"%char).
Proof.
  intros (line0 & _ & _ & _ & _ & _ & Hv & Hg & Hs)%init_Return Hr Hc.
  assert ((Maze.position r c, ch) ∈ cells (Maze.raw_lines text)) as Hin.
  { apply elem_of_cells_from. exists r, c, line.
    by rewrite get_list_ascii_of_string. }
  rewrite Forall_forall in Hv. destruct (Hv _ Hin) as [ct Hct]. simpl in Hct.
  assert (grid self !! Maze.position r c = Some ct) as Hgrid
    by (apply Hg; eauto).
  rewrite Hgrid, Hct. split_and!; [done..|]. rewrite Hs. split.
  - intros HS.
    by apply (NoDup_fst_functional _ _ _ _
                (NoDup_cells_from 0 (Maze.raw_lines text)) Hin HS).
  - by intros ->.
Qed.

(** The wall in the middle of the scenario. *)
Lemma X_constructed_grid_witness :
  is_Some (grid scenario !! Maze.position 1 1) ∧
  grid scenario !! Maze.position 1 1 = CellType.chars_to_ct !! "#"%char ∧
  (start_point scenario = Maze.position 1 1 ↔ "#"%char = "S"%char).
Proof.
  apply (X_constructed_grid_holds_the_rows scenario_text scenario 1 1 " # ").
  - vm_compute. reflexivity.
  - reflexivity.
  - reflexivity.
Defined.

Lemma scan_invalid before pos ch after g0 :
  Forall nonneg (before ++ (pos, ch) :: after) →
  Forall valid_char before →
  count_S before ≤ 1 →
  CellType.chars_to_ct !! ch = None →
  for_each (before ++ (pos, ch) :: after) read_cell (g0, None) =
  Raise (InvalidMazeChar ch pos).
Proof.
  intros [Hnn [[Hp1 Hp2] _]%Forall_cons]%Forall_app Hv Hc Hch.
  rewrite for_each_app.
  destruct (scan_valid before g0 None) as (g & s & -> & _); [done..|lia|].
  simpl. cbn [for_each]. rewrite read_cell_unfold by done. by rewrite Hch.
Qed.

(** Construction succeeds exactly on the texts with at least one row, rows
    of equal length, only cell characters and one single [S]. *)
Theorem X_construction_succeeds_iff text :
  (∃ self, Maze.__init__ text = Return self) ↔
  ∃ line0,
    head (Maze.raw_lines text) = Some line0 ∧
    equal_lengths (Maze.raw_lines text) line0 ∧
    Forall valid_char (cells (Maze.raw_lines text)) ∧
    count_S (cells (Maze.raw_lines text)) = 1.
Proof.
  split.
  - intros [self (line0 & Hhead & Hlen & _ & _ & _ & Hv & _ & Hs)%init_Return].
    exists line0. split_and!; [done..|].
    apply (count_S_one _ (start_point self)); [apply NoDup_cells_from|done].
  - intros (line0 & Hhead & Hlen & Hv & Hc).
    rewrite init_unfold, Hhead, decide_True by done.
    destruct (scan_valid (cells (Maze.raw_lines text)) ∅ None)
      as (g & s & -> & Hs & _); [apply cells_from_nonneg|done|simpl; lia|].
    destruct s as [start|]; [by eauto|].
    destruct Hs as [[_ ?] _]; [done|lia].
Qed.

(** A text without rows, such as the empty text or a text of comments
    and empty lines only, makes the constructor fail with the [IndexError]
    of [raw_maze[0]], and nothing else does. *)
Theorem X_no_rows_iff_IndexError text :
  Maze.__init__ text = Raise IndexError ↔ Maze.raw_lines text = [].
Proof.
  rewrite init_unfold. split.
  - destruct (head (Maze.raw_lines text)) as [line0|] eqn:Hhead;
      [|by apply head_None in Hhead].
    case_decide; [|done].
    destruct (for_each _ _ _) as [[g [s|]]|e|] eqn:Hscan; try done.
    intros [= ->]. by apply scan_raise in Hscan as [(? & ? & ?)|[? ?]].
  - by intros ->.
Qed.

(** Rows of different lengths make the constructor fail with the
    assertion on the line lengths, whatever characters the rows hold, and
    nothing else raises an [AssertionError]. *)
Theorem X_unequal_rows_iff_AssertionError text :
  (∃ msg, Maze.__init__ text = Raise (AssertionError msg)) ↔
  ∃ line0, head (Maze.raw_lines text) = Some line0 ∧
           ¬ equal_lengths (Maze.raw_lines text) line0.
Proof.
  rewrite init_unfold. split.
  - intros [msg H]. destruct (head (Maze.raw_lines text)) as [line0|]; [|done].
    exists line0. split; [done|]. intros Hlen. rewrite decide_True in H by done.
    destruct (for_each _ _ _) as [[g [s|]]|e|] eqn:Hscan; try done.
    injection H as ->. by apply scan_raise in Hscan as [(? & ? & ?)|[? ?]].
  - intros (line0 & -> & Hlen). rewrite decide_False by done. eauto.
Qed.

(** With rows of equal length, the first character that is no cell
    character makes the constructor fail with [InvalidMazeChar], naming
    the character and its (row, column), provided no second [S] came
    before it. *)
Theorem X_invalid_character_is_reported text line0 before position ch after :
  head (Maze.raw_lines text) = Some line0 →
  equal_lengths (Maze.raw_lines text) line0 →
  cells (Maze.raw_lines text) = before ++ (position, ch) :: after →
  Forall valid_char before →
  count_S before ≤ 1 →
  CellType.chars_to_ct !! ch = None →
  Maze.__init__ text = Raise (InvalidMazeChar ch position).
Proof.
  intros Hhead Hlen Hcells Hv Hc Hch.
  rewrite init_unfold, Hhead, decide_True by done.
  pose proof (cells_from_nonneg 0 (Maze.raw_lines text)) as Hnn.
  fold (cells (Maze.raw_lines text)) in Hnn. rewrite Hcells in *.
  by rewrite scan_invalid.
Qed.

(** An [X] in the second row. *)
Lemma X_invalid_character_witness :
  Maze.__init__ ("S#" +:+ String newline " X")
  = Raise (InvalidMazeChar "X" (1, 1)%Z).
Proof.
  apply (X_invalid_character_is_reported _ "S#"
           [((0, 0)%Z, "S"%char); ((0, 1)%Z, "#"%char); ((1, 0)%Z, " "%char)]
           (1, 1)%Z "X"%char []).
  - reflexivity.
  - vm_compute. repeat constructor.
  - reflexivity.
  - repeat constructor; by eexists.
  - vm_compute. lia.
  - reflexivity.
Defined.

(** ** The searches *)

Lemma simple_path_length (g : gmap point CellType) (path : list point) :
  NoDup path → Forall (walkable g) path → length path ≤ size g.
Proof.
  intros Hnd Hw. trans (length (map_to_list g).*1);
    [|by rewrite length_fmap, length_map_to_list].
  apply submseteq_length, NoDup_submseteq; [done|].
  intros x Hx. rewrite Forall_forall in Hw.
  destruct (Hw x Hx) as (ct & Hct & _).
  apply list_elem_of_fmap. exists (x, ct). split; [done|].
  by apply elem_of_map_to_list.
Qed.

(** On a well-formed maze [breadth_first_search] never raises; it returns
    [None] exactly when there is no valid path, and then it prints its
    message and leaves the maze as it was. *)
Theorem X_bfs_reports_none_iff_unsolvable self :
  wf_maze self →
  (∀ e, result_of (Maze.breadth_first_search self) ≠ Raise e) ∧
  (result_of (Maze.breadth_first_search self) = Return None ↔
   ¬ ∃ path, valid_path self path) ∧
  (result_of (Maze.breadth_first_search self) = Return None →
   Maze.breadth_first_search self =
   (Return None, self,
    [SearchCall BFS; Stdout "We did not find any solutions for the maze!"])).
Proof.
  intros Hwf. split_and!.
  - intros e. by destruct (bfs_outcome self) as [(sol & -> & _)|[-> _]].
  - split; [by apply not_found_no_path|].
    intros Hnone. by rewrite (bfs_not_found self Hwf Hnone).
  - by destruct (bfs_outcome self) as [(sol & -> & _)|[-> _]].
Qed.

(** The maze [S ], where no END cell exists. *)
Lemma X_bfs_reports_none_witness :
  (∀ e, result_of (Maze.breadth_first_search dead_end) ≠ Raise e) ∧
  (result_of (Maze.breadth_first_search dead_end) = Return None ↔
   ¬ ∃ path, valid_path dead_end path) ∧
  (result_of (Maze.breadth_first_search dead_end) = Return None →
   Maze.breadth_first_search dead_end =
   (Return None, dead_end,
    [SearchCall BFS; Stdout "We did not find any solutions for the maze!"])).
Proof.
  apply X_bfs_reports_none_iff_unsolvable.
  apply (init_wf "S "). vm_compute. reflexivity.
Defined.

(** On a well-formed maze with a valid path [depth_first_search] returns
    a valid path without repetitions, stores it in [dfs_solution] and
    prints nothing: the [IndexError] of its backtrace loop cannot occur. *)
Theorem X_dfs_finds_a_path_if_one_exists self path :
  wf_maze self →
  valid_path self path →
  ∃ solution,
    Maze.depth_first_search self =
    (Return (Some solution), set_dfs_solution (Some solution) self,
     [SearchCall DFS]) ∧
    valid_path self solution ∧ NoDup solution.
Proof.
  intros Hwf Hpath. destruct (dfs_complete self path Hwf Hpath) as [sol Hsol].
  exists sol. split; [|by apply dfs_found_valid].
  destruct (dfs_outcome self) as [(sol' & Heq & _)|[Heq|Heq]];
    rewrite Heq in Hsol |- *; [|done..].
  by injection Hsol as ->.
Qed.

(** The scenario of the specification. *)
Lemma X_dfs_finds_a_path_witness :
  ∃ solution,
    Maze.depth_first_search scenario =
    (Return (Some solution), set_dfs_solution (Some solution) scenario,
     [SearchCall DFS]) ∧
    valid_path scenario solution ∧ NoDup solution.
Proof.
  apply (X_dfs_finds_a_path_if_one_exists scenario
           [(0, 0); (0, 1); (0, 2); (1, 2); (2, 2)]%Z).
  - apply (init_wf scenario_text). vm_compute. reflexivity.
  - apply scenario_path_valid.
Defined.

(** On a well-formed maze [depth_first_search] raises nothing but
    [IndexError].  It raises it exactly when there is no valid path and a
    neighbour of the start can be stepped on, and it reports NotFound by
    returning [None] exactly when there is no valid path and the start is
    walled in. *)
Theorem X_dfs_fails_by_start_neighbours self :
  wf_maze self →
  (result_of (Maze.depth_first_search self) = Raise IndexError ↔
   (¬ ∃ path, valid_path self path) ∧
   Exists (open_cell (grid self))
     (Maze._point_neighbours (start_point self))) ∧
  (result_of (Maze.depth_first_search self) = Return None ↔
   (¬ ∃ path, valid_path self path) ∧
   ¬ Exists (open_cell (grid self))
       (Maze._point_neighbours (start_point self))) ∧
  (∀ e, result_of (Maze.depth_first_search self) = Raise e →
        e = IndexError).
Proof.
  intros Hwf.
  assert ((∃ solution, result_of (Maze.depth_first_search self)
                       = Return (Some solution)) ∨
          ¬ ∃ path, valid_path self path) as [[sol Hsol]|Hnone].
  { destruct (dfs_outcome self) as [(sol & -> & _)|Hfail]; [by eauto|].
    right. intros [path [sol Hsol]%(dfs_complete self path Hwf)].
    by destruct Hfail as [Heq|Heq]; rewrite Heq in Hsol. }
  - pose proof (dfs_found_valid self Hwf sol Hsol) as [Hvalid _].
    rewrite Hsol. split_and!; [| |done].
    + split; [done|]. intros [[] _]. eauto.
    + split; [done|]. intros [[] _]. eauto.
  - rewrite (dfs_without_path self Hwf Hnone).
    case_decide; simpl; split_and!; try (split; [done|tauto]);
      try (split; [done|by intros [_ ?]]); [by intros e [= <-]|done].
Qed.

(** On the 3x3 maze without an END cell the start has free neighbours. *)
Lemma X_dfs_fails_witness :
  (result_of (Maze.depth_first_search no_exit) = Raise IndexError ↔
   (¬ ∃ path, valid_path no_exit path) ∧
   Exists (open_cell (grid no_exit))
     (Maze._point_neighbours (start_point no_exit))) ∧
  (result_of (Maze.depth_first_search no_exit) = Return None ↔
   (¬ ∃ path, valid_path no_exit path) ∧
   ¬ Exists (open_cell (grid no_exit))
       (Maze._point_neighbours (start_point no_exit))) ∧
  (∀ e, result_of (Maze.depth_first_search no_exit) = Raise e →
        e = IndexError).
Proof.
  apply X_dfs_fails_by_start_neighbours.
  eapply init_wf, no_exit_init.
Defined.

(** A path returned by either search on a well-formed maze has at most as
    many positions as the grid has cells. *)
Theorem X_returned_path_within_cell_count self path :
  wf_maze self →
  result_of (Maze.breadth_first_search self) = Return (Some path) ∨
  result_of (Maze.depth_first_search self) = Return (Some path) →
  length path ≤ size (grid self).
Proof.
  intros Hwf [H|H].
  - destruct (bfs_found_valid self Hwf path H) as ([_ _ Hw _] & Hnd & _).
    by apply simple_path_length.
  - destruct (dfs_found_valid self Hwf path H) as ([_ _ Hw _] & Hnd).
    by apply simple_path_length.
Qed.

(** The path the breadth-first search returns in the scenario. *)
Lemma X_returned_path_witness :
  length [(0, 0); (1, 0); (2, 0); (2, 1); (2, 2)]%Z ≤ size (grid scenario).
Proof.
  apply X_returned_path_within_cell_count.
  - apply (init_wf scenario_text). vm_compute. reflexivity.
  - left. vm_compute. reflexivity.
Defined.

Lemma returned_route self path :
  result_of (Maze.breadth_first_search self) = Return (Some path) ∨
  result_of (Maze.depth_first_search self) = Return (Some path) →
  ∃ r e, route_ok (grid self) (start_point self) r ∧
         end_neighbour (grid self) r e ∧ path = r ++ [e].
Proof.
  intros [H|H].
  - destruct (bfs_outcome self)
      as [(sol & Heq & r & e & Hr & He & -> & _)|[Heq _]];
      rewrite Heq in H; [|done].
    injection H as <-. eauto.
  - destruct (dfs_outcome self)
      as [(sol & Heq & r & e & Hr & He & ->)|[Heq|Heq]];
      rewrite Heq in H; [|done..].
    injection H as <-. eauto.
Qed.

(** A path returned by either search on a well-formed maze stays inside
    the rectangle of the grid and crosses no wall: it is the start, then
    FREE cells only, then one END cell. *)
Theorem X_returned_path_walks_free_cells self path :
  wf_maze self →
  result_of (Maze.breadth_first_search self) = Return (Some path) ∨
  result_of (Maze.depth_first_search self) = Return (Some path) →
  (∃ inner e,
     path = start_point self :: inner ++ [e] ∧
     Forall (λ p, grid self !! p = Some FREE) inner ∧
     grid self !! e = Some END) ∧
  Forall (λ p, (0 ≤ p.1 < Z.of_nat (grid_corner self).1)%Z ∧
               (0 ≤ p.2 < Z.of_nat (grid_corner self).2)%Z) path.
Proof.
  intros Hwf (r & e & Hr & (p & _ & _ & He) & ->)%returned_route.
  pose proof (route_ok_head _ _ _ Hr) as Hhead.
  pose proof (route_ok_tail_open _ _ _ Hr) as Hopen.
  pose proof (route_ok_NoDup _ _ _ Hr) as Hnd.
  pose proof (route_ok_walkable _ _ _ (wf_start _ Hwf) Hr) as Hwalk.
  destruct r as [|s inner]; [done|]. injection Hhead as ->. simpl in Hopen.
  apply NoDup_cons in Hnd as [Hnin _].
  split.
  - exists inner, e. split_and!; [done| |done].
    rewrite Forall_forall in Hopen |- *. intros q Hq.
    destruct (Hopen q Hq) as (ct & Hct & Hw & Hend).
    destruct ct; try done.
    apply (wf_start_unique _ Hwf) in Hct. by subst.
  - apply Forall_app. split.
    + eapply Forall_impl; [exact Hwalk|]. intros q (ct & Hct & _).
      apply (wf_dom _ Hwf). by exists ct.
    + constructor; [|done]. apply (wf_dom _ Hwf). by exists END.
Qed.

(** The path the depth-first search returns in the scenario. *)
Lemma X_returned_path_walks_witness :
  let path := [(0, 0); (0, 1); (0, 2); (1, 2); (2, 2)]%Z in
  (∃ inner e,
     path = start_point scenario :: inner ++ [e] ∧
     Forall (λ p, grid scenario !! p = Some FREE) inner ∧
     grid scenario !! e = Some END) ∧
  Forall (λ p, (0 ≤ p.1 < Z.of_nat (grid_corner scenario).1)%Z ∧
               (0 ≤ p.2 < Z.of_nat (grid_corner scenario).2)%Z) path.
Proof.
  apply X_returned_path_walks_free_cells.
  - apply (init_wf scenario_text). vm_compute. reflexivity.
  - right. vm_compute. reflexivity.
Defined.

(** The two searches agree on which mazes can be solved: on a well-formed
    maze each of them returns a path exactly when a valid path exists. *)
Theorem X_searches_agree_on_solvability self :
  wf_maze self →
  ((∃ b, result_of (Maze.breadth_first_search self) = Return (Some b)) ↔
   ∃ path, valid_path self path) ∧
  ((∃ d, result_of (Maze.depth_first_search self) = Return (Some d)) ↔
   ∃ path, valid_path self path).
Proof.
  intros Hwf. split; split.
  - intros [b Hb]. exists b. by apply bfs_found_valid.
  - intros [path Hpath]. by apply (bfs_complete self Hwf path).
  - intros [d Hd]. exists d. by apply dfs_found_valid.
  - intros [path Hpath]. by apply (dfs_complete self path).
Qed.

(** Both searches solve the scenario. *)
Lemma X_searches_agree_witness :
  ((∃ b, result_of (Maze.breadth_first_search scenario) = Return (Some b)) ↔
   ∃ path, valid_path scenario path) ∧
  ((∃ d, result_of (Maze.depth_first_search scenario) = Return (Some d)) ↔
   ∃ path, valid_path scenario path).
Proof.
  apply X_searches_agree_on_solvability.
  apply (init_wf scenario_text). vm_compute. reflexivity.
Defined.

(** The searches read the grid and the start point only.  What is cached
    makes no difference to what they return, and a search called again on
    the object that its first call left behaves as the first call did. *)
Theorem X_searches_ignore_the_caches self v :
  (result_of (Maze.breadth_first_search (set_bfs_solution v self))
   = result_of (Maze.breadth_first_search self) ∧
   result_of (Maze.breadth_first_search (set_dfs_solution v self))
   = result_of (Maze.breadth_first_search self) ∧
   Maze.breadth_first_search (maze_of (Maze.breadth_first_search self))
   = Maze.breadth_first_search self) ∧
  (result_of (Maze.depth_first_search (set_bfs_solution v self))
   = result_of (Maze.depth_first_search self) ∧
   result_of (Maze.depth_first_search (set_dfs_solution v self))
   = result_of (Maze.depth_first_search self) ∧
   Maze.depth_first_search (maze_of (Maze.depth_first_search self))
   = Maze.depth_first_search self).
Proof.
  split; split_and!.
  - unfold Maze.breadth_first_search. simpl.
    by destruct (iterate _ _ _) as [?|[?| |?]].
  - unfold Maze.breadth_first_search. simpl.
    by destruct (iterate _ _ _) as [?|[?| |?]].
  - destruct (Maze.breadth_first_search self) as [[r self'] evs] eqn:Hcall.
    unfold Maze.breadth_first_search in *.
    destruct (iterate _ _ _) as [?|[?| |?]] eqn:Hrun;
      injection Hcall as <- <- <-;
      unfold maze_of, set_bfs_solution, set_dfs_solution;
      cbn [fst snd grid start_point];
      by rewrite Hrun.
  - unfold Maze.depth_first_search. simpl.
    by destruct (iterate _ _ _) as [?|[?| |?]].
  - unfold Maze.depth_first_search. simpl.
    by destruct (iterate _ _ _) as [?|[?| |?]].
  - destruct (Maze.depth_first_search self) as [[r self'] evs] eqn:Hcall.
    unfold Maze.depth_first_search in *.
    destruct (iterate _ _ _) as [?|[?| |?]] eqn:Hrun;
      injection Hcall as <- <- <-;
      unfold maze_of, set_bfs_solution, set_dfs_solution;
      cbn [fst snd grid start_point];
      by rewrite Hrun.
Qed.

(** ** Views *)

Lemma calls_same {A} (f : Maze → method A) self r evs n :
  f self = (r, self, evs) →
  calls f n self = (replicate n r, self, mjoin (replicate n evs)).
Proof.
  intros Hf. induction n as [|n IH]; [done|]. simpl. by rewrite Hf, IH.
Qed.

Lemma searches_app a evs1 evs2 :
  searches a (evs1 ++ evs2) = searches a evs1 + searches a evs2.
Proof. unfold searches. by rewrite List.filter_app, length_app. Qed.

Lemma maze_of_bfs self :
  maze_of (Maze.breadth_first_search self) = self ∨
  ∃ v, maze_of (Maze.breadth_first_search self) = set_bfs_solution v self.
Proof.
  destruct (bfs_outcome self) as [(sol & -> & _)|[-> _]];
    [right; eauto|by left].
Qed.

Lemma maze_of_dfs self :
  maze_of (Maze.depth_first_search self) = self ∨
  ∃ v, maze_of (Maze.depth_first_search self) = set_dfs_solution v self.
Proof.
  destruct (dfs_outcome self) as [(sol & -> & _)|[-> | ->]];
    [right; eauto|by left..].
Qed.

Lemma maze_of_view_bfs self :
  maze_of (Maze.view_bfs self) = self ∨
  ∃ v, maze_of (Maze.view_bfs self) = set_bfs_solution v self.
Proof.
  unfold Maze.view_bfs. destruct (bfs_solution self); [by left|].
  pose proof (maze_of_bfs self) as H. revert H.
  by destruct (Maze.breadth_first_search self) as [[[a|e|] self'] evs].
Qed.

Lemma maze_of_view_dfs self :
  maze_of (Maze.view_dfs self) = self ∨
  ∃ v, maze_of (Maze.view_dfs self) = set_dfs_solution v self.
Proof.
  unfold Maze.view_dfs. destruct (dfs_solution self); [by left|].
  pose proof (maze_of_dfs self) as H. revert H.
  by destruct (Maze.depth_first_search self) as [[[a|e|] self'] evs].
Qed.

Lemma wf_set_bfs_solution v self :
  wf_maze self → wf_maze (set_bfs_solution v self).
Proof. by intros []. Qed.

Lemma wf_set_dfs_solution v self :
  wf_maze self → wf_maze (set_dfs_solution v self).
Proof. by intros []. Qed.

(** A view that returns a block on a well-formed maze leaves its path in
    the cache, and the block is the rendering of that path. *)
Lemma view_bfs_Return self out :
  wf_maze self → result_of (Maze.view_bfs self) = Return out →
  ∃ path,
    Maze.view self (Some path) = Return out ∧
    bfs_solution (maze_of (Maze.view_bfs self)) = Some path.
Proof.
  intros Hwf. destruct (bfs_solution self) as [path|] eqn:Hc.
  - rewrite (view_bfs_cached _ _ Hc). simpl. intros Hv. by exists path.
  - destruct (view_bfs_fresh self Hwf Hc) as [(sol & _ & ->)|(_ & evs & ->)];
      [|done].
    simpl. intros Hv. by exists sol.
Qed.

Lemma view_dfs_Return self out :
  wf_maze self → result_of (Maze.view_dfs self) = Return out →
  ∃ path,
    Maze.view self (Some path) = Return out ∧
    dfs_solution (maze_of (Maze.view_dfs self)) = Some path.
Proof.
  intros Hwf. destruct (dfs_solution self) as [path|] eqn:Hc.
  - rewrite (view_dfs_cached _ _ Hc). simpl. intros Hv. by exists path.
  - destruct (view_dfs_fresh self Hwf Hc)
      as [(sol & _ & ->)|(_ & e & evs & ->)]; [|done].
    simpl. intros Hv. by exists sol.
Qed.

Lemma view_bfs_keeps self :
  (wf_maze self → wf_maze (maze_of (Maze.view_bfs self))) ∧
  dfs_solution (maze_of (Maze.view_bfs self)) = dfs_solution self ∧
  ∀ sol, Maze.view (maze_of (Maze.view_bfs self)) sol = Maze.view self sol.
Proof.
  destruct (maze_of_view_bfs self) as [->|[v ->]]; [done|].
  split; [apply wf_set_bfs_solution|done].
Qed.

Lemma view_dfs_keeps self :
  (wf_maze self → wf_maze (maze_of (Maze.view_dfs self))) ∧
  bfs_solution (maze_of (Maze.view_dfs self)) = bfs_solution self ∧
  ∀ sol, Maze.view (maze_of (Maze.view_dfs self)) sol = Maze.view self sol.
Proof.
  destruct (maze_of_view_dfs self) as [->|[v ->]]; [done|].
  split; [apply wf_set_dfs_solution|done].
Qed.

Lemma view_bfs_unsolvable self :
  wf_maze self → bfs_solution self = None →
  (¬ ∃ path, valid_path self path) →
  Maze.view_bfs self =
  (Raise TypeError, self,
   [SearchCall BFS; Stdout "We did not find any solutions for the maze!"]).
Proof.
  intros Hwf Hb Hnone.
  unfold Maze.view_bfs. rewrite Hb, (bfs_not_found self Hwf Hnone). simpl.
  by rewrite Hb, (view_None self Hwf).
Qed.

Lemma view_dfs_unsolvable self :
  wf_maze self → dfs_solution self = None →
  (¬ ∃ path, valid_path self path) →
  ∃ e evs, Maze.view_dfs self = (Raise e, self, evs) ∧
           (e = TypeError ∨ e = IndexError).
Proof.
  intros Hwf Hd Hnone.
  unfold Maze.view_dfs. rewrite Hd, (dfs_without_path self Hwf Hnone).
  case_decide; [by eauto|]. simpl. rewrite Hd, (view_None self Hwf). eauto.
Qed.

Lemma view_dfs_set_bfs_solution v self :
  Maze.view_dfs (set_bfs_solution v self) =
  let '(r, self', evs) := Maze.view_dfs self in
  (r, set_bfs_solution v self', evs).
Proof.
  unfold Maze.view_dfs, Maze.depth_first_search. simpl.
  destruct (dfs_solution self); [done|].
  by destruct (iterate _ _ _) as [?|[?| |?]].
Qed.

Lemma view_bfs_set_dfs_solution v self :
  Maze.view_bfs (set_dfs_solution v self) =
  let '(r, self', evs) := Maze.view_bfs self in
  (r, set_dfs_solution v self', evs).
Proof.
  unfold Maze.view_bfs, Maze.breadth_first_search. simpl.
  destruct (bfs_solution self); [done|].
  by destruct (iterate _ _ _) as [?|[?| |?]].
Qed.

(** A failed search is not remembered.  On a well-formed maze without a
    valid path every call of [view_bfs] runs the search again, prints its
    message and raises the [TypeError] of [in None], leaving the maze as
    it was; [view_dfs] raises [TypeError] or the [IndexError] of its search
    and also leaves the maze as it was. *)
Theorem X_views_of_unsolvable_maze_raise self n :
  wf_maze self →
  bfs_solution self = None → dfs_solution self = None →
  (¬ ∃ path, valid_path self path) →
  Maze.view_bfs self =
  (Raise TypeError, self,
   [SearchCall BFS; Stdout "We did not find any solutions for the maze!"]) ∧
  (calls Maze.view_bfs n self).1 = (replicate n (Raise TypeError), self) ∧
  searches BFS (calls Maze.view_bfs n self).2 = n ∧
  (result_of (Maze.view_dfs self) = Raise TypeError ∨
   result_of (Maze.view_dfs self) = Raise IndexError) ∧
  maze_of (Maze.view_dfs self) = self.
Proof.
  intros Hwf Hb Hd Hnone.
  pose proof (view_bfs_unsolvable self Hwf Hb Hnone) as Hview.
  destruct (view_dfs_unsolvable self Hwf Hd Hnone) as (e & evs & Hdfs & He).
  split_and!; [done| | | |].
  - by rewrite (calls_same _ _ _ _ n Hview).
  - rewrite (calls_same _ _ _ _ n Hview). simpl.
    induction n as [|n IH]; [done|]. simpl. cbn in IH. unfold searches in *.
    simpl. by rewrite IH.
  - rewrite Hdfs. simpl. by destruct He as [-> | ->]; [left|right].
  - by rewrite Hdfs.
Qed.

(** Two views in a row of the maze [S ]. *)
Lemma X_views_of_unsolvable_witness :
  Maze.view_bfs dead_end =
  (Raise TypeError, dead_end,
   [SearchCall BFS; Stdout "We did not find any solutions for the maze!"]) ∧
  (calls Maze.view_bfs 2 dead_end).1
  = (replicate 2 (Raise TypeError), dead_end) ∧
  searches BFS (calls Maze.view_bfs 2 dead_end).2 = 2 ∧
  (result_of (Maze.view_dfs dead_end) = Raise TypeError ∨
   result_of (Maze.view_dfs dead_end) = Raise IndexError) ∧
  maze_of (Maze.view_dfs dead_end) = dead_end.
Proof.
  assert (wf_maze dead_end) as Hwf by apply (init_wf "S "), dead_end_init.
  apply X_views_of_unsolvable_maze_raise; [exact Hwf|reflexivity..|].
  apply (not_found_no_path _ Hwf). vm_compute. reflexivity.
Defined.

(** The two views do not disturb each other: whatever [view_bfs] did
    before, [view_dfs] returns the same result and stores the same
    [dfs_solution] as on the untouched maze, and the other way round; this
    holds for every maze and every outcome. *)
Theorem X_views_are_independent self :
  result_of (Maze.view_dfs (maze_of (Maze.view_bfs self)))
  = result_of (Maze.view_dfs self) ∧
  dfs_solution (maze_of (Maze.view_dfs (maze_of (Maze.view_bfs self))))
  = dfs_solution (maze_of (Maze.view_dfs self)) ∧
  result_of (Maze.view_bfs (maze_of (Maze.view_dfs self)))
  = result_of (Maze.view_bfs self) ∧
  bfs_solution (maze_of (Maze.view_bfs (maze_of (Maze.view_dfs self))))
  = bfs_solution (maze_of (Maze.view_bfs self)).
Proof.
  split_and!.
  - destruct (maze_of_view_bfs self) as [->|[v ->]]; [done|].
    rewrite view_dfs_set_bfs_solution.
    by destruct (Maze.view_dfs self) as [[r self'] evs].
  - destruct (maze_of_view_bfs self) as [->|[v ->]]; [done|].
    rewrite view_dfs_set_bfs_solution.
    by destruct (Maze.view_dfs self) as [[r self'] evs].
  - destruct (maze_of_view_dfs self) as [->|[v ->]]; [done|].
    rewrite view_bfs_set_dfs_solution.
    by destruct (Maze.view_bfs self) as [[r self'] evs].
  - destruct (maze_of_view_dfs self) as [->|[v ->]]; [done|].
    rewrite view_bfs_set_dfs_solution.
    by destruct (Maze.view_bfs self) as [[r self'] evs].
Qed.

(** In the block a view returns for a well-formed maze, the cells that
    show [*] are exactly the cells on the path; the block has one line of
    [cols] characters and a newline for every row. *)
Theorem X_stars_mark_exactly_the_path self path :
  wf_maze self →
  ∀ out, Maze.view self (Some path) = Return out →
    String.length out = (grid_corner self).1 * S (grid_corner self).2 ∧
    (∀ r, r < (grid_corner self).1 →
          String.get (offset self r (grid_corner self).2) out
          = Some newline) ∧
    ∀ r c, r < (grid_corner self).1 → c < (grid_corner self).2 →
      (String.get (offset self r c) out = Some "*"%char ↔
       Maze.position r c ∈ path).
Proof.
  intros Hwf out. rewrite (view_render self Hwf). intros [= <-].
  split_and!.
  - apply render_length.
  - intros r Hr. by apply render_get_newline.
  - intros r c Hr Hc. unfold offset.
    rewrite render_get by (auto using overlay_char_Some).
    unfold overlay_char, base_char. case_decide; [done|].
    destruct (wf_cell self Hwf r c Hr Hc) as [ct ->]. simpl.
    split; [|done]. by destruct ct.
Qed.

(** The view of the scenario for the path of the breadth-first search. *)
Lemma X_stars_mark_witness :
  let path := [(0, 0); (1, 0); (2, 0); (2, 1); (2, 2)]%Z in
  let out := "*  " +:+ String newline ("*# " +:+ String newline
             ("***" +:+ String newline "")) in
  String.length out = (grid_corner scenario).1 * S (grid_corner scenario).2 ∧
  (∀ r, r < (grid_corner scenario).1 →
        String.get (offset scenario r (grid_corner scenario).2) out
        = Some newline) ∧
  ∀ r c, r < (grid_corner scenario).1 → c < (grid_corner scenario).2 →
    (String.get (offset scenario r c) out = Some "*"%char ↔
     Maze.position r c ∈ path).
Proof.
  apply (X_stars_mark_exactly_the_path scenario).
  - apply (init_wf scenario_text). vm_compute. reflexivity.
  - vm_compute. reflexivity.
Defined.

(** ** The command line program *)

Lemma write_file_inr sys fs name content fs' :
  write_file sys fs name content = inr fs' →
  sys fs name content = Written ∧ fs' = <[name := content]> fs.
Proof.
  unfold write_file. destruct (sys fs name content); [|done..].
  by intros [= <-].
Qed.

Lemma write_file_ok sys fs name content :
  sys fs name content = Written →
  write_file sys fs name content = inr (<[name := content]> fs).
Proof. intros H. unfold write_file. by rewrite H. Qed.

Lemma write_file_inl sys fs name content e fs' k :
  write_file sys fs name content = inl (e, fs') →
  k ≠ name → fs' !! k = fs !! k.
Proof.
  unfold write_file. destruct (sys fs name content); [done|..].
  - by intros [= _ <-].
  - intros [= _ <-] Hk. by rewrite lookup_insert_ne.
Qed.

Lemma write_view_inr sys view name maze fs evs st :
  write_view sys view name (maze, fs, evs) = inr st →
  ∃ out,
    result_of (view maze) = Return out ∧
    sys fs name (TextFile out) = Written ∧
    st = (maze_of (view maze), <[name := TextFile out]> fs,
          evs ++ events_of (view maze)).
Proof.
  unfold write_view. destruct (view maze) as [[[out|e|] maze'] evs']; [|done..].
  destruct (write_file _ _ _ _) as [[e fs']|fs'] eqn:Hw; [done|].
  apply write_file_inr in Hw as [? ->]. intros [= <-]. by exists out.
Qed.

Lemma write_view_inl sys view name maze fs evs r fs' evs' :
  write_view sys view name (maze, fs, evs) = inl (r, fs', evs') →
  r ≠ Exited ∧ ∀ k, k ≠ name → fs' !! k = fs !! k.
Proof.
  unfold write_view. destruct (view maze) as [[[out|e|] maze'] evs0].
  - destruct (write_file _ _ _ _) as [[e fs1]|fs1] eqn:Hw; [|done].
    intros [= <- <- <-]. split; [done|]. intros k.
    by apply (write_file_inl _ _ _ _ _ _ _ Hw).
  - by intros [= <- <- <-].
  - by intros [= <- <- <-].
Qed.

Lemma write_view_ok sys view name maze fs evs out maze' evs' :
  view maze = (Return out, maze', evs') →
  sys fs name (TextFile out) = Written →
  write_view sys view name (maze, fs, evs)
  = inr (maze', <[name := TextFile out]> fs, evs ++ evs').
Proof. intros Hv Hf. unfold write_view. by rewrite Hv, write_file_ok. Qed.

Lemma write_view_Raise sys view name maze fs evs e maze' evs' :
  view maze = (Raise e, maze', evs') →
  write_view sys view name (maze, fs, evs)
  = inl (Raised (MazeError e), fs, evs ++ evs').
Proof. intros Hv. unfold write_view. by rewrite Hv. Qed.

Lemma write_view_again sys view name maze fs out :
  view maze = (Return out, maze, []) →
  fs !! name = Some (TextFile out) →
  sys fs name (TextFile out) = Written →
  write_view sys view name (maze, fs, []) = inr (maze, fs, []).
Proof.
  intros Hv Hf Hw. rewrite (write_view_ok _ _ _ _ _ _ _ _ _ Hv Hw).
  by rewrite insert_id.
Qed.

Lemma output_names_differ (output : string) :
  output +:+ "_bfs.txt" ≠ output +:+ "_dfs.txt" ∧
  output +:+ "_bfs.txt" ≠ output +:+ ".pickle" ∧
  output +:+ "_dfs.txt" ≠ output +:+ ".pickle".
Proof. split_and!; by intros ?%(inj (String.app output)). Qed.

Lemma load_maze_txt args fs raw_maze :
  suffix (Args.maze_file args) = ".txt" →
  fs !! path_string (Args.maze_file args) = Some (TextFile raw_maze) →
  load_maze args fs =
  match Maze.__init__ raw_maze with
  | Return maze => inr maze
  | Raise e => inl (Raised (MazeError e))
  | OutOfFuel => inl Unfinished
  end.
Proof. intros Hs Hf. unfold load_maze. by rewrite Hs, Hf. Qed.

Lemma load_maze_txt_inr args fs maze :
  suffix (Args.maze_file args) = ".txt" →
  load_maze args fs = inr maze →
  ∃ raw_maze,
    fs !! path_string (Args.maze_file args) = Some (TextFile raw_maze) ∧
    Maze.__init__ raw_maze = Return maze.
Proof.
  intros Hs. unfold load_maze. rewrite Hs.
  destruct (decide _) as [_|]; [|done].
  destruct (fs !! _) as [[raw| |]|]; [|done..].
  destruct (Maze.__init__ raw) as [m| |] eqn:Hm; [|done..].
  intros [= <-]. eauto.
Qed.

Lemma load_maze_inl args fs r : load_maze args fs = inl r → r ≠ Exited.
Proof.
  unfold load_maze. repeat case_decide.
  - destruct (fs !! _) as [[raw| |]|]; [|by intros [= <-]..].
    by destruct (Maze.__init__ raw); intros [= <-].
  - by destruct (fs !! _) as [[raw| |]|]; intros [= <-].
  - by intros [= <-].
Qed.

(** [main] writes only the files it was asked for: a file whose name is
    not that of a requested rendering and not that of a requested pickle
    is, after [main], what it was before, whatever [main] ends with and
    whatever the system does with the writing. *)
Theorem X_main_writes_only_its_outputs sys args fs name :
  (Args.algorithm args = "bfs" ∨ Args.algorithm args = "both" →
   name ≠ Args.output args +:+ "_bfs.txt") →
  (Args.algorithm args = "dfs" ∨ Args.algorithm args = "both" →
   name ≠ Args.output args +:+ "_dfs.txt") →
  (Args.save_pickle args = true → name ≠ Args.output args +:+ ".pickle") →
  (main sys args fs).1.2 !! name = fs !! name.
Proof.
  intros Hb Hd Hp. unfold main.
  destruct (load_maze args fs) as [r|maze]; [done|].
  assert (∀ st', (if decide (Args.algorithm args = "bfs" ∨
                             Args.algorithm args = "both")
                  then write_view sys Maze.view_bfs
                         (Args.output args +:+ "_bfs.txt") (maze, fs, [])
                  else inr (maze, fs, [])) = st' →
                 match st' with
                 | inl stop => stop.1.2 !! name = fs !! name
                 | inr st => st.1.2 !! name = fs !! name
                 end) as Hstage1.
  { intros st' <-. case_decide as Ha; [|done].
    destruct (write_view _ _ _ _) as [[[r fs'] evs']|st] eqn:Hw.
    - apply write_view_inl in Hw as [_ Hw]. simpl. auto.
    - apply write_view_inr in Hw as (out & _ & _ & ->). simpl.
      by rewrite lookup_insert_ne by (symmetry; auto). }
  specialize (Hstage1 _ eq_refl). revert Hstage1.
  destruct (if decide (Args.algorithm args = "bfs" ∨ _) then _ else _)
    as [[[r fs'] evs']|[[maze1 fs1] evs1]]; simpl; [done|].
  intros <-.
  assert (∀ st', (if decide (Args.algorithm args = "dfs" ∨
                             Args.algorithm args = "both")
                  then write_view sys Maze.view_dfs
                         (Args.output args +:+ "_dfs.txt") (maze1, fs1, evs1)
                  else inr (maze1, fs1, evs1)) = st' →
                 match st' with
                 | inl stop => stop.1.2 !! name = fs1 !! name
                 | inr st => st.1.2 !! name = fs1 !! name
                 end) as Hstage2.
  { intros st' <-. case_decide as Ha; [|done].
    destruct (write_view _ _ _ _) as [[[r fs'] evs']|st] eqn:Hw.
    - apply write_view_inl in Hw as [_ Hw]. simpl. auto.
    - apply write_view_inr in Hw as (out & _ & _ & ->). simpl.
      by rewrite lookup_insert_ne by (symmetry; auto). }
  specialize (Hstage2 _ eq_refl). revert Hstage2.
  destruct (if decide (Args.algorithm args = "dfs" ∨ _) then _ else _)
    as [[[r fs'] evs']|[[maze2 fs2] evs2]]; simpl; [done|].
  intros <-. destruct (Args.save_pickle args); [|done].
  destruct (write_file _ _ _ _) as [[e fs3]|fs3] eqn:Hw; simpl.
  - apply (write_file_inl _ _ _ _ _ _ _ Hw). auto.
  - apply write_file_inr in Hw as [_ ->].
    by rewrite lookup_insert_ne by (symmetry; auto).
Qed.

(** With [-a bfs] an old [o_dfs.txt] stays. *)
Lemma X_main_writes_only_its_outputs_witness :
  let args := {| Args.maze_file :=
                   {| path_string := "m.txt"; suffix := ".txt" |};
                 Args.algorithm := "bfs"; Args.output := "o";
                 Args.save_pickle := false |} in
  let fs : filesystem :=
    {[ "m.txt" := TextFile scenario_text; "o_dfs.txt" := TextFile "old" ]} in
  (main willing args fs).1.2 !! "o_dfs.txt" = fs !! "o_dfs.txt".
Proof.
  apply X_main_writes_only_its_outputs.
  - intros _. vm_compute. discriminate.
  - simpl. intros [H|H]; discriminate H.
  - simpl. discriminate.
Defined.

(** A maze without a valid path makes [main] fail before it writes
    anything.  When the text file holds a well-formed maze from whose start
    no END cell can be reached, [main] ends with the [TypeError] of the
    view (or, for the depth-first search alone, possibly with the
    [IndexError] of the search), and the file system is as before. *)
Theorem X_main_fails_on_unsolvable_maze sys args fs raw_maze maze :
  suffix (Args.maze_file args) = ".txt" →
  fs !! path_string (Args.maze_file args) = Some (TextFile raw_maze) →
  Maze.__init__ raw_maze = Return maze →
  (¬ ∃ path, valid_path maze path) →
  Args.algorithm args ∈ ["bfs"; "dfs"; "both"] →
  ∃ e evs,
    main sys args fs = (Raised (MazeError e), fs, evs) ∧
    (e = TypeError ∨ e = IndexError) ∧
    (Args.algorithm args ≠ "dfs" →
     e = TypeError ∧
     evs = [SearchCall BFS;
            Stdout "We did not find any solutions for the maze!"]).
Proof.
  intros Hs Hf Hinit Hnone Halg.
  pose proof (init_wf _ _ Hinit) as Hwf.
  apply init_Return in Hinit as Hcaches.
  destruct Hcaches as (_ & _ & _ & _ & Hb & Hd & _).
  unfold main. rewrite (load_maze_txt _ _ _ Hs Hf), Hinit.
  destruct (decide (Args.algorithm args = "bfs" ∨
                    Args.algorithm args = "both")) as [Ha|Ha].
  - rewrite (write_view_Raise _ _ _ _ _ _ _ _ _
               (view_bfs_unsolvable maze Hwf Hb Hnone)).
    eexists _, _. split; [done|]. split; [by left|done].
  - assert (Args.algorithm args = "dfs") as Hdfs.
    { rewrite !elem_of_cons, elem_of_nil in Halg. tauto. }
    rewrite decide_True by by left.
    destruct (view_dfs_unsolvable maze Hwf Hd Hnone) as (e & evs & Hv & He).
    rewrite (write_view_Raise _ _ _ _ _ _ _ _ _ Hv).
    eexists _, _. split; [done|]. split; [done|]. by intros [].
Qed.

(** The maze [S ] in [m.txt]. *)
Lemma X_main_fails_on_unsolvable_witness :
  let args := {| Args.maze_file :=
                   {| path_string := "m.txt"; suffix := ".txt" |};
                 Args.algorithm := "both"; Args.output := "o";
                 Args.save_pickle := true |} in
  let fs : filesystem := {[ "m.txt" := TextFile "S " ]} in
  ∃ e evs,
    main willing args fs = (Raised (MazeError e), fs, evs) ∧
    (e = TypeError ∨ e = IndexError) ∧
    (Args.algorithm args ≠ "dfs" →
     e = TypeError ∧
     evs = [SearchCall BFS;
            Stdout "We did not find any solutions for the maze!"]).
Proof.
  apply (X_main_fails_on_unsolvable_maze willing _ _ "S " dead_end).
  - reflexivity.
  - vm_compute. reflexivity.
  - vm_compute. reflexivity.
  - apply not_found_no_path.
    + apply (init_wf "S "). vm_compute. reflexivity.
    + vm_compute. reflexivity.
  - simpl. rewrite !elem_of_cons. auto.
Defined.

(** With [-a both] on a text file that holds a maze with a valid path,
    the searches find their paths and the views render them; and if the
    system writes the files, [main] ends normally after one run of each
    search, with the rendering of the shortest path in
    [<output>_bfs.txt], the rendering of the depth-first path in
    [<output>_dfs.txt] and, when asked to, the maze with both paths cached
    in [<output>.pickle]. *)
Theorem X_main_writes_both_views sys args fs raw_maze maze path :
  suffix (Args.maze_file args) = ".txt" →
  fs !! path_string (Args.maze_file args) = Some (TextFile raw_maze) →
  Maze.__init__ raw_maze = Return maze →
  valid_path maze path →
  Args.algorithm args = "both" →
  ∃ b d out_b out_d,
    let solved := set_dfs_solution (Some d) (set_bfs_solution (Some b) maze) in
    let fs1 := <[Args.output args +:+ "_bfs.txt" := TextFile out_b]> fs in
    let fs2 := <[Args.output args +:+ "_dfs.txt" := TextFile out_d]> fs1 in
    result_of (Maze.breadth_first_search maze) = Return (Some b) ∧
    result_of (Maze.depth_first_search maze) = Return (Some d) ∧
    Maze.view maze (Some b) = Return out_b ∧
    Maze.view maze (Some d) = Return out_d ∧
    (sys fs (Args.output args +:+ "_bfs.txt") (TextFile out_b) = Written →
     sys fs1 (Args.output args +:+ "_dfs.txt") (TextFile out_d) = Written →
     (Args.save_pickle args = true →
      sys fs2 (Args.output args +:+ ".pickle") (PickleFile solved)
      = Written) →
     main sys args fs =
     (Exited,
      (if Args.save_pickle args
       then <[Args.output args +:+ ".pickle" := PickleFile solved]> fs2
       else fs2),
      [SearchCall BFS; SearchCall DFS])).
Proof.
  intros Hs Hf Hinit Hpath Halg.
  pose proof (init_wf _ _ Hinit) as Hwf.
  apply init_Return in Hinit as Hcaches.
  destruct Hcaches as (_ & _ & _ & _ & Hb & Hd & _).
  destruct (view_bfs_fresh maze Hwf Hb) as [(b & Hbfs & Hvb)|[Hno _]];
    [|by destruct (bfs_complete maze Hwf path Hpath) as [b ?%Hno]].
  destruct (view_dfs_fresh maze Hwf Hd) as [(d & Hdfs & Hvd)|[Hno _]];
    [|by destruct (dfs_complete maze path Hwf Hpath) as [d ?%Hno]].
  exists b, d. eexists _, _. cbv zeta.
  split; [done|]. split; [done|].
  split; [apply (view_render maze Hwf)|].
  split; [apply (view_render maze Hwf)|].
  intros Hob Hod Hpk.
  rewrite (view_render maze Hwf) in Hvb, Hvd.
  unfold main. rewrite (load_maze_txt _ _ _ Hs Hf), Hinit, Halg.
  rewrite decide_True by by right.
  rewrite (write_view_ok _ _ _ _ _ _ _ _ _ Hvb Hob).
  rewrite decide_True by by right.
  assert (Maze.view_dfs (set_bfs_solution (Some b) maze) =
          (Return (render (overlay_char maze d) (grid_corner maze).1
                     (grid_corner maze).2),
           set_dfs_solution (Some d) (set_bfs_solution (Some b) maze),
           [SearchCall DFS])) as Hvd'.
  { by rewrite view_dfs_set_bfs_solution, Hvd. }
  rewrite (write_view_ok _ _ _ _ _ _ _ _ _ Hvd' Hod).
  destruct (Args.save_pickle args); [|done].
  by rewrite write_file_ok by auto.
Qed.

(** The scenario of the specification in [m.txt], on a system that
    writes the three files. *)
Lemma X_main_writes_both_views_witness :
  let args := {| Args.maze_file :=
                   {| path_string := "m.txt"; suffix := ".txt" |};
                 Args.algorithm := "both"; Args.output := "o";
                 Args.save_pickle := true |} in
  let fs : filesystem := {[ "m.txt" := TextFile scenario_text ]} in
  ∃ b d out_b out_d,
    result_of (Maze.breadth_first_search scenario) = Return (Some b) ∧
    result_of (Maze.depth_first_search scenario) = Return (Some d) ∧
    Maze.view scenario (Some b) = Return out_b ∧
    Maze.view scenario (Some d) = Return out_d ∧
    main willing args fs =
    (Exited,
     <["o.pickle" := PickleFile (set_dfs_solution (Some d)
                                   (set_bfs_solution (Some b) scenario))]>
       (<["o_dfs.txt" := TextFile out_d]>
          (<["o_bfs.txt" := TextFile out_b]> fs)),
     [SearchCall BFS; SearchCall DFS]).
Proof.
  destruct (X_main_writes_both_views willing
              {| Args.maze_file :=
                   {| path_string := "m.txt"; suffix := ".txt" |};
                 Args.algorithm := "both"; Args.output := "o";
                 Args.save_pickle := true |}
              {[ "m.txt" := TextFile scenario_text ]}
              scenario_text scenario
              [(0, 0); (0, 1); (0, 2); (1, 2); (2, 2)]%Z)
    as (b & d & out_b & out_d & Hb & Hd & Hvb & Hvd & Hmain).
  - reflexivity.
  - vm_compute. reflexivity.
  - vm_compute. reflexivity.
  - apply scenario_path_valid.
  - reflexivity.
  - exists b, d, out_b, out_d. split_and!; [done..|].
    apply Hmain; reflexivity.
Defined.

(** The pickle that [main] saves stands for the run that saved it.  Take
    a run from a text file that ended normally with [-sp], and run again
    with the same algorithm and output prefix from a path that names
    [<output>.pickle] and has the suffix [.pickle].  If the system writes
    again what the three output files hold, the second run ends normally,
    invokes no search and leaves every file as the first run left it: the
    renderings it writes are those already written. *)
Theorem X_main_rerun_from_pickle sys sys' args fs fs' evs pickle
    (again : bool) :
  suffix (Args.maze_file args) = ".txt" →
  Args.save_pickle args = true →
  main sys args fs = (Exited, fs', evs) →
  path_string pickle = Args.output args +:+ ".pickle" →
  suffix pickle = ".pickle" →
  (∀ name content,
     name ∈ [Args.output args +:+ "_bfs.txt";
             Args.output args +:+ "_dfs.txt";
             Args.output args +:+ ".pickle"] →
     fs' !! name = Some content →
     sys' fs' name content = Written) →
  main sys' {| Args.maze_file := pickle;
               Args.algorithm := Args.algorithm args;
               Args.output := Args.output args;
               Args.save_pickle := again |} fs'
  = (Exited, fs', []).
Proof.
  intros Hs Hsp Hrun Hname Hsuffix Hsys. revert Hrun Hsys. unfold main at 1.
  destruct (load_maze args fs) as [r|maze] eqn:Hload;
    [by intros [= -> _ _]; apply load_maze_inl in Hload|].
  apply (load_maze_txt_inr _ _ _ Hs) in Hload as (raw & _ & Hinit).
  pose proof (init_wf _ _ Hinit) as Hwf. clear Hinit raw.
  destruct (output_names_differ (Args.output args)) as (Hbd & Hbp & Hdp).
  set (ob := Args.output args +:+ "_bfs.txt") in *.
  set (od := Args.output args +:+ "_dfs.txt") in *.
  set (pk := Args.output args +:+ ".pickle") in *.
  (* the first stage *)
  assert (∀ st', (if decide (Args.algorithm args = "bfs" ∨
                             Args.algorithm args = "both")
                  then write_view sys Maze.view_bfs ob (maze, fs, [])
                  else inr (maze, fs, [])) = st' →
                 match st' with
                 | inl stop => stop.1.1 ≠ Exited
                 | inr (maze1, fs1, evs1) =>
                     wf_maze maze1 ∧
                     (∀ sol, Maze.view maze1 sol = Maze.view maze sol) ∧
                     (Args.algorithm args = "bfs" ∨
                      Args.algorithm args = "both" →
                      ∃ b out, bfs_solution maze1 = Some b ∧
                               Maze.view maze (Some b) = Return out ∧
                               fs1 !! ob = Some (TextFile out))
                 end) as Hstage1.
  { intros st' <-. case_decide as Ha; [|done].
    destruct (write_view _ _ _ _) as [[[r fs1] evs1]|st] eqn:Hw.
    - by apply write_view_inl in Hw as [? _].
    - apply write_view_inr in Hw as (out & Hv & _ & ->).
      destruct (view_bfs_keeps maze) as (Hwf1 & _ & Hview).
      split; [auto|]. split; [done|]. intros _.
      destruct (view_bfs_Return maze out Hwf Hv) as (b & Hout & Hcache).
      exists b, out. by rewrite lookup_insert_eq. }
  specialize (Hstage1 _ eq_refl). revert Hstage1.
  destruct (if decide (Args.algorithm args = "bfs" ∨ _) then _ else _)
    as [[[r fs1] evs1]|[[maze1 fs1] evs1]]; simpl;
    [by intros ? [= -> _ _]|].
  intros (Hwf1 & Hview1 & Hb1).
  (* the second stage *)
  assert (∀ st', (if decide (Args.algorithm args = "dfs" ∨
                             Args.algorithm args = "both")
                  then write_view sys Maze.view_dfs od (maze1, fs1, evs1)
                  else inr (maze1, fs1, evs1)) = st' →
                 match st' with
                 | inl stop => stop.1.1 ≠ Exited
                 | inr (maze2, fs2, evs2) =>
                     (∀ sol, Maze.view maze2 sol = Maze.view maze sol) ∧
                     (Args.algorithm args = "bfs" ∨
                      Args.algorithm args = "both" →
                      ∃ b out, bfs_solution maze2 = Some b ∧
                               Maze.view maze (Some b) = Return out ∧
                               fs2 !! ob = Some (TextFile out)) ∧
                     (Args.algorithm args = "dfs" ∨
                      Args.algorithm args = "both" →
                      ∃ d out, dfs_solution maze2 = Some d ∧
                               Maze.view maze (Some d) = Return out ∧
                               fs2 !! od = Some (TextFile out))
                 end) as Hstage2.
  { intros st' <-. case_decide as Ha; [|done].
    destruct (write_view _ _ _ _) as [[[r fs2] evs2]|st] eqn:Hw.
    - by apply write_view_inl in Hw as [? _].
    - apply write_view_inr in Hw as (out & Hv & _ & ->).
      destruct (view_dfs_keeps maze1) as (_ & Hsame & Hview).
      split; [by intros sol; rewrite Hview|]. split.
      + intros (b & outb & ? & ? & ?)%Hb1. exists b, outb.
        by rewrite Hsame, lookup_insert_ne.
      + intros _.
        destruct (view_dfs_Return maze1 out Hwf1 Hv) as (d & Hout & Hcache).
        exists d, out. by rewrite <- Hview1, lookup_insert_eq. }
  specialize (Hstage2 _ eq_refl). revert Hstage2.
  destruct (if decide (Args.algorithm args = "dfs" ∨ _) then _ else _)
    as [[[r fs2] evs2]|[[maze2 fs2] evs2]]; simpl;
    [by intros ? [= -> _ _]|].
  intros (Hview2 & Hb2 & Hd2). rewrite Hsp.
  destruct (write_file _ _ _ _) as [[e fs3]|fs3] eqn:Hw; [done|].
  apply write_file_inr in Hw as [_ ->]. intros [= <- _] Hsys.
  (* the second run *)
  unfold main, load_maze.
  cbn [Args.maze_file Args.algorithm Args.output Args.save_pickle].
  rewrite Hname, Hsuffix.
  rewrite decide_False by done. rewrite decide_True by done.
  fold ob od pk. rewrite lookup_insert_eq.
  assert ((if decide (Args.algorithm args = "bfs" ∨
                      Args.algorithm args = "both")
           then write_view sys' Maze.view_bfs ob
                  (maze2, <[pk := PickleFile maze2]> fs2, [])
           else inr (maze2, <[pk := PickleFile maze2]> fs2, []))
          = inr (maze2, <[pk := PickleFile maze2]> fs2, [])) as ->.
  { case_decide as Ha; [|done].
    destruct (Hb2 Ha) as (b & out & Hcache & Hout & Hfile).
    assert (<[pk := PickleFile maze2]> fs2 !! ob = Some (TextFile out))
      as Hfile' by by rewrite lookup_insert_ne.
    apply (write_view_again _ _ _ _ _ out); [|done|].
    - by rewrite (view_bfs_cached _ _ Hcache), Hview2, Hout.
    - apply Hsys; [|done]. rewrite !elem_of_cons. auto. }
  assert ((if decide (Args.algorithm args = "dfs" ∨
                      Args.algorithm args = "both")
           then write_view sys' Maze.view_dfs od
                  (maze2, <[pk := PickleFile maze2]> fs2, [])
           else inr (maze2, <[pk := PickleFile maze2]> fs2, []))
          = inr (maze2, <[pk := PickleFile maze2]> fs2, [])) as ->.
  { case_decide as Ha; [|done].
    destruct (Hd2 Ha) as (d & out & Hcache & Hout & Hfile).
    assert (<[pk := PickleFile maze2]> fs2 !! od = Some (TextFile out))
      as Hfile' by by rewrite lookup_insert_ne.
    apply (write_view_again _ _ _ _ _ out); [|done|].
    - by rewrite (view_dfs_cached _ _ Hcache), Hview2, Hout.
    - apply Hsys; [|done]. rewrite !elem_of_cons. auto. }
  destruct again; [|done].
  rewrite write_file_ok.
  - by rewrite insert_insert_eq.
  - apply Hsys; [|by rewrite lookup_insert_eq]. rewrite !elem_of_cons. auto.
Qed.

(** A run on the scenario and a second run from [o.pickle]. *)
Lemma X_main_rerun_from_pickle_witness :
  let args := {| Args.maze_file :=
                   {| path_string := "m.txt"; suffix := ".txt" |};
                 Args.algorithm := "both"; Args.output := "o";
                 Args.save_pickle := true |} in
  let fs : filesystem := {[ "m.txt" := TextFile scenario_text ]} in
  main willing
    {| Args.maze_file :=
         {| path_string := "o.pickle"; suffix := ".pickle" |};
       Args.algorithm := "both"; Args.output := "o";
       Args.save_pickle := false |}
    (main willing args fs).1.2
  = (Exited, (main willing args fs).1.2, []).
Proof.
  apply (X_main_rerun_from_pickle willing willing
           {| Args.maze_file :=
                {| path_string := "m.txt"; suffix := ".txt" |};
              Args.algorithm := "both"; Args.output := "o";
              Args.save_pickle := true |}
           {[ "m.txt" := TextFile scenario_text ]} _
           [SearchCall BFS; SearchCall DFS]
           {| path_string := "o.pickle"; suffix := ".pickle" |} false).
  - reflexivity.
  - reflexivity.
  - vm_compute. reflexivity.
  - reflexivity.
  - reflexivity.
  - reflexivity.
Defined.
